(** * ImageSubuV1: noise overlays on page images

    A shallow embedding of the content scripts of the extension: the
    settings normalisation and the opacity mapping, the noise generator,
    the overlay manager working on the page's DOM, and the selection and
    export variant with its message handler.

    Conventions of the embedding.
    - A JavaScript number is a value of [number]: NaN, the two infinities,
      or a finite value carried as an exact rational.  Comparisons, [min]
      and [max] are exact on binary64 as well; the only rounding operation
      of the settings code is the division by 100, which is taken exactly
      here.  Signed zeros are not distinguished.
    - The DOM is a store from node identities to element records, with the
      parent pointer and the ordered child list of every element.
    - Values produced by the hosting environment (the texture data URL of
      a canvas, the outcome of a pixel read, the clock) are arguments of
      the operations that consume them. *)

From Stdlib Require Import ZArith QArith Qround Reals Lra Lia String Ascii List.
From Stdlib Require Import DecimalString.
From Stdlib Require PrimFloat.
From stdpp Require Import gmap strings list fin_maps.

Local Open Scope string_scope.

(* ===================================================================== *)
(** ** JavaScript numbers and values *)
(* ===================================================================== *)

Module JsNum.

Inductive number :=
  | NaN
  | NegInf
  | Fin (q : Q)
  | PosInf.

Definition isNaN (x : number) : bool :=
  match x with NaN => true | _ => false end.

(** [x <= y] as the language evaluates it: false when an operand is NaN. *)
Definition leb (x y : number) : bool :=
  match x, y with
  | NaN, _ | _, NaN => false
  | NegInf, _ => true
  | _, PosInf => true
  | Fin p, Fin q => Qle_bool p q
  | _, _ => false
  end.

Definition le (x y : number) : Prop := leb x y = true.

(** Numeric equality ([===] on numbers): NaN differs from everything. *)
Definition eqb (x y : number) : bool := leb x y && leb y x.

(** [Math.max] and [Math.min]: NaN is contagious. *)
Definition Math_max (a b : number) : number :=
  match a, b with
  | NaN, _ | _, NaN => NaN
  | _, _ => if leb a b then b else a
  end.

Definition Math_min (a b : number) : number :=
  match a, b with
  | NaN, _ | _, NaN => NaN
  | _, _ => if leb a b then a else b
  end.

(** Division by a positive finite constant (the only division the
    settings code performs). *)
Definition divPos (x : number) (d : Q) : number :=
  match x with
  | Fin q => Fin (q / d)
  | other => other
  end.

(** *** Rendering: [Number.prototype.toString]

    Finite values are rendered in plain decimal notation, the notation the
    language uses for magnitudes in [1e-6, 1e21): integer digits, then the
    fraction digits without trailing zeros. *)

Definition digitsOfN (n : N) : string := NilZero.string_of_uint (N.to_uint n).

Fixpoint fractionDigits (fuel : nat) (r den : N) : string :=
  match fuel with
  | O => ""
  | S fuel' =>
      if (r =? 0)%N then ""
      else
        let r10 := (r * 10)%N in
        digitsOfN (r10 / den) ++ fractionDigits fuel' (r10 mod den) den
  end.

Definition renderQ (q : Q) : string :=
  let n := Z.abs_N (Qnum q) in
  let d := Npos (Qden q) in
  let whole := digitsOfN (n / d) in
  let frac := fractionDigits 21 (n mod d) d in
  let body := if String.eqb frac "" then whole else whole ++ "." ++ frac in
  if (Qnum q <? 0)%Z then "-" ++ body else body.

Definition toString (x : number) : string :=
  match x with
  | NaN => "NaN"
  | PosInf => "Infinity"
  | NegInf => "-Infinity"
  | Fin q => renderQ q
  end.

(** *** Parsing: [Number(string)], the StringNumericLiteral grammar *)

Definition isWhiteSpace (a : ascii) : bool :=
  match nat_of_ascii a with
  | 9 | 10 | 11 | 12 | 13 | 32 => true
  | _ => false
  end.

Fixpoint trimStart (l : list ascii) : list ascii :=
  match l with
  | a :: r => if isWhiteSpace a then trimStart r else l
  | [] => []
  end.

Definition trim (l : list ascii) : list ascii :=
  rev (trimStart (rev (trimStart l))).

Definition digitValue (base : N) (a : ascii) : option N :=
  let c := N_of_ascii a in
  let v :=
    if ((48 <=? c) && (c <=? 57))%N then Some (c - 48)%N
    else if ((97 <=? c) && (c <=? 102))%N then Some (c - 87)%N
    else if ((65 <=? c) && (c <=? 70))%N then Some (c - 55)%N
    else None in
  match v with
  | Some n => if (n <? base)%N then Some n else None
  | None => None
  end.

(** The longest prefix of digits in [base]: its value, its length, and
    the rest of the input. *)
Fixpoint takeDigits (base : N) (acc : N) (len : nat) (l : list ascii)
  : N * nat * list ascii :=
  match l with
  | a :: r =>
      match digitValue base a with
      | Some v => takeDigits base (acc * base + v)%N (S len) r
      | None => (acc, len, l)
      end
  | [] => (acc, len, [])
  end.

Definition pow10 (n : N) : Q := inject_Z (Z.pow 10 (Z.of_N n)).

Definition scaleExp (q : Q) (neg : bool) (e : N) : Q :=
  if neg then q / pow10 e else q * pow10 e.

(** The optional exponent part; [None] when an [e] is not followed by
    digits. *)
Definition parseExponent (l : list ascii) : option (bool * N * list ascii) :=
  match l with
  | a :: r =>
      if (Ascii.eqb a "e" || Ascii.eqb a "E")%bool then
        let '(neg, r') :=
          match r with
          | s :: r1 =>
              if Ascii.eqb s "-" then (true, r1)
              else if Ascii.eqb s "+" then (false, r1)
              else (false, r)
          | [] => (false, r)
          end in
        let '(e, len, rest) := takeDigits 10 0 0 r' in
        match len with
        | O => None
        | _ => Some (neg, e, rest)
        end
      else Some (false, 0%N, l)
  | [] => Some (false, 0%N, [])
  end.

Definition parseUnsignedDecimal (l : list ascii) : option Q :=
  let '(whole, wlen, r1) := takeDigits 10 0 0 l in
  let '(frac, flen, r2) :=
    match r1 with
    | a :: r =>
        if Ascii.eqb a "." then takeDigits 10 0 0 r else (0%N, O, r1)
    | [] => (0%N, O, r1)
    end in
  match (wlen + flen)%nat with
  | O => None
  | _ =>
      match parseExponent r2 with
      | Some (neg, e, []) =>
          let mantissa :=
            (inject_Z (Z.of_N whole)
             + inject_Z (Z.of_N frac) / pow10 (N.of_nat flen))%Q in
          Some (scaleExp mantissa neg e)
      | _ => None
      end
  end.

Definition parseRadix (base : N) (l : list ascii) : number :=
  match takeDigits base 0 0 l with
  | (v, S _, []) => Fin (inject_Z (Z.of_N v))
  | _ => NaN
  end.

Definition infinityWord : list ascii := list_ascii_of_string "Infinity".

Definition parseSigned (neg : bool) (l : list ascii) : number :=
  if decide (l = infinityWord) then (if neg then NegInf else PosInf)
  else
    match parseUnsignedDecimal l with
    | Some q => Fin (if neg then Qopp q else q)
    | None => NaN
    end.

Definition stringToNumber (s : string) : number :=
  match trim (list_ascii_of_string s) with
  | [] => Fin 0
  | a :: r =>
      if Ascii.eqb a "+" then parseSigned false r
      else if Ascii.eqb a "-" then parseSigned true r
      else
        match r with
        | b :: r' =>
            if Ascii.eqb a "0" && (Ascii.eqb b "x" || Ascii.eqb b "X")
            then parseRadix 16 r'
            else if Ascii.eqb a "0" && (Ascii.eqb b "o" || Ascii.eqb b "O")
            then parseRadix 8 r'
            else if Ascii.eqb a "0" && (Ascii.eqb b "b" || Ascii.eqb b "B")
            then parseRadix 2 r'
            else parseSigned false (a :: r)
        | [] => parseSigned false (a :: r)
        end
  end.

(** *** Values that reach the settings code

    Settings arrive from the extension storage or from a message payload.
    An object or array is represented by the string its conversion to a
    primitive yields. *)

Inductive jsval :=
  | JUndefined
  | JNull
  | JBool (b : bool)
  | JNumber (n : number)
  | JString (s : string)
  | JObject (primitive : string).

(** [Number(v)]. *)
Definition Number (v : jsval) : number :=
  match v with
  | JUndefined => NaN
  | JNull => Fin 0
  | JBool true => Fin 1
  | JBool false => Fin 0
  | JNumber n => n
  | JString s => stringToNumber s
  | JObject p => stringToNumber p
  end.

End JsNum.

Import JsNum.

(* ===================================================================== *)
(** ** Settings: defaults, normalisation, opacity *)
(* ===================================================================== *)

Module Settings.

Record settings := Build_settings {
  noiseType : string;
  intensity : number;
}.

Definition DEFAULT_SETTINGS : settings :=
  {| noiseType := "uniform"; intensity := Fin 20 |}.

Definition SUPPORTED_NOISE_TYPES : list string := ["uniform"; "gaussian"].

(** [SUPPORTED_NOISE_TYPES.has(v)]: only the two strings themselves are
    members; the supported string is returned. *)
Definition supportedNoiseType (v : jsval) : option string :=
  match v with
  | JString s => if bool_decide (s ∈ SUPPORTED_NOISE_TYPES) then Some s else None
  | _ => None
  end.

(** [clamp(value, min, max) = Math.min(Math.max(value, min), max)]. *)
Definition clamp (value min max : number) : number :=
  Math_min (Math_max value min) max.

(** A settings object as the code receives it: [None] stands for a falsy
    argument ([null], [undefined]); a property that is absent reads as
    [undefined]. *)
Definition jsobject := gmap string jsval.

Definition getProp (o : option (gmap string jsval)) (k : string) : jsval :=
  match o with
  | Some m => default JUndefined (m !! k)
  | None => JUndefined
  end.

Definition normalizeSettings (raw : option (gmap string jsval)) : settings :=
  let merged := DEFAULT_SETTINGS in
  let merged :=
    match supportedNoiseType (getProp raw "noiseType") with
    | Some t => {| noiseType := t; intensity := intensity merged |}
    | None => merged
    end in
  let parsedIntensity := Number (getProp raw "intensity") in
  if isNaN parsedIntensity then merged
  else {| noiseType := noiseType merged;
          intensity := clamp parsedIntensity (Fin (1#2)) (Fin 100) |}.

(** A normalised settings object read back as an argument
    ([{ ...currentSettings }] passed to [applySettings]). *)
Definition asObject (s : settings) : option (gmap string jsval) :=
  Some (<["noiseType" := JString (noiseType s)]>
         (<["intensity" := JNumber (intensity s)]> ∅)).

(** The numeric part of [overlayOpacityFromIntensity]: the local
    [normalized]. *)
Definition opacityOfIntensity (i : number) : number :=
  clamp (divPos i 100) (Fin (5#1000)) (Fin 1).

Definition overlayOpacityFromIntensity (i : number) : string :=
  toString (opacityOfIntensity i).

End Settings.

Import Settings.

(* ===================================================================== *)
(** ** The noise generator *)
(* ===================================================================== *)

(** Grey levels are computed with [Math.sqrt], [Math.log] and [Math.cos];
    they are taken over the reals.  The random source is the sequence of
    values that successive calls of [Math.random] return, each in [0,1);
    an operation that asks for more draws than were recorded yields
    [None]. *)

Module Noise.

Local Open Scope R_scope.

Definition Math_random (src : list R) : option (R * list R) :=
  match src with
  | x :: rest => Some (x, rest)
  | [] => None
  end.

(** [let u = 0; while (u === 0) u = Math.random();] *)
Fixpoint drawNonZero (src : list R) : option (R * list R) :=
  match src with
  | x :: rest => if Req_dec_T x 0 then drawNonZero rest else Some (x, rest)
  | [] => None
  end.

Definition clamp (value min max : R) : R := Rmin (Rmax value min) max.

Definition Math_floor (x : R) : Z := Zfloor x.

Definition randomGaussianUnit (src : list R) : option (R * list R) :=
  match drawNonZero src with
  | Some (u, src1) =>
      match drawNonZero src1 with
      | Some (v, src2) =>
          let standardNormal := sqrt (-2 * ln u) * cos (2 * PI * v) in
          let normalized := (standardNormal + 3) / 6 in
          Some (clamp normalized 0 1, src2)
      | None => None
      end
  | None => None
  end.

(** One iteration of the pixel loop of [createNoiseDataUrl] /
    [createNoisePattern]: the grey level written to the three colour
    channels.  The first draw is made for every pixel and is replaced
    when the type is ['gaussian']. *)
Definition shadeOfPixel (type : string) (src : list R) : option (Z * list R) :=
  match Math_random src with
  | Some (shadeValue, src1) =>
      let drawn :=
        if String.eqb type "gaussian" then randomGaussianUnit src1
        else Some (shadeValue, src1) in
      match drawn with
      | Some (shadeValue, src2) => Some (Math_floor (shadeValue * 255), src2)
      | None => None
      end
  | None => None
  end.

(** The loop over the [size * size] pixels: for each, [shade] three
    times and the opaque alpha 255. *)
Fixpoint fillPixels (pixels : nat) (type : string) (src : list R)
  : option (list Z * list R) :=
  match pixels with
  | O => Some ([], src)
  | S n =>
      match shadeOfPixel type src with
      | Some (shade, src1) =>
          match fillPixels n type src1 with
          | Some (data, src2) =>
              Some (shade :: shade :: shade :: 255%Z :: data, src2)
          | None => None
          end
      | None => None
      end
  end.

(** [createNoiseDataUrl(type, size)]; [context2d] tells whether
    [canvas.getContext('2d')] returned a context, [toDataURL] is the
    canvas encoder. *)
Definition createNoiseDataUrl (toDataURL : list Z -> string)
    (context2d : bool) (type : string) (size : nat) (src : list R)
  : option (string * list R) :=
  if context2d then
    match fillPixels (size * size) type src with
    | Some (data, src1) => Some (toDataURL data, src1)
    | None => None
    end
  else Some (""%string, src).

(** The selection script calls the same function [createNoisePattern]. *)
Definition createNoisePattern := createNoiseDataUrl.

(** [noiseDelta(type, intensity)] of the export, for an intensity read
    as a real. *)
Definition noiseDelta (type : string) (intensity : R) (src : list R)
  : option (R * list R) :=
  let factor := clamp (intensity / 100) (5 / 1000) 1 * 128 in
  if String.eqb type "gaussian" then
    match randomGaussianUnit src with
    | Some (g, src1) => Some ((g - 1 / 2) * 2 * factor, src1)
    | None => None
    end
  else
    match Math_random src with
    | Some (r, src1) => Some ((r - 1 / 2) * 2 * factor, src1)
    | None => None
    end.

End Noise.

(* ===================================================================== *)
(** ** The document: a store of elements *)
(* ===================================================================== *)

Module Dom.

(** The two kinds of one-shot [load] listeners the scripts register on an
    image: [doApply] of [applyNoise], and [onLoad] of the export. *)
Inductive listener :=
  | ApplyOnLoad
  | ExportOnLoad (s : settings).

Record element := Element {
  tagName : string;
  className : list string;            (* the class tokens *)
  attributes : gmap string string;
  backgroundImage : string;           (* style.backgroundImage *)
  opacity : string;                   (* style.opacity *)
  parentNode : option positive;
  childNodes : list positive;
  complete : bool;
  naturalWidth : N;
  naturalHeight : N;
  loadListeners : list listener;
}.

Definition withClassName (v : list string) (e : element) : element :=
  Element (tagName e) v (attributes e) (backgroundImage e) (opacity e)
    (parentNode e) (childNodes e) (complete e) (naturalWidth e)
    (naturalHeight e) (loadListeners e).

Definition withAttributes (v : gmap string string) (e : element) : element :=
  Element (tagName e) (className e) v (backgroundImage e) (opacity e)
    (parentNode e) (childNodes e) (complete e) (naturalWidth e)
    (naturalHeight e) (loadListeners e).

Definition withStyle (bg op : string) (e : element) : element :=
  Element (tagName e) (className e) (attributes e) bg op
    (parentNode e) (childNodes e) (complete e) (naturalWidth e)
    (naturalHeight e) (loadListeners e).

Definition withParentNode (v : option positive) (e : element) : element :=
  Element (tagName e) (className e) (attributes e) (backgroundImage e)
    (opacity e) v (childNodes e) (complete e) (naturalWidth e)
    (naturalHeight e) (loadListeners e).

Definition withChildNodes (v : list positive) (e : element) : element :=
  Element (tagName e) (className e) (attributes e) (backgroundImage e)
    (opacity e) (parentNode e) v (complete e) (naturalWidth e)
    (naturalHeight e) (loadListeners e).

Definition withLoadListeners (v : list listener) (e : element) : element :=
  Element (tagName e) (className e) (attributes e) (backgroundImage e)
    (opacity e) (parentNode e) (childNodes e) (complete e) (naturalWidth e)
    (naturalHeight e) v.

Definition withLoaded (w h : N) (e : element) : element :=
  Element (tagName e) (className e) (attributes e) (backgroundImage e)
    (opacity e) (parentNode e) (childNodes e) true w h (loadListeners e).

(** [document.createElement(tag)]: an element that is not yet part of the
    store; it receives its identity when it is inserted. *)
Definition createElement (tag : string) : element :=
  Element tag [] ∅ "" "" None [] false 0 0 [].

(** *** Reading the tree *)

(** The element and its ancestors, nearest first. *)
Fixpoint inclusiveAncestors (fuel : nat) (d : gmap positive element)
    (n : positive) : list positive :=
  match fuel with
  | O => []
  | S fuel' =>
      match d !! n with
      | None => []
      | Some e =>
          n :: match parentNode e with
               | Some p => inclusiveAncestors fuel' d p
               | None => []
               end
      end
  end.

(** The proper descendants in document order. *)
Fixpoint descendants (fuel : nat) (d : gmap positive element)
    (n : positive) : list positive :=
  match fuel with
  | O => []
  | S fuel' =>
      match d !! n with
      | None => []
      | Some e => c ← childNodes e; c :: descendants fuel' d c
      end
  end.

(** The selector [.cls]. *)
Definition matchesClass (d : gmap positive element) (cls : string)
    (n : positive) : bool :=
  match d !! n with
  | Some e => bool_decide (cls ∈ className e)
  | None => false
  end.

(** The selector [tag]. *)
Definition matchesTag (d : gmap positive element) (tag : string)
    (n : positive) : bool :=
  match d !! n with
  | Some e => String.eqb (tagName e) tag
  | None => false
  end.

(** [n.closest('.cls')] *)
Definition closest (d : gmap positive element) (cls : string) (n : positive)
  : option positive :=
  head (filter (λ a, matchesClass d cls a = true)
               (inclusiveAncestors (size d) d n)).

(** [n.querySelectorAll('.cls')] and [n.querySelector('.cls')] *)
Definition querySelectorAll (d : gmap positive element) (n : positive)
    (cls : string) : list positive :=
  filter (λ a, matchesClass d cls a = true) (descendants (size d) d n).

Definition querySelector (d : gmap positive element) (n : positive)
    (cls : string) : option positive :=
  head (querySelectorAll d n cls).

(** [document.querySelectorAll(...)]: the root element and its
    descendants. *)
Definition documentNodes (d : gmap positive element) (root : positive)
  : list positive :=
  match d !! root with
  | Some _ => root :: descendants (size d) d root
  | None => []
  end.

Definition documentQuerySelectorAll (d : gmap positive element)
    (root : positive) (cls : string) : list positive :=
  filter (λ a, matchesClass d cls a = true) (documentNodes d root).

Definition getAttribute (d : gmap positive element) (n : positive)
    (name : string) : option string :=
  d !! n ≫= λ e, attributes e !! name.

(** *** Updating the tree *)

Definition setAttribute (n : positive) (name value : string)
    (d : gmap positive element) : gmap positive element :=
  alter (λ e, withAttributes (<[name := value]> (attributes e)) e) n d.

Definition removeAttribute (n : positive) (name : string)
    (d : gmap positive element) : gmap positive element :=
  alter (λ e, withAttributes (delete name (attributes e)) e) n d.

Definition classListAdd (n : positive) (cls : string)
    (d : gmap positive element) : gmap positive element :=
  alter (λ e, if bool_decide (cls ∈ className e) then e
              else withClassName (className e ++ [cls]) e) n d.

Definition classListRemove (n : positive) (cls : string)
    (d : gmap positive element) : gmap positive element :=
  alter (λ e, withClassName (filter (λ c, c ≠ cls) (className e)) e) n d.

Definition addLoadListener (n : positive) (l : listener)
    (d : gmap positive element) : gmap positive element :=
  alter (λ e, withLoadListeners (loadListeners e ++ [l]) e) n d.

Fixpoint insertBeforeRef (new ref : positive) (l : list positive)
  : list positive :=
  match l with
  | [] => []
  | x :: rest =>
      if decide (x = ref) then new :: x :: rest
      else x :: insertBeforeRef new ref rest
  end.

Definition withoutChild (c : positive) (l : list positive) : list positive :=
  filter (λ x, x ≠ c) l.

(** [parent.insertBefore(e, ref)] for a newly created element [e]: the
    element enters the store under a fresh identity.  In a document the
    reference node is a child of [parent]. *)
Definition insertNewBefore (parent : positive) (e : element) (ref : positive)
    (d : gmap positive element) : positive * gmap positive element :=
  let k := fresh (dom d) in
  (k,
   <[k := withParentNode (Some parent) e]>
     (alter (λ ep, withChildNodes (insertBeforeRef k ref (childNodes ep)) ep)
            parent d)).

(** [parent.appendChild(e)] for a newly created element [e]. *)
Definition appendNew (parent : positive) (e : element)
    (d : gmap positive element) : positive * gmap positive element :=
  let k := fresh (dom d) in
  (k,
   <[k := withParentNode (Some parent) e]>
     (alter (λ ep, withChildNodes (childNodes ep ++ [k]) ep) parent d)).

(** [n.remove()]: detach [n] from its parent. *)
Definition removeNode (n : positive) (d : gmap positive element)
  : gmap positive element :=
  match d !! n ≫= parentNode with
  | Some p =>
      alter (withParentNode None) n
        (alter (λ ep, withChildNodes (withoutChild n (childNodes ep)) ep) p d)
  | None => d
  end.

(** [parent.appendChild(child)] for a node of the store: the node is
    moved, leaving its former parent. *)
Definition appendChild (parent child : positive) (d : gmap positive element)
  : gmap positive element :=
  alter (λ ep, withChildNodes (childNodes ep ++ [child]) ep) parent
    (alter (withParentNode (Some parent)) child (removeNode child d)).

(** *** Well-formed documents

    Parent pointers and child lists agree, and the parent relation has no
    cycle: some depth, smaller than the number of nodes, increases from
    every parent to its children. *)

Definition parentOk (depth : positive → nat) (d : gmap positive element)
    (n : positive) (e : element) : Prop :=
  match parentNode e with
  | Some p =>
      match d !! p with
      | Some ep => n ∈ childNodes ep ∧ depth p < depth n
      | None => False
      end
  | None => True
  end.

Definition childOk (d : gmap positive element) (n c : positive) : Prop :=
  match d !! c with
  | Some ec => parentNode ec = Some n
  | None => False
  end.

Definition nodeOk (depth : positive → nat) (d : gmap positive element)
    (n : positive) (e : element) : Prop :=
  depth n < size d
  ∧ parentOk depth d n e
  ∧ Forall (childOk d n) (childNodes e).

Definition wellFormedWith (depth : positive → nat)
    (d : gmap positive element) : Prop :=
  map_Forall (nodeOk depth d) d.

Definition wellFormed (d : gmap positive element) : Prop :=
  ∃ depth, wellFormedWith depth d.

End Dom.

Import Dom.

(* ===================================================================== *)
(** ** The overlay manager: code the two scripts share *)
(* ===================================================================== *)

Module Overlay.

Definition NOISE_APPLIED_ATTR : string := "data-ani-noise-applied".
Definition NOISE_WRAPPER_CLASS : string := "ani-noise-wrapper".
Definition NOISE_OVERLAY_CLASS : string := "ani-noise-overlay".

(** The script's view of the page: the document and the module-level
    variables [currentSettings] and [noisePattern]. *)
Record page := Page {
  nodes : gmap positive element;
  documentElement : positive;
  body : positive;
  currentSettings : settings;
  noisePattern : string;
}.

Definition withNodes (d : gmap positive element) (pg : page) : page :=
  Page d (documentElement pg) (body pg) (currentSettings pg) (noisePattern pg).

Definition ensureWrapper (image : positive) (d : gmap positive element)
  : option positive * gmap positive element :=
  match closest d NOISE_WRAPPER_CLASS image with
  | Some existing => (Some existing, d)
  | None =>
      let wrapper :=
        withClassName [NOISE_WRAPPER_CLASS] (createElement "span") in
      match d !! image ≫= parentNode with
      | None => (None, d)
      | Some parent =>
          let '(w, d1) := insertNewBefore parent wrapper image d in
          (Some w, appendChild w image d1)
      end
  end.

Definition applyOverlaySettings (pattern : string) (s : settings)
    (overlay : element) : element :=
  withStyle
    (if String.eqb pattern "" then "" else "url(" ++ pattern ++ ")")
    (overlayOpacityFromIntensity (intensity s))
    overlay.

Definition createOverlay (pattern : string) (s : settings) : element :=
  applyOverlaySettings pattern s
    (withClassName [NOISE_OVERLAY_CLASS] (createElement "span")).

Definition refreshAllOverlays (pg : page) : page :=
  withNodes
    (foldl (λ d overlay,
              alter (applyOverlaySettings (noisePattern pg) (currentSettings pg))
                    overlay d)
           (nodes pg)
           (documentQuerySelectorAll (nodes pg) (documentElement pg)
              NOISE_OVERLAY_CLASS))
    pg.

(** [image.complete && image.naturalWidth > 0] *)
Definition loaded (e : element) : bool :=
  complete e && (0 <? naturalWidth e)%N.

End Overlay.

Import Overlay.

(* ===================================================================== *)
(** ** Storage change notifications (both scripts) *)
(* ===================================================================== *)

Module Storage.

(** An entry of the [changes] object of [chrome.storage.onChanged]; an
    absent value reads as [undefined]. *)
Record storageChange := StorageChange {
  oldValue : jsval;
  newValue : jsval;
}.

Definition isUndefined (v : jsval) : bool :=
  match v with JUndefined => true | _ => false end.

(** The body of the listener up to [if (hasChanges)]: the object passed
    to [applySettings], or [None] when [applySettings] is not called. *)
Definition storageUpdate (changes : gmap string storageChange)
    (areaName : string) (current : settings) : option settings :=
  if negb (String.eqb areaName "local") then None
  else
    let updated := current in
    let hasChanges := false in
    let '(updated, hasChanges) :=
      match changes !! "noiseType" with
      | Some c =>
          match supportedNoiseType (newValue c) with
          | Some t => (Build_settings t (intensity updated), true)
          | None => (updated, hasChanges)
          end
      | None => (updated, hasChanges)
      end in
    let '(updated, hasChanges) :=
      match changes !! "intensity" with
      | Some c =>
          if isUndefined (newValue c) then (updated, hasChanges)
          else
            let candidate := Number (newValue c) in
            if isNaN candidate then (updated, hasChanges)
            else (Build_settings (noiseType updated)
                    (clamp candidate (Fin (1#2)) (Fin 100)), true)
      | None => (updated, hasChanges)
      end in
    if hasChanges then Some updated else None.

End Storage.

Import Storage.

(* ===================================================================== *)
(** ** The page-wide script *)
(* ===================================================================== *)

Module Base.

Definition doApply (image : positive) (pg : page) : page :=
  match ensureWrapper image (nodes pg) with
  | (None, d1) => withNodes d1 pg
  | (Some wrapper, d1) =>
      match querySelector d1 wrapper NOISE_OVERLAY_CLASS with
      | Some _ =>
          withNodes (setAttribute image NOISE_APPLIED_ATTR "true" d1) pg
      | None =>
          let overlay := createOverlay (noisePattern pg) (currentSettings pg) in
          let '(_, d2) := appendNew wrapper overlay d1 in
          withNodes (setAttribute image NOISE_APPLIED_ATTR "true" d2) pg
      end
  end.

Definition applyNoise (image : positive) (pg : page) : page :=
  match nodes pg !! image with
  | None => pg
  | Some e =>
      if bool_decide (attributes e !! NOISE_APPLIED_ATTR = Some "true") then pg
      else if loaded e then doApply image pg
      else withNodes (addLoadListener image ApplyOnLoad (nodes pg)) pg
  end.

(** The [load] event of an image: the browser has set [complete] and the
    natural size; the pending one-shot listeners run in the order of
    registration. *)
Definition runListener (image : positive) (l : listener) (pg : page) : page :=
  match l with
  | ApplyOnLoad => doApply image pg
  | ExportOnLoad _ => pg
  end.

Definition fireLoad (image : positive) (w h : N) (pg : page) : page :=
  match nodes pg !! image with
  | None => pg
  | Some e =>
      let pending := loadListeners e in
      let d := alter (λ e, withLoadListeners [] (withLoaded w h e)) image
                     (nodes pg) in
      foldl (λ pg l, runListener image l pg) (withNodes d pg) pending
  end.

Definition scanExistingImages (pg : page) : page :=
  foldl (λ pg image, applyNoise image pg) pg
    (filter (λ a, matchesTag (nodes pg) "img" a = true)
            (documentNodes (nodes pg) (documentElement pg))).

(** The mutation observer's callback on the added nodes of a batch. *)
Definition onAddedNode (node : positive) (pg : page) : page :=
  if matchesTag (nodes pg) "img" node then applyNoise node pg
  else
    foldl (λ pg image, applyNoise image pg) pg
      (filter (λ a, matchesTag (nodes pg) "img" a = true)
              (descendants (size (nodes pg)) (nodes pg) node)).

Definition onMutations (added : list positive) (pg : page) : page :=
  foldl (λ pg node, onAddedNode node pg) pg added.

(** [applySettings(settings)]; [pattern] is the data URL that the call of
    [createNoiseDataUrl] returns. *)
Definition applySettings (pattern : string) (raw : option (gmap string jsval))
    (pg : page) : page :=
  refreshAllOverlays
    (Page (nodes pg) (documentElement pg) (body pg)
          (normalizeSettings raw) pattern).

(** The listener registered by [listenForStorageChanges]. *)
Definition onStorageChanged (pattern : string)
    (changes : gmap string storageChange) (areaName : string) (pg : page)
  : page :=
  match storageUpdate changes areaName (currentSettings pg) with
  | Some updated => applySettings pattern (asObject updated) pg
  | None => pg
  end.

End Base.

(* ===================================================================== *)
(** ** The selection and export script *)
(* ===================================================================== *)

Module Selection.

Definition SELECTED_CLASS : string := "ani-noise-selected-image".
Definition SELECTION_MODE_CLASS : string := "ani-noise-select-mode".

Definition MSG_NO_IMAGE : string := "선택된 이미지가 없습니다.".
Definition MSG_NO_SIZE : string := "이미지 크기를 불러올 수 없습니다.".
Definition MSG_NO_CONTEXT : string := "캔버스 컨텍스트 생성에 실패했습니다.".
Definition MSG_SELECT_FIRST : string := "먼저 이미지를 선택해 주세요.".
Definition MSG_SECURITY : string := "보안 제한 때문에 이미지를 저장할 수 없습니다.".
Definition MSG_SAVE_FAILED : string := "이미지 저장에 실패했습니다.".

(** Messages the script sends with [chromeApi.runtime.sendMessage]. *)
Inductive outMessage :=
  | ANI_SELECTION_CHANGED (hasSelected : bool)
  | ANI_NOISE_APPLIED_FEEDBACK (ok : bool).

Record state := State {
  pg : page;
  selectedImage : option positive;
  selectionModeEnabled : bool;
  runtimeSendMessage : bool;   (* [chromeApi?.runtime?.sendMessage] exists *)
  sent : list outMessage;
}.

Definition withPage (p : page) (st : state) : state :=
  State p (selectedImage st) (selectionModeEnabled st)
        (runtimeSendMessage st) (sent st).

Definition withDom (d : gmap positive element) (st : state) : state :=
  withPage (withNodes d (pg st)) st.

Definition removeOverlay (image : positive) (d : gmap positive element)
  : gmap positive element :=
  match closest d NOISE_WRAPPER_CLASS image with
  | None => d
  | Some wrapper =>
      let d1 :=
        match querySelector d wrapper NOISE_OVERLAY_CLASS with
        | Some overlay => removeNode overlay d
        | None => d
        end in
      removeAttribute image NOISE_APPLIED_ATTR d1
  end.

Definition doApply (image : positive) (p : page) : page :=
  match ensureWrapper image (nodes p) with
  | (None, d1) => withNodes d1 p
  | (Some wrapper, d1) =>
      match querySelector d1 wrapper NOISE_OVERLAY_CLASS with
      | Some existing =>
          let d2 :=
            alter (applyOverlaySettings (noisePattern p) (currentSettings p))
                  existing d1 in
          withNodes (setAttribute image NOISE_APPLIED_ATTR "true" d2) p
      | None =>
          let overlay := createOverlay (noisePattern p) (currentSettings p) in
          let '(_, d2) := appendNew wrapper overlay d1 in
          withNodes (setAttribute image NOISE_APPLIED_ATTR "true" d2) p
      end
  end.

Definition applyNoise (image : positive) (p : page) : page :=
  match nodes p !! image with
  | None => p
  | Some e =>
      if loaded e then doApply image p
      else withNodes (addLoadListener image ApplyOnLoad (nodes p)) p
  end.

(** [applySettings(settings)]; [pattern] is the data URL that the call of
    [createNoisePattern] returns. *)
Definition applySettings (pattern : string) (raw : option (gmap string jsval))
    (st : state) : state :=
  let p := pg st in
  let p1 :=
    refreshAllOverlays
      (Page (nodes p) (documentElement p) (body p)
            (normalizeSettings raw) pattern) in
  match selectedImage st with
  | Some image => withPage (applyNoise image p1) st
  | None => withPage p1 st
  end.

Definition notifySelectionChanged (st : state) : state :=
  if runtimeSendMessage st then
    State (pg st) (selectedImage st) (selectionModeEnabled st)
          (runtimeSendMessage st)
          (sent st ++ [ANI_SELECTION_CHANGED (bool_decide (is_Some (selectedImage st)))])
  else st.

Definition selectImage (image : positive) (st : state) : state :=
  if bool_decide (selectedImage st = Some image) then st
  else
    let d :=
      match selectedImage st with
      | Some old =>
          removeOverlay old (classListRemove old SELECTED_CLASS (nodes (pg st)))
      | None => nodes (pg st)
      end in
    let d := classListAdd image SELECTED_CLASS d in
    let p := applyNoise image (withNodes d (pg st)) in
    notifySelectionChanged
      (State p (Some image) (selectionModeEnabled st)
             (runtimeSendMessage st) (sent st)).

Definition clearSelection (st : state) : state :=
  match selectedImage st with
  | None => st
  | Some old =>
      let d :=
        removeOverlay old (classListRemove old SELECTED_CLASS (nodes (pg st))) in
      notifySelectionChanged
        (State (withNodes d (pg st)) None (selectionModeEnabled st)
               (runtimeSendMessage st) (sent st))
  end.

Definition enableSelectionMode (st : state) : state :=
  if selectionModeEnabled st then st
  else
    State (withNodes (classListAdd (body (pg st)) SELECTION_MODE_CLASS
                        (nodes (pg st))) (pg st))
          (selectedImage st) true (runtimeSendMessage st) (sent st).

Definition disableSelectionMode (st : state) : state :=
  if selectionModeEnabled st then
    State (withNodes (classListRemove (body (pg st)) SELECTION_MODE_CLASS
                        (nodes (pg st))) (pg st))
          (selectedImage st) false (runtimeSendMessage st) (sent st)
  else st.

(** The capturing click listener; it is installed exactly while the
    selection mode is enabled. *)
Definition selectionClickHandler (target : positive) (st : state) : state :=
  if matchesTag (nodes (pg st)) "img" target then
    selectImage target (disableSelectionMode st)
  else st.

Definition click (target : positive) (st : state) : state :=
  if selectionModeEnabled st then selectionClickHandler target st else st.

(** *** Export *)

(** What [drawImage] / [getImageData] / [toDataURL] do in the hosting
    environment: throw an error with a message, or yield the encoded
    image. *)
Inductive pixelRead :=
  | Throws (message : string)
  | Encoded (dataUrl : string).

Record exportEnv := ExportEnv {
  context2d : bool;      (* [canvas.getContext('2d', ...)] is not null *)
  pixels : pixelRead;
  now : N;               (* [Date.now()] *)
}.

Inductive settled :=
  | Resolved (dataUrl : string)
  | Rejected (message : string)
  | Pending.

(** The [try ... catch] of [finalize]. *)
Definition finalize (env : exportEnv) : settled :=
  match pixels env with
  | Throws m => Rejected m
  | Encoded u => Resolved u
  end.

Definition generateNoisyDataUrl (image : option positive) (s : settings)
    (env : exportEnv) (d : gmap positive element)
  : settled * gmap positive element :=
  match image ≫= λ i, (λ e, (i, e)) <$> d !! i with
  | None => (Rejected MSG_NO_IMAGE, d)
  | Some (i, e) =>
      let width := naturalWidth e in
      let height := naturalHeight e in
      if ((width =? 0) || (height =? 0))%N then (Rejected MSG_NO_SIZE, d)
      else if negb (context2d env) then (Rejected MSG_NO_CONTEXT, d)
      else if loaded e then (finalize env, d)
      else (Pending, addLoadListener i (ExportOnLoad s) d)
  end.

(** [/tainted|cross-origin|security/i.test(s)] *)
Definition lowerAscii (a : ascii) : ascii :=
  let n := nat_of_ascii a in
  if ((65 <=? n) && (n <=? 90))%nat then ascii_of_nat (n + 32) else a.

Fixpoint startsWithCI (p s : list ascii) : bool :=
  match p, s with
  | [], _ => true
  | _ :: _, [] => false
  | a :: p', b :: s' => Ascii.eqb (lowerAscii a) (lowerAscii b) && startsWithCI p' s'
  end.

Fixpoint containsCI (p s : list ascii) : bool :=
  startsWithCI p s ||
  match s with
  | [] => false
  | _ :: s' => containsCI p s'
  end.

Definition isSecurityError (message : string) : bool :=
  let s := list_ascii_of_string message in
  containsCI (list_ascii_of_string "tainted") s
  || containsCI (list_ascii_of_string "cross-origin") s
  || containsCI (list_ascii_of_string "security") s.

Inductive response :=
  | RespOk
  | RespError (error : string)
  | RespHasSelected (hasSelected : bool)
  | RespImage (dataUrl fileName : string).

(** The [then] and [catch] continuations of the export promise. *)
Definition exportResponse (env : exportEnv) (r : settled) : list response :=
  match r with
  | Resolved dataUrl =>
      [RespImage dataUrl ("noisy-image-" ++ digitsOfN (now env) ++ ".png")]
  | Rejected message =>
      [RespError (if isSecurityError message then MSG_SECURITY
                  else if String.eqb message "" then MSG_SAVE_FAILED
                  else message)]
  | Pending => []
  end.

(** *** The message handler *)

Inductive request :=
  | ANI_START_SELECTION
  | ANI_CLEAR_SELECTION
  | ANI_GET_SELECTION_STATE
  | ANI_APPLY_NOISE (payload : option (gmap string jsval))
  | ANI_GENERATE_NOISY_IMAGE (payload : option (gmap string jsval))
  | OtherRequest.

(** What the environment supplies during one dispatch. *)
Record env := Env {
  pattern : string;        (* result of [createNoisePattern], if called *)
  export : exportEnv;
}.

Definition handleApplyNoiseRequest (pattern : string)
    (settings : option (gmap string jsval)) (st : state)
  : state * list response :=
  match selectedImage st with
  | None => (st, [RespError MSG_SELECT_FIRST])
  | Some _ =>
      let st1 := applySettings pattern settings st in
      let st2 :=
        if runtimeSendMessage st1 then
          State (pg st1) (selectedImage st1) (selectionModeEnabled st1)
                (runtimeSendMessage st1)
                (sent st1 ++ [ANI_NOISE_APPLIED_FEEDBACK true])
        else st1 in
      (st2, [RespOk])
  end.

Definition onMessage (ev : env) (message : request) (st : state)
  : state * list response :=
  match message with
  | ANI_START_SELECTION => (enableSelectionMode st, [RespOk])
  | ANI_CLEAR_SELECTION => (clearSelection (disableSelectionMode st), [RespOk])
  | ANI_GET_SELECTION_STATE =>
      (st, [RespHasSelected (bool_decide (is_Some (selectedImage st)))])
  | ANI_APPLY_NOISE payload =>
      handleApplyNoiseRequest (pattern ev)
        (match payload with Some o => Some o | None => Some ∅ end) st
  | ANI_GENERATE_NOISY_IMAGE payload =>
      match selectedImage st with
      | None => (st, [RespError MSG_SELECT_FIRST])
      | Some _ =>
          let settings :=
            normalizeSettings
              (match payload with
               | Some o => Some o
               | None => asObject (currentSettings (pg st))
               end) in
          let '(r, d) :=
            generateNoisyDataUrl (selectedImage st) settings (export ev)
              (nodes (pg st)) in
          (withDom d st, exportResponse (export ev) r)
      end
  | OtherRequest => (st, [])
  end.

(** The [load] event of an image in this script. *)
Definition runListener (ev : exportEnv) (image : positive) (l : listener)
    (acc : state * list response) : state * list response :=
  match l with
  | ApplyOnLoad => (withPage (doApply image (pg acc.1)) acc.1, acc.2)
  | ExportOnLoad _ => (acc.1, (acc.2 ++ exportResponse ev (finalize ev))%list)
  end.

Definition fireLoad (ev : exportEnv) (image : positive) (w h : N) (st : state)
  : state * list response :=
  match nodes (pg st) !! image with
  | None => (st, [])
  | Some e =>
      let pending := loadListeners e in
      let d := alter (λ e, withLoadListeners [] (withLoaded w h e)) image
                     (nodes (pg st)) in
      foldl (λ acc l, runListener ev image l acc) (withDom d st, []) pending
  end.

(** The listener registered by [listenForStorageChanges]. *)
Definition onStorageChanged (pattern : string)
    (changes : gmap string storageChange) (areaName : string) (st : state)
  : state :=
  match storageUpdate changes areaName (currentSettings (pg st)) with
  | Some updated => applySettings pattern (asObject updated) st
  | None => st
  end.

(** The events the script reacts to, and a run of the script over a
    sequence of them, collecting the responses. *)
Inductive event :=
  | Message (ev : env) (message : request)
  | Click (target : positive)
  | Load (ev : exportEnv) (image : positive) (w h : N)
  | StorageChanged (pattern : string) (changes : gmap string storageChange)
      (areaName : string).

Definition step (e : event) (st : state) : state * list response :=
  match e with
  | Message ev message => onMessage ev message st
  | Click target => (click target st, [])
  | Load ev image w h => fireLoad ev image w h st
  | StorageChanged pattern changes areaName =>
      (onStorageChanged pattern changes areaName st, [])
  end.

Fixpoint run (events : list event) (st : state) : state * list response :=
  match events with
  | [] => (st, [])
  | e :: rest =>
      let '(st1, out1) := step e st in
      let '(st2, out2) := run rest st1 in
      (st2, (out1 ++ out2)%list)
  end.

End Selection.

(* ===================================================================== *)
(** ** A sample page *)
(* ===================================================================== *)

(** [<html><body><img 3><img 4><img 5></body></html>]: the images 3 and 4
    have finished loading, image 5 is still loading. *)

Module Sample.

Definition plain (tag : string) (parent : option positive)
    (children : list positive) : element :=
  Element tag [] ∅ "" "" parent children false 0 0 [].

Definition image (parent : positive) (isComplete : bool) (w h : N) : element :=
  Element "img" [] ∅ "" "" (Some parent) [] isComplete w h [].

Definition document : gmap positive element :=
  <[1%positive := plain "html" None [2%positive]]>
  (<[2%positive := plain "body" (Some 1%positive)
                     [3%positive; 4%positive; 5%positive]]>
  (<[3%positive := image 2 true 640 480]>
  (<[4%positive := image 2 true 320 200]>
  (<[5%positive := image 2 false 0 0]> ∅)))).

Definition depth (n : positive) : nat :=
  match n with
  | 1%positive => 0
  | 2%positive => 1
  | _ => 2
  end.

Definition page0 : page := Page document 1 2 DEFAULT_SETTINGS "data:image/png;base64,AAAA".

Definition state0 : Selection.state := Selection.State page0 None false true [].

(** Image 3 selected. *)
Definition state3 : Selection.state := Selection.selectImage 3 state0.

(** Image 3 overlaid by the page-wide script (the overlay is node 7), and
    the page that [applySettings] hands to [refreshAllOverlays] when the
    intensity is set to 50. *)
Definition page3 : page := Base.applyNoise 3 page0.

Definition page3_changed : page :=
  Page (nodes page3) 1 2
       (normalizeSettings (Some {[ "intensity" := JNumber (Fin 50) ]}))
       "data:image/png;base64,BBBB".

End Sample.

(* ===================================================================== *)
(** ** Notions used in the statements *)
(* ===================================================================== *)

Module Notions.

Import Selection.

(** Two stores with the same nodes, parent pointers, child lists and
    class tokens. *)
Definition sameTree (d d' : gmap positive element) : Prop :=
  ∀ a, parentNode <$> d' !! a = parentNode <$> d !! a
       ∧ childNodes <$> d' !! a = childNodes <$> d !! a
       ∧ className <$> d' !! a = className <$> d !! a.

(** The two conditions under which the listener updates a field. *)
Definition noiseTypeAccepted (changes : gmap string storageChange) : Prop :=
  ∃ c t, changes !! "noiseType" = Some c
         ∧ supportedNoiseType (newValue c) = Some t.

Definition intensityAccepted (changes : gmap string storageChange) : Prop :=
  ∃ c, changes !! "intensity" = Some c
       ∧ isUndefined (newValue c) = false
       ∧ isNaN (Number (newValue c)) = false.

(** The wrapper element that [ensureWrapper] creates around [image]. *)
Definition wrapperOf (parent image : positive) : element :=
  withChildNodes [image]
    (withParentNode (Some parent)
       (withClassName [NOISE_WRAPPER_CLASS] (createElement "span"))).

(** The store after [ensureWrapper] has created a wrapper for [i]. *)
Definition wrapInto (d : gmap positive element) (i : positive) (e : element)
    (p : positive) (ep : element) : gmap positive element :=
  let w := fresh (dom d) in
  <[w := wrapperOf p i]>
    (<[i := withParentNode (Some w) e]>
       (<[p := withChildNodes
                 (withoutChild i (insertBeforeRef w i (childNodes ep))) ep]> d)).

(** The store after [doApply] has wrapped [i] and added its overlay. *)
Definition appliedTo (d : gmap positive element) (i : positive) (e : element)
    (p : positive) (ep : element) (pattern : string) (s : settings)
  : gmap positive element :=
  let w := fresh (dom d) in
  let o := fresh (dom (wrapInto d i e p ep)) in
  <[o := withParentNode (Some w) (createOverlay pattern s)]>
    (<[w := withChildNodes [i; o] (wrapperOf p i)]>
       (<[i := withAttributes (<[NOISE_APPLIED_ATTR := "true"%string]> (attributes e))
                (withParentNode (Some w) e)]>
          (<[p := withChildNodes
                    (withoutChild i (insertBeforeRef w i (childNodes ep))) ep]> d))).

(** An image as the scripts expect to find it: loaded, the child of an
    element, without children of its own, not yet inside a wrapper and
    not itself carrying the overlay class. *)
Record plainImage (d : gmap positive element) (i : positive) (e : element)
    (p : positive) (ep : element) : Prop := PlainImage {
  plain_lookup : d !! i = Some e;
  plain_loaded : loaded e = true;
  plain_childless : childNodes e = [];
  plain_parent : parentNode e = Some p;
  plain_parent_lookup : d !! p = Some ep;
  plain_parent_other : i ≠ p;
  plain_not_overlay : NOISE_OVERLAY_CLASS ∉ className e;
  plain_unwrapped : closest d NOISE_WRAPPER_CLASS i = None;
}.

(** An image in its place, loaded or not. *)
Record placedImage (d : gmap positive element) (i : positive) (e : element)
  : Prop := PlacedImage {
  placed_lookup : d !! i = Some e;
  placed_place :
    match closest d NOISE_WRAPPER_CLASS i with
    | Some w => (length (querySelectorAll d w NOISE_OVERLAY_CLASS) ≤ 1)%nat
    | None =>
        parentNode e ≠ None ∧ childNodes e = []
        ∧ NOISE_OVERLAY_CLASS ∉ className e
    end;
}.

(** A loaded image that either sits in a wrapper holding at most one
    overlay, or has no wrapper yet and is the child of an element, an
    image without children that does not carry the overlay class. *)
Record readyImage (d : gmap positive element) (i : positive) (e : element)
  : Prop := ReadyImage {
  ready_lookup : d !! i = Some e;
  ready_loaded : loaded e = true;
  ready_place :
    match closest d NOISE_WRAPPER_CLASS i with
    | Some w => (length (querySelectorAll d w NOISE_OVERLAY_CLASS) ≤ 1)%nat
    | None =>
        parentNode e ≠ None ∧ childNodes e = []
        ∧ NOISE_OVERLAY_CLASS ∉ className e
    end;
}.

(** The image is marked processed, is loaded, and its wrapper holds
    exactly one overlay. *)
Definition settledImage (d : gmap positive element) (i : positive) : Prop :=
  ∃ w o ei,
    closest d NOISE_WRAPPER_CLASS i = Some w
    ∧ querySelectorAll d w NOISE_OVERLAY_CLASS = [o]
    ∧ d !! i = Some ei
    ∧ attributes ei !! NOISE_APPLIED_ATTR = Some "true"%string
    ∧ loaded ei = true.

(** The first overlay of the image's wrapper shows the given texture and
    intensity. *)
Definition overlayStyled (pattern : string) (s : settings)
    (d : gmap positive element) (i : positive) : Prop :=
  ∀ w o, closest d NOISE_WRAPPER_CLASS i = Some w →
         querySelector d w NOISE_OVERLAY_CLASS = Some o →
         ∃ eo, d !! o = Some eo ∧ applyOverlaySettings pattern s eo = eo.

(** The image has a wrapper that holds exactly one overlay, and is marked
    processed. *)
Definition oneOverlay (d : gmap positive element) (i : positive) : Prop :=
  ∃ w o,
    closest d NOISE_WRAPPER_CLASS i = Some w
    ∧ querySelectorAll d w NOISE_OVERLAY_CLASS = [o]
    ∧ getAttribute d i NOISE_APPLIED_ATTR = Some "true"%string.

(** The browser's part of a [load] event: the image is complete, has its
    natural size, and its one-shot listeners are detached. *)
Definition markLoaded (w h : N) (e : element) : element :=
  withLoadListeners [] (withLoaded w h e).

(** Everything but the two style properties. *)
Definition withoutStyle (e : element) : element := withStyle "" "" e.

(** The class changes of [classList.add] and [classList.remove]. *)
Definition addClass (cls : string) (e : element) : element :=
  if bool_decide (cls ∈ className e) then e
  else withClassName (className e ++ [cls]) e.

Definition removeClass (cls : string) (e : element) : element :=
  withClassName (filter (λ c, c ≠ cls) (className e)) e.


(** An image with its wrapper and its overlay. *)
Record overlaid (d : gmap positive element) (i w o : positive)
    (ei ew eo : element) : Prop := Overlaid {
  ov_image : d !! i = Some ei;
  ov_image_parent : parentNode ei = Some w;
  ov_image_childless : childNodes ei = [];
  ov_image_not_wrapper : NOISE_WRAPPER_CLASS ∉ className ei;
  ov_image_not_overlay : NOISE_OVERLAY_CLASS ∉ className ei;
  ov_wrapper : d !! w = Some ew;
  ov_wrapper_class : NOISE_WRAPPER_CLASS ∈ className ew;
  ov_wrapper_children : childNodes ew = [i; o];
  ov_overlay : d !! o = Some eo;
  ov_overlay_class : NOISE_OVERLAY_CLASS ∈ className eo;
  ov_overlay_childless : childNodes eo = [];
  ov_overlay_parent : parentNode eo = Some w;
  ov_image_wrapper : i ≠ w;
  ov_image_overlay : i ≠ o;
  ov_wrapper_overlay : w ≠ o;
}.

(** The settings of an export request:
    [normalizeSettings(message.payload ?? currentSettings)]. *)
Definition exportSettings (payload : option (gmap string jsval)) (st : state)
  : settings :=
  normalizeSettings
    (match payload with
     | Some o => Some o
     | None => asObject (currentSettings (pg st))
     end).



End Notions.

Import Notions.

(* ===================================================================== *)
(** ** The pixel loop of the export *)
(* ===================================================================== *)

(** The loop of [finalize] over the image data read from the canvas: a
    flat array of red, green, blue and alpha bytes.  One [noiseDelta] is
    drawn per pixel and added to the three colour channels; the alpha
    byte is not written. *)

Module Pixels.

Local Open Scope R_scope.

(** A store into a [Uint8ClampedArray] (the conversion ToUint8Clamp):
    the value is clamped to [0,255] and rounded to the nearest integer,
    a tie going to the even one. *)
Definition ToUint8Clamp (x : R) : Z :=
  if Rle_dec x 0 then 0%Z
  else if Rle_dec 255 x then 255%Z
  else
    let f := Zfloor x in
    if Rlt_dec (IZR f + 1 / 2) x then (f + 1)%Z
    else if Rlt_dec x (IZR f + 1 / 2) then f
    else if Z.even f then f else (f + 1)%Z.

(** [data[k] = clamp(data[k] + delta, 0, 255)] *)
Definition putChannel (delta : R) (c : Z) : Z :=
  ToUint8Clamp (Noise.clamp (IZR c + delta) 0 255).

(** [for (let i = 0; i < data.length; i += 4) { ... }]; a store past the
    end of the array has no effect. *)
Fixpoint addNoise (type : string) (intensity : R) (data : list Z)
    (src : list R) : option (list Z * list R) :=
  match data with
  | [] => Some ([], src)
  | r :: data1 =>
      match Noise.noiseDelta type intensity src with
      | None => None
      | Some (delta, src1) =>
          match data1 with
          | g :: b :: a :: rest =>
              match addNoise type intensity rest src1 with
              | Some (out, src2) =>
                  Some (putChannel delta r :: putChannel delta g
                          :: putChannel delta b :: a :: out, src2)
              | None => None
              end
          | short => Some (putChannel delta r :: map (putChannel delta) short,
                           src1)
          end
      end
  end.

(** [const factor = clamp(intensity / 100, 0.005, 1) * 128] of
    [noiseDelta]. *)
Definition factor (intensity : R) : R :=
  Noise.clamp (intensity / 100) (5 / 1000) 1 * 128.

End Pixels.

(* ===================================================================== *)
(** ** Start-up and the events of the page-wide script *)
(* ===================================================================== *)

Module Startup.

(** [chrome.storage.local.get(DEFAULT_SETTINGS, callback)]: the callback
    receives, for each key of the defaults, the stored value, or the
    default when the key is not stored. *)
Definition storageGet (stored : gmap string jsval)
  : option (gmap string jsval) :=
  Some (<["noiseType" := default (JString (noiseType DEFAULT_SETTINGS))
                                 (stored !! "noiseType")]>
         (<["intensity" := default (JNumber (intensity DEFAULT_SETTINGS))
                                   (stored !! "intensity")]> ∅)).

(** The argument of [applySettings] in [loadInitialSettings]; [storage]
    is [None] when [chrome.storage.local] does not exist. *)
Definition initialItems (storage : option (gmap string jsval))
  : option (gmap string jsval) :=
  match storage with
  | None => asObject DEFAULT_SETTINGS
  | Some stored => storageGet stored
  end.

(** [start] of the page-wide script, up to the registration of the
    observer and of the storage listener: the settings are loaded, then
    the images of the document are scanned. *)
Definition start (storage : option (gmap string jsval)) (pattern : string)
    (pg : page) : page :=
  Base.scanExistingImages
    (Base.applySettings pattern (initialItems storage) pg).

(** [start] of the selection script: the settings are loaded. *)
Definition startSelection (storage : option (gmap string jsval))
    (pattern : string) (st : Selection.state) : Selection.state :=
  Selection.applySettings pattern (initialItems storage) st.

(** The events the page-wide script reacts to once it has started, and a
    run over a sequence of them. *)
Inductive event :=
  | Load (image : positive) (w h : N)
  | Mutations (added : list positive)
  | StorageChanged (pattern : string) (changes : gmap string storageChange)
      (areaName : string).

Definition step (e : event) (pg : page) : page :=
  match e with
  | Load image w h => Base.fireLoad image w h pg
  | Mutations added => Base.onMutations added pg
  | StorageChanged pattern changes areaName =>
      Base.onStorageChanged pattern changes areaName pg
  end.

Definition run (events : list event) (pg : page) : page :=
  foldl (λ pg e, step e pg) pg events.

End Startup.

(* ===================================================================== *)
(** ** Further notions used in the statements *)
(* ===================================================================== *)

Module Invariants.

(** A settings object that [normalizeSettings] returns as it is. *)
Definition normal (s : settings) : Prop := normalizeSettings (asObject s) = s.

Definition validSettings (s : settings) : Prop :=
  noiseType s ∈ SUPPORTED_NOISE_TYPES
  ∧ le (Fin (1#2)) (intensity s) ∧ le (intensity s) (Fin 100).


(** Two pages with the same module-level variables and the same root
    and body. *)
Definition sameVars (pg pg' : page) : Prop :=
  documentElement pg' = documentElement pg ∧ body pg' = body pg
  ∧ currentSettings pg' = currentSettings pg
  ∧ noisePattern pg' = noisePattern pg.


(** What the pixel loop of the export may do to a byte: the new value is
    a byte, at most [B] away from the old one. *)
Definition shifted (B : Z) (c c' : Z) : Prop :=
  (0 ≤ c' ≤ 255)%Z ∧ (Z.abs (c' - c) ≤ B)%Z.

(** The [hasSelected] flag of the last [ANI_SELECTION_CHANGED] message
    in the list, [acc] when there is none. *)
Fixpoint lastNotice (acc : bool) (sent : list Selection.outMessage) : bool :=
  match sent with
  | [] => acc
  | Selection.ANI_SELECTION_CHANGED b :: rest => lastNotice b rest
  | _ :: rest => lastNotice acc rest
  end.

(** The last notification sent tells whether an image is selected. *)
Definition inSync (st : Selection.state) : Prop :=
  lastNotice false (Selection.sent st)
  = bool_decide (is_Some (Selection.selectedImage st)).

(** Two states of the selection script that differ in the document
    only. *)
Definition sameControl (st st' : Selection.state) : Prop :=
  Selection.selectedImage st' = Selection.selectedImage st
  ∧ Selection.selectionModeEnabled st' = Selection.selectionModeEnabled st
  ∧ Selection.runtimeSendMessage st' = Selection.runtimeSendMessage st
  ∧ Selection.sent st' = Selection.sent st.

(** From [st] to [st'] the script keeps its messaging channel, only
    appends to the messages sent, sends nothing without a channel, and
    with a channel keeps the last notification in step with the
    selection. *)
Definition notified (st st' : Selection.state) : Prop :=
  Selection.runtimeSendMessage st' = Selection.runtimeSendMessage st
  ∧ Selection.sent st `prefix_of` Selection.sent st'
  ∧ (Selection.runtimeSendMessage st = false →
     Selection.sent st' = Selection.sent st)
  ∧ (Selection.runtimeSendMessage st = true → inSync st → inSync st').

(** *** The shape of a page under the page-wide script *)

Definition marked (e : element) : Prop :=
  attributes e !! NOISE_APPLIED_ATTR = Some "true".

(** A processed image: an [img], marked, inside the wrapper made for it
    and next to its overlay. *)
Definition processed (d : gmap positive element) (i w o : positive) : Prop :=
  ∃ ei ew eo, overlaid d i w o ei ew eo ∧ tagName ei = "img" ∧ marked ei.

(** The document as the page-wide script keeps it: a well-formed tree in
    which an [img] has no children and carries neither of the script's
    classes, every element with the wrapper class or the overlay class
    belongs to a processed image, every marked image is processed, and
    the script's [load] listeners sit on images only. *)
Record managed (d : gmap positive element) : Prop := Managed {
  mg_wf : wellFormed d;
  mg_img : ∀ x ex, d !! x = Some ex → tagName ex = "img" →
             childNodes ex = [] ∧ (NOISE_WRAPPER_CLASS ∉ className ex)
             ∧ (NOISE_OVERLAY_CLASS ∉ className ex);
  mg_wrapper : ∀ x ex, d !! x = Some ex → NOISE_WRAPPER_CLASS ∈ className ex →
                 ∃ i o, processed d i x o;
  mg_overlay : ∀ x ex, d !! x = Some ex → NOISE_OVERLAY_CLASS ∈ className ex →
                 ∃ i w, processed d i w x;
  mg_marked : ∀ x ex, d !! x = Some ex → tagName ex = "img" → marked ex →
                ∃ w o, processed d x w o;
  mg_listeners : ∀ x ex, d !! x = Some ex → loadListeners ex ≠ [] →
                   tagName ex = "img";
}.

(** The document before the script has touched it: no element carries
    the script's classes, no image is marked, no listener of the script
    is registered. *)
Record cleanPage (d : gmap positive element) : Prop := CleanPage {
  cp_wf : wellFormed d;
  cp_img : ∀ x ex, d !! x = Some ex → tagName ex = "img" →
             childNodes ex = [] ∧ ¬ marked ex;
  cp_classes : ∀ x ex, d !! x = Some ex →
                 (NOISE_WRAPPER_CLASS ∉ className ex)
                 ∧ (NOISE_OVERLAY_CLASS ∉ className ex);
  cp_listeners : ∀ x ex, d !! x = Some ex → loadListeners ex = [];
}.

(** Two elements that differ at most in the style, in the load state and
    in the listeners; two stores whose elements do. *)
Definition similar (e e' : element) : Prop :=
  tagName e' = tagName e ∧ className e' = className e
  ∧ attributes e' = attributes e ∧ parentNode e' = parentNode e
  ∧ childNodes e' = childNodes e.

Definition similarStore (d d' : gmap positive element) : Prop :=
  ∀ a, match d !! a, d' !! a with
       | Some e, Some e' => similar e e'
       | None, None => True
       | _, _ => False
       end.

(** What the page-wide script may do to an element over time: the tag
    and the load state stay, an element with a parent keeps having one,
    a marked element stays marked, an element that is not loaded keeps
    its attributes, and a registered [doApply] listener stays. *)
Definition grown (e e' : element) : Prop :=
  tagName e' = tagName e ∧ loaded e' = loaded e
  ∧ (parentNode e ≠ None → parentNode e' ≠ None)
  ∧ (parentNode e = None → parentNode e' = None)
  ∧ (marked e → marked e')
  ∧ (loaded e = false → attributes e' = attributes e)
  ∧ (ApplyOnLoad ∈ loadListeners e → ApplyOnLoad ∈ loadListeners e').

Definition grows (d d' : gmap positive element) : Prop :=
  ∀ x e, d !! x = Some e → ∃ e', d' !! x = Some e' ∧ grown e e'.

(** The [load] events of a run deliver images of positive natural
    width. *)
Definition positiveLoads (events : list Startup.event) : Prop :=
  Forall (λ ev, match ev with
                | Startup.Load _ w _ => (0 < w)%N
                | _ => True
                end) events.

(** The elements that carry the class [cls] are the same in [d'] as in
    [d], and no element that is new in [d'] carries it. *)
Definition keepsClass (cls : string) (d d' : gmap positive element) : Prop :=
  (∀ x e, d !! x = Some e →
     ∃ e', d' !! x = Some e' ∧ (cls ∈ className e' ↔ cls ∈ className e))
  ∧ (∀ x e', d' !! x = Some e' → d !! x = None → cls ∉ className e').

(** The two classes of the selection script show its variables: the body
    and the selected image are elements of the document; an element
    carries the selected class exactly if it is the selected image, and
    the selection-mode class exactly if it is the body while the
    selection mode is enabled. *)
Definition classesShown (st : Selection.state) : Prop :=
  is_Some (nodes (Selection.pg st) !! body (Selection.pg st))
  ∧ (∀ x, Selection.selectedImage st = Some x →
          is_Some (nodes (Selection.pg st) !! x))
  ∧ ∀ x e, nodes (Selection.pg st) !! x = Some e →
      (Selection.SELECTED_CLASS ∈ className e
       ↔ Selection.selectedImage st = Some x)
      ∧ (Selection.SELECTION_MODE_CLASS ∈ className e
         ↔ Selection.selectionModeEnabled st = true
           ∧ x = body (Selection.pg st)).

End Invariants.

Import Invariants.

(* ===================================================================== *)
(** * Properties *)
(* ===================================================================== *)

(** ** Numbers *)

Module NumberFacts.

Lemma leb_refl x : isNaN x = false → leb x x = true.
Proof.
  destruct x as [| |q|]; simpl; try done.
  intros _. apply Qle_bool_iff, Qle_refl.
Qed.


Lemma leb_total x y :
  isNaN x = false → isNaN y = false → leb x y = true ∨ leb y x = true.
Proof.
  destruct x as [| |p|], y as [| |q|]; simpl; try done; auto.
  intros _ _. rewrite !Qle_bool_iff.
  destruct (Qlt_le_dec p q) as [H|H]; [left; by apply Qlt_le_weak | by right].
Qed.

Lemma leb_false_flip x y :
  isNaN x = false → isNaN y = false → leb x y = false → leb y x = true.
Proof.
  intros Hx Hy H. destruct (leb_total x y Hx Hy) as [H'|H']; congruence.
Qed.

Lemma Math_max_isNaN a b :
  isNaN a = false → isNaN b = false → isNaN (Math_max a b) = false.
Proof.
  destruct a, b; simpl; try done; intros _ _; by case_match.
Qed.

Lemma Math_min_isNaN a b :
  isNaN a = false → isNaN b = false → isNaN (Math_min a b) = false.
Proof.
  destruct a, b; simpl; try done; intros _ _; by case_match.
Qed.

Lemma Math_max_eq a b :
  isNaN a = false → isNaN b = false →
  Math_max a b = if leb a b then b else a.
Proof. destruct a, b; simpl; done. Qed.

Lemma Math_min_eq a b :
  isNaN a = false → isNaN b = false →
  Math_min a b = if leb a b then a else b.
Proof. destruct a, b; simpl; done. Qed.

Lemma Math_max_ge_r a b :
  isNaN a = false → isNaN b = false → le b (Math_max a b).
Proof.
  intros Ha Hb. unfold le. rewrite Math_max_eq by done.
  destruct (leb a b) eqn:E; [by apply leb_refl | by apply leb_false_flip].
Qed.

Lemma Math_min_le_r a b :
  isNaN a = false → isNaN b = false → le (Math_min a b) b.
Proof.
  intros Ha Hb. unfold le. rewrite Math_min_eq by done.
  destruct (leb a b) eqn:E; [done | by apply leb_refl].
Qed.





Lemma clamp_isNaN v lo hi :
  isNaN v = false → isNaN lo = false → isNaN hi = false →
  isNaN (clamp v lo hi) = false.
Proof.
  intros. unfold clamp. apply Math_min_isNaN; [|done].
  by apply Math_max_isNaN.
Qed.


Lemma clamp_bounds v lo hi :
  isNaN v = false → isNaN lo = false → isNaN hi = false → le lo hi →
  le lo (clamp v lo hi) ∧ le (clamp v lo hi) hi.
Proof.
  intros Hv Hlo Hhi Hle. unfold clamp. split.
  - pose proof (Math_max_ge_r v lo Hv Hlo) as H1.
    pose proof (Math_max_isNaN v lo Hv Hlo) as Hm.
    unfold le in *. rewrite Math_min_eq by done.
    by destruct (leb (Math_max v lo) hi).
  - apply Math_min_le_r; [|done]. by apply Math_max_isNaN.
Qed.

End NumberFacts.

(** ** Settings *)

Module SettingsFacts.

Import NumberFacts.

Lemma normalizeSettings_parsed raw :
  isNaN (Number (getProp raw "intensity")) = false →
  intensity (normalizeSettings raw)
  = clamp (Number (getProp raw "intensity")) (Fin (1#2)) (Fin 100).
Proof. intros Hp. unfold normalizeSettings. by rewrite Hp. Qed.

Lemma normalizeSettings_unparsed raw :
  isNaN (Number (getProp raw "intensity")) = true →
  intensity (normalizeSettings raw) = intensity DEFAULT_SETTINGS.
Proof.
  intros Hp. unfold normalizeSettings. rewrite Hp.
  by destruct (supportedNoiseType _).
Qed.

Lemma normalizeSettings_in_range raw :
  isNaN (intensity (normalizeSettings raw)) = false
  ∧ le (Fin (1#2)) (intensity (normalizeSettings raw))
  ∧ le (intensity (normalizeSettings raw)) (Fin 100).
Proof.
  destruct (isNaN (Number (getProp raw "intensity"))) eqn:E.
  - rewrite normalizeSettings_unparsed by done. by vm_compute.
  - rewrite normalizeSettings_parsed by done. split.
    + by apply clamp_isNaN.
    + by apply clamp_bounds.
Qed.






End SettingsFacts.

(** The three example quotients of the opacity mapping on binary64
    numbers: each is the number that the decimal literal of the expected
    string denotes (0.2 and 0.005, inexact in binary, are written in
    hexadecimal). *)

Module Binary64Facts.

Import PrimFloat.

Lemma opacity_examples_binary64 :
  eqb (div 20 100) 0x1.999999999999ap-3 = true
  ∧ eqb (div 0.5 100) 0x1.47ae147ae147bp-8 = true
  ∧ eqb (div 100 100) 1 = true.
Proof. by vm_compute. Qed.

End Binary64Facts.

(** ** The noise generator *)

Module NoiseFacts.

Import Noise.
Local Open Scope R_scope.

Lemma drawNonZero_nonzero x rest :
  x ≠ 0 → drawNonZero (x :: rest) = Some (x, rest).
Proof. intros Hx. simpl. by destruct (Req_dec_T x 0). Qed.

Lemma drawNonZero_zero rest : drawNonZero (0 :: rest) = drawNonZero rest.
Proof. simpl. by destruct (Req_dec_T 0 0). Qed.

(** The loop never returns 0. *)
Lemma drawNonZero_result src x rest :
  drawNonZero src = Some (x, rest) → x ≠ 0.
Proof.
  induction src as [|y src IH]; simpl; [done|].
  destruct (Req_dec_T y 0); [done|]. by intros [= -> ->].
Qed.

Lemma clamp_unit x : 0 <= clamp x 0 1 <= 1.
Proof.
  unfold clamp. split.
  - apply Rmin_glb; [apply Rmax_r | lra].
  - apply Rmin_r.
Qed.


Lemma randomGaussianUnit_draws u v rest :
  u ≠ 0 → v ≠ 0 →
  randomGaussianUnit (u :: v :: rest)
  = Some (clamp ((sqrt (-2 * ln u) * cos (2 * PI * v) + 3) / 6) 0 1, rest).
Proof.
  intros Hu Hv. unfold randomGaussianUnit.
  rewrite drawNonZero_nonzero by done.
  by rewrite drawNonZero_nonzero by done.
Qed.



(** A uniform pixel keeps the first draw; for a draw in [0,1) the grey
    level is in [0,254]. *)
Lemma uniform_shade w rest :
  shadeOfPixel "uniform" (w :: rest) = Some (Zfloor (w * 255), rest).
Proof. done. Qed.

End NoiseFacts.

(** ** Storage change notifications *)

Module StorageFacts.

Lemma storageUpdate_other_area changes areaName current :
  areaName ≠ "local" → storageUpdate changes areaName current = None.
Proof.
  intros H. unfold storageUpdate.
  destruct (String.eqb_spec areaName "local"); done.
Qed.

Lemma storageUpdate_local changes current :
  is_Some (storageUpdate changes "local" current)
  ↔ noiseTypeAccepted changes ∨ intensityAccepted changes.
Proof.
  unfold storageUpdate, noiseTypeAccepted, intensityAccepted. simpl. split.
  - intros Hs.
    destruct (changes !! "noiseType") as [c1|] eqn:E1.
    { destruct (supportedNoiseType (newValue c1)) as [t|] eqn:S1.
      { left. by exists c1, t. }
      destruct (changes !! "intensity") as [c2|] eqn:E2;
        [|by destruct Hs].
      destruct (isUndefined (newValue c2)) eqn:U2; [by destruct Hs|].
      destruct (isNaN (Number (newValue c2))) eqn:N2; [by destruct Hs|].
      right. by exists c2. }
    destruct (changes !! "intensity") as [c2|] eqn:E2; [|by destruct Hs].
    destruct (isUndefined (newValue c2)) eqn:U2; [by destruct Hs|].
    destruct (isNaN (Number (newValue c2))) eqn:N2; [by destruct Hs|].
    right. by exists c2.
  - intros [(c & t & -> & ->)|(c & -> & -> & ->)].
    + destruct (changes !! "intensity") as [c2|]; [|done].
      destruct (isUndefined (newValue c2)); [done|].
      by destruct (isNaN (Number (newValue c2))).
    + destruct (changes !! "noiseType") as [c1|]; [|done].
      by destruct (supportedNoiseType (newValue c1)).
Qed.

(** C8 (as amended).  A notification for an area other than ['local'] is
    ignored; for the area ['local'], [applySettings] is called exactly
    when the notification carries a [noiseType] entry whose new value is
    a supported kind, or an [intensity] entry whose new value is defined
    and converts to a number.  The old value is not consulted. *)
Theorem storageUpdate_trigger (changes : gmap string storageChange)
    (areaName : string) (current : settings) :
  (areaName ≠ "local" → storageUpdate changes areaName current = None)
  ∧ (areaName = "local" →
     (is_Some (storageUpdate changes areaName current)
      ↔ noiseTypeAccepted changes ∨ intensityAccepted changes)).
Proof.
  split.
  - apply storageUpdate_other_area.
  - intros ->. apply storageUpdate_local.
Qed.

Lemma storageUpdate_trigger_witness :
  storageUpdate {[ "intensity" := StorageChange (JNumber (Fin 20)) (JNumber (Fin 35)) ]}
    "sync" DEFAULT_SETTINGS = None
  ∧ is_Some (storageUpdate
       {[ "intensity" := StorageChange (JNumber (Fin 20)) (JNumber (Fin 35)) ]}
       "local" DEFAULT_SETTINGS).
Proof.
  split.
  - apply (proj1 (storageUpdate_trigger _ "sync" _)). by vm_compute.
  - apply (proj2 (storageUpdate_trigger _ "local" DEFAULT_SETTINGS) eq_refl).
    right. eexists. split; [reflexivity|]. split; reflexivity.
Defined.

(** C8 as stated fails in both directions.  A recognised field whose
    stored value did change (from ['uniform'] to the unsupported
    ['perlin']) triggers nothing; an [intensity] entry whose new value is
    its old value does trigger [applySettings], with the settings as they
    are; and so does one whose new value, 250, is clamped to the current
    100. *)
Lemma storageUpdate_not_iff_changed :
  (let c := StorageChange (JString "uniform") (JString "perlin") in
   oldValue c ≠ newValue c
   ∧ storageUpdate {[ "noiseType" := c ]} "local" DEFAULT_SETTINGS = None)
  ∧ (let c := StorageChange (JNumber (Fin 20)) (JNumber (Fin 20)) in
     oldValue c = newValue c
     ∧ storageUpdate {[ "intensity" := c ]} "local" DEFAULT_SETTINGS
       = Some DEFAULT_SETTINGS)
  ∧ (let current := Build_settings "uniform" (Fin 100) in
     storageUpdate {[ "intensity" := StorageChange (JNumber (Fin 100)) (JNumber (Fin 250)) ]}
       "local" current = Some current).
Proof. split; [split; [done|] | split; [split; [done|] |]]; by vm_compute. Qed.

End StorageFacts.

(** ** The document and the overlay manager *)

Module DomFacts.

Local Open Scope nat_scope.

Lemma fresh_lookup (d : gmap positive element) : d !! fresh (dom d) = None.
Proof. apply not_elem_of_dom, is_fresh. Qed.

Lemma size_alter (f : element → element) n (d : gmap positive element) :
  size (alter f n d) = size d.
Proof. by rewrite <- !size_dom, dom_alter_L. Qed.

(** *** Ancestor chains *)

Lemma inclusiveAncestors_agree f (d d' : gmap positive element) n :
  parentNode <$> d' !! n = parentNode <$> d !! n →
  (∀ a e p, a ∈ inclusiveAncestors f d n → d !! a = Some e →
            parentNode e = Some p →
            parentNode <$> d' !! p = parentNode <$> d !! p) →
  inclusiveAncestors f d' n = inclusiveAncestors f d n.
Proof.
  revert n. induction f as [|f IH]; intros n Hn Hchain; [done|].
  simpl in *.
  destruct (d !! n) as [e|] eqn:E, (d' !! n) as [e'|] eqn:E';
    simpl in Hn; try done.
  injection Hn as Hn. rewrite Hn. f_equal.
  destruct (parentNode e) as [p|] eqn:Ep; [|done].
  apply IH.
  - eapply (Hchain n e p); [left | done | done].
  - intros a ea pa Ha. eapply Hchain. by right.
Qed.

Lemma inclusiveAncestors_fuel depth d f k n :
  wellFormedWith depth d → depth n < f →
  inclusiveAncestors (f + k) d n = inclusiveAncestors f d n.
Proof.
  intros Hwf. revert n. induction f as [|f IH]; intros n Hd; [lia|].
  simpl. destruct (d !! n) as [e|] eqn:E; [|done]. f_equal.
  destruct (parentNode e) as [p|] eqn:Ep; [|done].
  apply IH. destruct (Hwf n e E) as (_ & Hp & _).
  unfold parentOk in Hp. rewrite Ep in Hp.
  destruct (d !! p); [lia | done].
Qed.

Lemma inclusiveAncestors_members depth d f n a :
  wellFormedWith depth d → a ∈ inclusiveAncestors f d n →
  ∃ e, d !! a = Some e ∧ (a = n ∨ childNodes e ≠ []).
Proof.
  intros Hwf. revert n. induction f as [|f IH]; intros n Ha; simpl in Ha.
  { by apply elem_of_nil in Ha. }
  destruct (d !! n) as [e|] eqn:E; [|by apply elem_of_nil in Ha].
  apply elem_of_cons in Ha as [->|Ha]; [by eauto|].
  destruct (parentNode e) as [p|] eqn:Ep; [|by apply elem_of_nil in Ha].
  destruct (IH p Ha) as (ea & Hea & [->|Hne]); [|by eauto].
  exists ea. split; [done|]. right.
  destruct (Hwf n e E) as (_ & Hp & _).
  unfold parentOk in Hp. rewrite Ep, Hea in Hp. destruct Hp as [Hin _].
  intros Hnil. rewrite Hnil in Hin. by apply elem_of_nil in Hin.
Qed.

Lemma matchesClass_agree (d d' : gmap positive element) cls a e e' :
  d !! a = Some e → d' !! a = Some e' →
  (cls ∈ className e' ↔ cls ∈ className e) →
  matchesClass d' cls a = matchesClass d cls a.
Proof.
  intros He He' Hiff. unfold matchesClass. rewrite He, He'.
  apply bool_decide_ext, Hiff.
Qed.

Lemma filter_agree {A} (P Q : A → Prop) `{∀ x, Decision (P x)}
    `{∀ x, Decision (Q x)} (l : list A) :
  (∀ x, x ∈ l → P x ↔ Q x) → filter P l = filter Q l.
Proof.
  induction l as [|x l IH]; intros Hl; [done|].
  rewrite !filter_cons. rewrite IH by (intros; apply Hl; by right).
  destruct (decide (P x)), (decide (Q x)); try done;
    exfalso; pose proof (Hl x (list_elem_of_here _ _)); tauto.
Qed.

(** [closest] only reads the parent pointers and the class tokens of the
    element and of the nodes that have children. *)
Lemma closest_frame depth (d d' : gmap positive element) cls x :
  wellFormedWith depth d → is_Some (d !! x) → (size d ≤ size d')%nat →
  (∀ a e, d !! a = Some e → a = x ∨ childNodes e ≠ [] →
     ∃ e', d' !! a = Some e' ∧ parentNode e' = parentNode e
           ∧ (cls ∈ className e' ↔ cls ∈ className e)) →
  closest d' cls x = closest d cls x.
Proof.
  intros Hwf [ex Hx] Hsize Hagree. unfold closest.
  assert (inclusiveAncestors (size d') d' x = inclusiveAncestors (size d) d x)
    as Hchain.
  { replace (size d') with (size d + (size d' - size d)) by lia.
    rewrite <- (inclusiveAncestors_fuel depth d (size d) (size d' - size d) x);
      [|done|by destruct (Hwf x ex Hx)].
    apply inclusiveAncestors_agree.
    - destruct (Hagree x ex Hx) as (e' & He' & Hpar & _); [by left|].
      rewrite He', Hx. simpl. by rewrite Hpar.
    - intros a e p Ha He Hp.
      destruct (Hwf a e He) as (_ & Hpo & _).
      unfold parentOk in Hpo. rewrite Hp in Hpo.
      destruct (d !! p) as [ep|] eqn:Eep; [|done]. destruct Hpo as [Hin _].
      destruct (Hagree p ep Eep) as (e' & He' & Hpar & _).
      { right. intros Hnil. rewrite Hnil in Hin. by apply elem_of_nil in Hin. }
      rewrite He'. simpl. by rewrite Hpar. }
  rewrite Hchain. f_equal. apply filter_agree. intros a Ha.
  destruct (inclusiveAncestors_members depth d _ x a Hwf Ha) as (e & He & Hor).
  destruct (Hagree a e He Hor) as (e' & He' & _ & Hiff).
  by rewrite (matchesClass_agree d d' cls a e e').
Qed.


(** *** Descendants *)

Lemma descendants_childless f (d : gmap positive element) n e :
  d !! n = Some e → childNodes e = [] → descendants f d n = [].
Proof. intros He Hc. destruct f; [done|]. simpl. by rewrite He, Hc. Qed.

Lemma size_two (d : gmap positive element) a b :
  a ≠ b → is_Some (d !! a) → is_Some (d !! b) → 2 ≤ size d.
Proof.
  intros Hne Ha Hb. rewrite <- size_dom.
  assert ({[a; b]} ⊆ dom d) as Hsub.
  { apply elem_of_dom in Ha, Hb.
    intros x [->%elem_of_singleton| ->%elem_of_singleton]%elem_of_union; done. }
  apply subseteq_size in Hsub.
  rewrite size_union in Hsub by (by apply disjoint_singleton_l, not_elem_of_singleton).
  by rewrite !size_singleton in Hsub.
Qed.

Lemma size_one (d : gmap positive element) a : is_Some (d !! a) → 1 ≤ size d.
Proof.
  intros [e Ha]. destruct (size d) eqn:E; [|lia].
  apply map_size_empty_inv in E. by rewrite E, lookup_empty in Ha.
Qed.

(** An image directly under a wrapper: [closest] finds that wrapper. *)
Lemma closest_wrapped (d : gmap positive element) cls i ei w ew :
  d !! i = Some ei → cls ∉ className ei → parentNode ei = Some w →
  d !! w = Some ew → cls ∈ className ew → i ≠ w →
  closest d cls i = Some w.
Proof.
  intros Hi Hci Hp Hw Hcw Hne. unfold closest.
  pose proof (size_two d i w Hne (mk_is_Some _ _ Hi) (mk_is_Some _ _ Hw))
    as Hs.
  destruct (size d) as [|[|f]]; [lia ..|].
  simpl. rewrite Hi, Hp, Hw.
  rewrite filter_cons_False.
  2:{ unfold matchesClass. rewrite Hi. by rewrite bool_decide_eq_false_2. }
  rewrite filter_cons_True; [done|].
  unfold matchesClass. rewrite Hw. by rewrite bool_decide_eq_true_2.
Qed.

(** No [closest] match: the element itself does not carry the class. *)
Lemma closest_None_self (d : gmap positive element) cls i ei :
  d !! i = Some ei → closest d cls i = None → cls ∉ className ei.
Proof.
  intros Hi Hc Hin. unfold closest in Hc.
  pose proof (size_one d i (mk_is_Some _ _ Hi)) as Hs.
  destruct (size d) as [|f]; [lia|]. simpl in Hc. rewrite Hi in Hc.
  rewrite filter_cons_True in Hc; [done|].
  unfold matchesClass. rewrite Hi. by rewrite bool_decide_eq_true_2.
Qed.

(** The overlays of a wrapper whose children are an image and one more
    element, both without children. *)
Lemma querySelectorAll_pair (d : gmap positive element) cls w ew i ei o eo :
  d !! w = Some ew → childNodes ew = [i; o] →
  d !! i = Some ei → childNodes ei = [] → cls ∉ className ei →
  d !! o = Some eo → childNodes eo = [] → cls ∈ className eo →
  querySelectorAll d w cls = [o].
Proof.
  intros Hw Hcw Hi Hci Hni Ho Hco Hio. unfold querySelectorAll.
  pose proof (size_one d w (mk_is_Some _ _ Hw)) as Hs.
  destruct (size d) as [|f]; [lia|]. simpl. rewrite Hw, Hcw. simpl.
  rewrite (descendants_childless f d i ei), (descendants_childless f d o eo)
    by done.
  simpl. rewrite filter_cons_False.
  2:{ unfold matchesClass. rewrite Hi. by rewrite bool_decide_eq_false_2. }
  rewrite filter_cons_True; [done|].
  unfold matchesClass. rewrite Ho. by rewrite bool_decide_eq_true_2.
Qed.

Lemma querySelectorAll_single (d : gmap positive element) cls w ew i ei :
  d !! w = Some ew → childNodes ew = [i] →
  d !! i = Some ei → childNodes ei = [] → cls ∉ className ei →
  querySelectorAll d w cls = [].
Proof.
  intros Hw Hcw Hi Hci Hni. unfold querySelectorAll.
  pose proof (size_one d w (mk_is_Some _ _ Hw)) as Hs.
  destruct (size d) as [|f]; [lia|]. simpl. rewrite Hw, Hcw. simpl.
  rewrite (descendants_childless f d i ei) by done.
  simpl. rewrite filter_cons_False; [done|].
  unfold matchesClass. rewrite Hi. by rewrite bool_decide_eq_false_2.
Qed.


(** *** Stores that agree on the tree *)

Lemma sameTree_size d d' : sameTree d d' → size d' = size d.
Proof.
  intros H. rewrite <- !size_dom. f_equal. apply set_eq. intros a.
  rewrite !elem_of_dom. destruct (H a) as (Hp & _).
  destruct (d !! a), (d' !! a); simpl in Hp; try done; split; by eauto.
Qed.

Lemma inclusiveAncestors_ext f d d' n :
  sameTree d d' → inclusiveAncestors f d' n = inclusiveAncestors f d n.
Proof.
  intros H. apply inclusiveAncestors_agree; [apply H|].
  intros a e p _ _ _. apply H.
Qed.

Lemma bind_agree {A B} (g g' : A → list B) (l : list A) :
  (∀ x, x ∈ l → g x = g' x) → l ≫= g = l ≫= g'.
Proof.
  induction l as [|x l IH]; intros Hl; [done|].
  rewrite !bind_cons. rewrite Hl by apply list_elem_of_here.
  rewrite IH; [done|]. intros y Hy. apply Hl. by right.
Qed.

Lemma descendants_ext f d d' n :
  sameTree d d' → descendants f d' n = descendants f d n.
Proof.
  intros H. revert n. induction f as [|f IH]; intros n; [done|].
  simpl. destruct (H n) as (_ & Hc & _).
  destruct (d !! n) as [e|], (d' !! n) as [e'|]; simpl in Hc; try done.
  injection Hc as ->. apply bind_agree. intros c _. by rewrite IH.
Qed.

Lemma matchesClass_ext d d' cls a :
  sameTree d d' → matchesClass d' cls a = matchesClass d cls a.
Proof.
  intros H. unfold matchesClass. destruct (H a) as (_ & _ & Hc).
  destruct (d !! a) as [e|], (d' !! a) as [e'|]; simpl in Hc; try done.
  by injection Hc as ->.
Qed.

Lemma closest_ext d d' cls n :
  sameTree d d' → closest d' cls n = closest d cls n.
Proof.
  intros H. unfold closest.
  rewrite (sameTree_size d d' H), (inclusiveAncestors_ext _ d d') by done.
  f_equal. apply filter_agree. intros a _.
  by rewrite (matchesClass_ext d d').
Qed.

Lemma querySelectorAll_ext d d' n cls :
  sameTree d d' → querySelectorAll d' n cls = querySelectorAll d n cls.
Proof.
  intros H. unfold querySelectorAll.
  rewrite (sameTree_size d d' H), (descendants_ext _ d d') by done.
  apply filter_agree. intros a _. by rewrite (matchesClass_ext d d').
Qed.

(** *** Descendants in a well-formed document *)

Lemma descendants_agree f (d d' : gmap positive element) n :
  childNodes <$> d' !! n = childNodes <$> d !! n →
  (∀ a, a ∈ descendants f d n →
        childNodes <$> d' !! a = childNodes <$> d !! a) →
  descendants f d' n = descendants f d n.
Proof.
  revert n. induction f as [|f IH]; intros n Hn Hdesc; [done|].
  simpl in *.
  destruct (d !! n) as [e|], (d' !! n) as [e'|]; simpl in Hn; try done.
  injection Hn as ->. apply bind_agree. intros c Hc. f_equal.
  apply IH.
  - apply Hdesc. apply list_elem_of_bind. exists c. split; [left|done].
  - intros a Ha. apply Hdesc. apply list_elem_of_bind. exists c.
    split; [by right|done].
Qed.

Lemma descendants_deeper depth d f n a :
  wellFormedWith depth d → a ∈ descendants f d n →
  is_Some (d !! a) ∧ depth n < depth a.
Proof.
  intros Hwf. revert n. induction f as [|f IH]; intros n Ha; simpl in Ha.
  { by apply elem_of_nil in Ha. }
  destruct (d !! n) as [e|] eqn:E; [|by apply elem_of_nil in Ha].
  apply list_elem_of_bind in Ha as (c & Ha & Hc).
  destruct (Hwf n e E) as (_ & _ & Hkids).
  rewrite Forall_forall in Hkids. specialize (Hkids c Hc).
  unfold childOk in Hkids. destruct (d !! c) as [ec|] eqn:Ec; [|done].
  destruct (Hwf c ec Ec) as (_ & Hpo & _). unfold parentOk in Hpo.
  rewrite Hkids, E in Hpo. destruct Hpo as [_ Hlt].
  apply elem_of_cons in Ha as [->|Ha]; [by eauto|].
  destruct (IH c Ha) as [? ?]. split; [done|lia].
Qed.

Lemma descendants_fuel depth d f k n :
  wellFormedWith depth d → size d ≤ f + depth n →
  descendants (f + k) d n = descendants f d n.
Proof.
  intros Hwf. revert n. induction f as [|f IH]; intros n Hf.
  { simpl. destruct k; [done|]. simpl.
    destruct (d !! n) as [e|] eqn:E; [|done].
    destruct (Hwf n e E) as (Hlt & _). simpl in Hf. lia. }
  simpl. destruct (d !! n) as [e|] eqn:E; [|done].
  apply bind_agree. intros c Hc. f_equal. apply IH.
  destruct (Hwf n e E) as (_ & _ & Hkids).
  rewrite Forall_forall in Hkids. specialize (Hkids c Hc).
  unfold childOk in Hkids. destruct (d !! c) as [ec|] eqn:Ec; [|done].
  destruct (Hwf c ec Ec) as (_ & Hpo & _). unfold parentOk in Hpo.
  rewrite Hkids, E in Hpo. lia.
Qed.


Lemma closest_Some_lookup (d : gmap positive element) cls n w :
  closest d cls n = Some w → ∃ ew, d !! w = Some ew ∧ cls ∈ className ew.
Proof.
  unfold closest. intros H. apply head_Some_elem_of in H.
  apply list_elem_of_filter in H as [H _]. unfold matchesClass in H.
  destruct (d !! w) as [ew|]; [|done]. exists ew. split; [done|].
  by apply bool_decide_eq_true_1 in H.
Qed.

Lemma sameTree_alter (f : element → element) n (d : gmap positive element) :
  (∀ e, parentNode (f e) = parentNode e ∧ childNodes (f e) = childNodes e
        ∧ className (f e) = className e) →
  sameTree d (alter f n d).
Proof.
  intros Hf a. rewrite lookup_alter. case_decide as Hna; [|done].
  subst a. destruct (d !! n) as [e|]; [|done]. simpl.
  destruct (Hf e) as (-> & -> & ->). done.
Qed.

Lemma sameTree_trans d1 d2 d3 :
  sameTree d1 d2 → sameTree d2 d3 → sameTree d1 d3.
Proof.
  intros H12 H23 a. destruct (H12 a) as (? & ? & ?), (H23 a) as (? & ? & ?).
  repeat split; congruence.
Qed.

Lemma wellFormedWith_sameTree depth d d' :
  wellFormedWith depth d → sameTree d d' → wellFormedWith depth d'.
Proof.
  intros Hwf Hs n e' He'.
  destruct (Hs n) as (Hp & Hc & _). rewrite He' in Hp, Hc.
  destruct (d !! n) as [e|] eqn:He; simpl in Hp, Hc; [|done].
  injection Hp as Hp. injection Hc as Hc.
  destruct (Hwf n e He) as (Hlt & Hpo & Hkids).
  split; [by rewrite (sameTree_size d d')|]. split.
  - unfold parentOk in *. rewrite Hp. destruct (parentNode e) as [p|]; [|done].
    destruct (Hs p) as (_ & Hcp & _).
    destruct (d !! p) as [ep|], (d' !! p) as [ep'|]; simpl in Hcp; try done.
    injection Hcp as ->. done.
  - rewrite Hc. eapply Forall_impl; [exact Hkids|]. intros c Hok.
    unfold childOk in *. destruct (Hs c) as (Hpc & _).
    destruct (d !! c) as [ec|], (d' !! c) as [ec'|]; simpl in Hpc; try done.
    injection Hpc as ->. done.
Qed.

End DomFacts.

Module OverlayFacts.

Import DomFacts.
Local Open Scope nat_scope.

Lemma ensureWrapper_new d i e p ep :
  closest d NOISE_WRAPPER_CLASS i = None →
  d !! i = Some e → parentNode e = Some p → d !! p = Some ep → i ≠ p →
  ensureWrapper i d = (Some (fresh (dom d)), wrapInto d i e p ep).
Proof.
  intros Hc Hi Hp Hep Hne. unfold ensureWrapper. rewrite Hc, Hi. simpl. rewrite Hp.
  unfold insertNewBefore. f_equal.
  pose proof (fresh_lookup d) as Hw. set (w := fresh (dom d)) in *.
  assert (w ≠ i) by (intros ->; congruence).
  assert (w ≠ p) by (intros ->; congruence).
  unfold appendChild, removeNode, wrapInto. fold w.
  rewrite lookup_insert_ne by done. rewrite lookup_alter_ne by done.
  rewrite Hi. simpl. rewrite Hp.
  apply map_eq. intros a.
  destruct (decide (a = w)) as [->|Haw].
  { rewrite lookup_alter_eq. rewrite !lookup_alter_ne by done.
    rewrite !lookup_insert_eq. done. }
  rewrite lookup_alter_ne by done. rewrite (lookup_insert_ne _ w a) by done.
  destruct (decide (a = i)) as [->|Hai].
  { rewrite !lookup_alter_eq. rewrite lookup_alter_ne by done.
    rewrite lookup_insert_ne by done. rewrite lookup_alter_ne by done.
    rewrite Hi. rewrite lookup_insert_eq. simpl. by destruct e. }
  rewrite !lookup_alter_ne by done. rewrite (lookup_insert_ne _ i a) by done.
  destruct (decide (a = p)) as [->|Hap].
  { rewrite lookup_alter_eq. rewrite lookup_insert_ne by done. rewrite lookup_alter_eq.
    rewrite Hep, lookup_insert_eq. simpl. done. }
  rewrite lookup_alter_ne by done. rewrite !lookup_insert_ne by done.
  by rewrite lookup_alter_ne by done.
Qed.

Section fresh_wrapper.
Context (d : gmap positive element) (i : positive) (e : element)
        (p : positive) (ep : element).
Context (Hplain : plainImage d i e p ep).

Let w := fresh (dom d).
Let o := fresh (dom (wrapInto d i e p ep)).

Lemma wrapper_fresh : d !! w = None ∧ w ≠ i ∧ w ≠ p.
Proof.
  destruct Hplain. pose proof (fresh_lookup d) as Hw. fold w in Hw.
  repeat split; [done | |]; intros Heq; rewrite Heq in Hw; congruence.
Qed.

Lemma overlay_fresh : d !! o = None ∧ o ≠ w ∧ o ≠ i ∧ o ≠ p.
Proof.
  destruct Hplain. destruct wrapper_fresh as (Hw & Hwi & Hwp).
  pose proof (fresh_lookup (wrapInto d i e p ep)) as Ho. fold o in Ho.
  unfold wrapInto in Ho. fold w in Ho.
  assert (o ≠ w) as H1.
  { intros Heq. rewrite Heq, lookup_insert_eq in Ho. done. }
  rewrite lookup_insert_ne in Ho by done.
  assert (o ≠ i) as H2.
  { intros Heq. rewrite Heq, lookup_insert_eq in Ho. done. }
  rewrite lookup_insert_ne in Ho by done.
  assert (o ≠ p) as H3.
  { intros Heq. rewrite Heq, lookup_insert_eq in Ho. done. }
  rewrite lookup_insert_ne in Ho by done. done.
Qed.

Lemma wrapInto_overlays :
  querySelector (wrapInto d i e p ep) w NOISE_OVERLAY_CLASS = None.
Proof.
  destruct Hplain. destruct wrapper_fresh as (Hw & Hwi & Hwp).
  unfold querySelector.
  rewrite (querySelectorAll_single _ _ w (wrapperOf p i) i
             (withParentNode (Some w) e)); try done.
  - unfold wrapInto. fold w. by rewrite lookup_insert_eq.
  - unfold wrapInto. fold w. rewrite lookup_insert_ne by done.
    by rewrite lookup_insert_eq.
Qed.

Lemma appliedTo_image pattern s :
  appliedTo d i e p ep pattern s !! i
  = Some (withAttributes (<[NOISE_APPLIED_ATTR := "true"%string]> (attributes e))
            (withParentNode (Some w) e)).
Proof.
  destruct wrapper_fresh as (Hw & Hwi & Hwp).
  destruct overlay_fresh as (Ho & How & Hoi & Hop).
  unfold appliedTo. fold w o.
  rewrite lookup_insert_ne by done. rewrite lookup_insert_ne by done.
  by rewrite lookup_insert_eq.
Qed.

Lemma appliedTo_wrapper pattern s :
  appliedTo d i e p ep pattern s !! w
  = Some (withChildNodes [i; o] (wrapperOf p i)).
Proof.
  destruct overlay_fresh as (Ho & How & Hoi & Hop).
  unfold appliedTo. fold w o.
  rewrite lookup_insert_ne by done. by rewrite lookup_insert_eq.
Qed.

Lemma appliedTo_overlay pattern s :
  appliedTo d i e p ep pattern s !! o
  = Some (withParentNode (Some w) (createOverlay pattern s)).
Proof. unfold appliedTo. fold w o. by rewrite lookup_insert_eq. Qed.

Lemma appliedTo_other pattern s a :
  a ≠ o → a ≠ w → a ≠ i → a ≠ p →
  appliedTo d i e p ep pattern s !! a = d !! a.
Proof.
  intros. unfold appliedTo. fold w o. by rewrite !lookup_insert_ne by done.
Qed.

Lemma appliedTo_parent pattern s :
  appliedTo d i e p ep pattern s !! p
  = Some (withChildNodes
            (withoutChild i (insertBeforeRef w i (childNodes ep))) ep).
Proof.
  destruct Hplain.
  destruct wrapper_fresh as (Hw & Hwi & Hwp).
  destruct overlay_fresh as (Ho & How & Hoi & Hop).
  unfold appliedTo. fold w o.
  rewrite !lookup_insert_ne by done. by rewrite lookup_insert_eq.
Qed.

(** The two [doApply] agree on an image that has no wrapper yet. *)
Lemma doApply_new pg :
  nodes pg = d →
  Base.doApply i pg
  = withNodes (appliedTo d i e p ep (noisePattern pg) (currentSettings pg)) pg
  ∧ Selection.doApply i pg
  = withNodes (appliedTo d i e p ep (noisePattern pg) (currentSettings pg)) pg.
Proof.
  intros Hd. destruct Hplain.
  destruct wrapper_fresh as (Hw & Hwi & Hwp).
  destruct overlay_fresh as (Ho & How & Hoi & Hop).
  unfold Base.doApply, Selection.doApply. rewrite Hd.
  rewrite (ensureWrapper_new d i e p ep) by done. fold w.
  rewrite wrapInto_overlays.
  unfold appendNew. fold o.
  assert (setAttribute i NOISE_APPLIED_ATTR "true"
            (<[o := withParentNode (Some w)
                      (createOverlay (noisePattern pg) (currentSettings pg))]>
               (alter (λ ep0, withChildNodes (childNodes ep0 ++ [o]) ep0) w
                  (wrapInto d i e p ep)))
          = appliedTo d i e p ep (noisePattern pg) (currentSettings pg))
    as ->; [|done].
  unfold setAttribute, appliedTo, wrapInto. fold w o.
  apply map_eq. intros a.
  destruct (decide (a = o)) as [->|Hao].
  { rewrite lookup_alter_ne by done. by rewrite !lookup_insert_eq. }
  destruct (decide (a = i)) as [->|Hai].
  { rewrite lookup_alter_eq. rewrite (lookup_insert_ne _ o i) by done.
    rewrite lookup_alter_ne by done.
    rewrite (lookup_insert_ne _ w i) by done. rewrite lookup_insert_eq.
    rewrite (lookup_insert_ne _ o i) by done.
    rewrite (lookup_insert_ne _ w i) by done. by rewrite lookup_insert_eq. }
  rewrite lookup_alter_ne by done.
  rewrite !(lookup_insert_ne _ o a) by done.
  destruct (decide (a = w)) as [->|Haw].
  { rewrite lookup_alter_eq. by rewrite !lookup_insert_eq. }
  rewrite lookup_alter_ne by done.
  rewrite !(lookup_insert_ne _ w a) by done.
  by rewrite !(lookup_insert_ne _ i a) by done.
Qed.

Lemma appliedTo_closest pattern s :
  closest (appliedTo d i e p ep pattern s) NOISE_WRAPPER_CLASS i = Some w.
Proof.
  destruct Hplain. destruct wrapper_fresh as (Hw & Hwi & Hwp).
  eapply closest_wrapped.
  - apply appliedTo_image.
  - simpl. by eapply closest_None_self.
  - done.
  - apply appliedTo_wrapper.
  - simpl. by apply list_elem_of_here.
  - done.
Qed.

Lemma appliedTo_overlays pattern s :
  querySelectorAll (appliedTo d i e p ep pattern s) w NOISE_OVERLAY_CLASS
  = [o].
Proof.
  destruct Hplain.
  eapply querySelectorAll_pair.
  - apply appliedTo_wrapper.
  - done.
  - apply appliedTo_image.
  - done.
  - done.
  - apply appliedTo_overlay.
  - done.
  - simpl. by apply list_elem_of_here.
Qed.

End fresh_wrapper.

Lemma withNodes_id (pg : page) : withNodes (nodes pg) pg = pg.
Proof. by destruct pg. Qed.

Lemma iter_idempotent {A} (f : A → A) (x : A) n :
  f (f x) = f x → Nat.iter (S n) f x = f x.
Proof.
  intros Hf. induction n as [|n IH]; [done|].
  change (Nat.iter (S (S n)) f x) with (f (Nat.iter (S n) f x)).
  by rewrite IH.
Qed.

(** The page-wide script skips an image that is marked processed. *)
Lemma base_applyNoise_marked pg i e :
  nodes pg !! i = Some e →
  attributes e !! NOISE_APPLIED_ATTR = Some "true"%string →
  Base.applyNoise i pg = pg.
Proof.
  intros He Ha. unfold Base.applyNoise. rewrite He.
  by rewrite bool_decide_eq_true_2.
Qed.

(** While an image is loading, both scripts only register a callback. *)
Lemma applyNoise_loading pg i e :
  nodes pg !! i = Some e → loaded e = false →
  attributes e !! NOISE_APPLIED_ATTR ≠ Some "true"%string →
  Base.applyNoise i pg
  = withNodes (addLoadListener i ApplyOnLoad (nodes pg)) pg
  ∧ Selection.applyNoise i pg
  = withNodes (addLoadListener i ApplyOnLoad (nodes pg)) pg.
Proof.
  intros He Hl Ha. unfold Base.applyNoise, Selection.applyNoise.
  rewrite He, Hl. by rewrite bool_decide_eq_false_2.
Qed.

Section first_application.
Context (pg : page) (i : positive) (e : element) (p : positive)
        (ep : element).
Context (Hplain : plainImage (nodes pg) i e p ep).


End first_application.

(** *** Adding an overlay to a wrapper that has none *)

Section append_overlay.
Context (depth : positive → nat) (d : gmap positive element)
        (i w : positive) (ov : element).
Context (Hwf : wellFormedWith depth d)
        (Hi : is_Some (d !! i))
        (Hclosest : closest d NOISE_WRAPPER_CLASS i = Some w)
        (Hnone : querySelectorAll d w NOISE_OVERLAY_CLASS = [])
        (Hov_class : className ov = [NOISE_OVERLAY_CLASS])
        (Hov_kids : childNodes ov = []).

Let o := fresh (dom d).
Let d' :=
  setAttribute i NOISE_APPLIED_ATTR "true"
    (<[o := withParentNode (Some w) ov]>
       (alter (λ ep, withChildNodes (childNodes ep ++ [o]) ep) w d)).

Lemma appended_fresh : d !! o = None ∧ o ≠ i ∧ o ≠ w.
Proof.
  pose proof (fresh_lookup d) as Ho. fold o in Ho.
  destruct Hi as [ei Hei].
  destruct (closest_Some_lookup _ _ _ _ Hclosest) as (ew & Hw & _).
  repeat split; [done | |]; intros Heq; rewrite Heq in Ho; congruence.
Qed.

Lemma appended_overlay : d' !! o = Some (withParentNode (Some w) ov).
Proof.
  destruct appended_fresh as (Ho & Hoi & How).
  unfold d', setAttribute. rewrite lookup_alter_ne by done.
  by rewrite lookup_insert_eq.
Qed.

Lemma appended_old a e :
  d !! a = Some e →
  ∃ e', d' !! a = Some e'
        ∧ parentNode e' = parentNode e ∧ className e' = className e
        ∧ loaded e' = loaded e
        ∧ childNodes e'
          = (if decide (a = w) then (childNodes e ++ [o])%list
             else childNodes e)
        ∧ attributes e'
          = (if decide (a = i)
             then <[NOISE_APPLIED_ATTR := "true"%string]> (attributes e)
             else attributes e).
Proof.
  intros He. destruct appended_fresh as (Ho & Hoi & How).
  assert (a ≠ o) as Hao by (intros ->; congruence).
  unfold d', setAttribute. rewrite lookup_alter.
  rewrite !(lookup_insert_ne _ o) by done. rewrite !lookup_alter.
  destruct (decide (i = a)) as [->|Hia], (decide (w = a)) as [Hwa|Hwa];
    rewrite ?Hwa, ?He; simpl; eexists; (split; [done|]);
    repeat case_decide; try done; by destruct e.
Qed.

Lemma appended_size : size d' = S (size d).
Proof.
  destruct appended_fresh as (Ho & Hoi & How).
  unfold d', setAttribute. rewrite size_alter.
  rewrite map_size_insert_None; [by rewrite size_alter|].
  by rewrite lookup_alter_ne.
Qed.

Lemma appended_closest : closest d' NOISE_WRAPPER_CLASS i = Some w.
Proof.
  rewrite <- Hclosest.
  apply (closest_frame depth); [done | done | rewrite appended_size; lia |].
  intros a e He _. destruct (appended_old a e He) as (e' & -> & Hp & Hc & _).
  exists e'. split; [done|]. split; [done|]. by rewrite Hc.
Qed.

Lemma appended_overlays : querySelectorAll d' w NOISE_OVERLAY_CLASS = [o].
Proof.
  destruct appended_fresh as (Ho & Hoi & How).
  destruct (closest_Some_lookup _ _ _ _ Hclosest) as (ew & Hw & _).
  destruct (appended_old w ew Hw) as (ew' & Hw' & _ & _ & _ & Hkids & _).
  rewrite decide_True in Hkids by done.
  unfold querySelectorAll. rewrite appended_size. simpl.
  rewrite Hw', Hkids, bind_app, bind_singleton.
  rewrite (descendants_childless _ d' o _ appended_overlay) by done.
  assert (childNodes ew ≫= (λ c, c :: descendants (size d) d' c)
          = descendants (size d) d w) as ->.
  { rewrite <- (descendants_fuel depth d (size d) 1 w) by (done || lia).
    replace (size d + 1) with (S (size d)) by lia. simpl. rewrite Hw.
    apply bind_agree. intros c Hc. f_equal.
    assert (∀ a, a ∈ c :: descendants (size d) d c →
                 childNodes <$> d' !! a = childNodes <$> d !! a) as Hagree.
    { intros a Ha.
      assert (is_Some (d !! a) ∧ depth w < depth a) as [[e He] Hlt].
      { apply (descendants_deeper depth d (S (size d)) w a Hwf).
        simpl. rewrite Hw. apply list_elem_of_bind. by exists c. }
      destruct (appended_old a e He) as (e' & -> & _ & _ & _ & Hk & _).
      rewrite He. simpl. rewrite Hk.
      rewrite decide_False; [done|]. intros ->. lia. }
    apply descendants_agree.
    - apply Hagree. by left.
    - intros a Ha. apply Hagree. by right. }
  rewrite filter_app.
  assert (filter (λ a, matchesClass d' NOISE_OVERLAY_CLASS a = true)
            (descendants (size d) d w)
          = querySelectorAll d w NOISE_OVERLAY_CLASS) as ->.
  { unfold querySelectorAll. apply filter_agree. intros a Ha.
    destruct (descendants_deeper depth d _ w a Hwf Ha) as [[e He] _].
    destruct (appended_old a e He) as (e' & He' & _ & Hc & _).
    rewrite (matchesClass_agree d d' _ a e e'); [done | done | done |].
    by rewrite Hc. }
  rewrite Hnone. simpl.
  rewrite filter_cons_True; [done|].
  unfold matchesClass. rewrite appended_overlay. simpl. rewrite Hov_class.
  by rewrite bool_decide_eq_true_2 by apply list_elem_of_here.
Qed.

End append_overlay.


(** *** Images ready for an overlay *)

Lemma ready_plain depth d i e :
  wellFormedWith depth d → readyImage d i e →
  closest d NOISE_WRAPPER_CLASS i = None →
  ∃ p ep, plainImage d i e p ep.
Proof.
  intros Hwf [Hl Hld Hplace] Hc. rewrite Hc in Hplace.
  destruct Hplace as (Hp & Hk & Ho).
  destruct (parentNode e) as [p|] eqn:Ep; [|done].
  destruct (Hwf i e Hl) as (_ & Hpo & _). unfold parentOk in Hpo.
  rewrite Ep in Hpo. destruct (d !! p) as [ep|] eqn:Eep; [|done].
  exists p, ep. constructor; try done. intros ->. lia.
Qed.

Lemma setAttribute_same (d : gmap positive element) i ei name value :
  d !! i = Some ei → attributes ei !! name = Some value →
  setAttribute i name value d = d.
Proof.
  intros Hi Ha. unfold setAttribute. apply alter_id.
  intros x Hx. rewrite Hi in Hx. injection Hx as <-.
  rewrite insert_id by done. by destruct ei.
Qed.

(** On a settled image, [doApply] changes nothing. *)
Lemma base_doApply_settled pg i :
  settledImage (nodes pg) i → Base.doApply i pg = pg.
Proof.
  intros (w & o & ei & Hc & Hq & Hi & Ha & _).
  unfold Base.doApply, ensureWrapper. rewrite Hc.
  unfold querySelector. rewrite Hq. simpl.
  rewrite (setAttribute_same _ i ei) by done. apply withNodes_id.
Qed.

Lemma selection_doApply_settled pg i :
  settledImage (nodes pg) i →
  overlayStyled (noisePattern pg) (currentSettings pg) (nodes pg) i →
  Selection.doApply i pg = pg.
Proof.
  intros (w & o & ei & Hc & Hq & Hi & Ha & _) Hst.
  destruct (Hst w o Hc) as (eo & Ho & Heo).
  { unfold querySelector. by rewrite Hq. }
  unfold Selection.doApply, ensureWrapper. rewrite Hc.
  unfold querySelector. rewrite Hq. simpl.
  rewrite (alter_id _ _ o).
  2:{ intros x Hx. rewrite Ho in Hx. by injection Hx as <-. }
  rewrite (setAttribute_same _ i ei) by done. apply withNodes_id.
Qed.

Section first_doApply.
Context (depth : positive → nat) (pg : page) (i : positive) (e : element).
Context (Hwf : wellFormedWith depth (nodes pg))
        (Hready : readyImage (nodes pg) i e).

Lemma base_doApply_ready :
  settledImage (nodes (Base.doApply i pg)) i
  ∧ noisePattern (Base.doApply i pg) = noisePattern pg
  ∧ currentSettings (Base.doApply i pg) = currentSettings pg.
Proof.
  pose proof Hready as [Hl Hld Hplace].
  destruct (closest (nodes pg) NOISE_WRAPPER_CLASS i) as [w|] eqn:Hc.
  - destruct (querySelectorAll (nodes pg) w NOISE_OVERLAY_CLASS)
      as [|o [|o' rest]] eqn:Hq; [| |simpl in Hplace; lia].
    + (* the wrapper has no overlay yet *)
      unfold Base.doApply, ensureWrapper. rewrite Hc.
      unfold querySelector. rewrite Hq. simpl. split; [|done].
      destruct (appended_old (nodes pg) i w
                  (createOverlay (noisePattern pg) (currentSettings pg))
                  (mk_is_Some _ _ Hl) Hc i e Hl)
        as (e' & He' & _ & _ & Hld' & _ & Hattr).
      exists w, (fresh (dom (nodes pg))), e'.
      split; [by apply (appended_closest depth)|].
      split; [by apply (appended_overlays depth)|].
      split; [done|]. split; [|congruence].
      rewrite Hattr, decide_True by done. by rewrite lookup_insert_eq.
    + (* the wrapper has its overlay *)
      unfold Base.doApply, ensureWrapper. rewrite Hc.
      unfold querySelector. rewrite Hq. simpl. split; [|done].
      assert (sameTree (nodes pg)
                (setAttribute i NOISE_APPLIED_ATTR "true" (nodes pg))) as Hs
        by (by apply sameTree_alter).
      exists w, o, (withAttributes
                      (<[NOISE_APPLIED_ATTR := "true"%string]> (attributes e)) e).
      rewrite (closest_ext _ _ _ _ Hs), (querySelectorAll_ext _ _ _ _ Hs).
      split; [done|]. split; [done|]. split.
      { unfold setAttribute. by rewrite lookup_alter_eq, Hl. }
      split; [simpl; by rewrite lookup_insert_eq | done].
  - destruct (ready_plain depth _ i e Hwf Hready Hc) as (p & ep & Hplain).
    destruct (doApply_new _ i e p ep Hplain pg eq_refl) as [-> _].
    simpl. split; [|done].
    eexists _, _, _. split; [by apply appliedTo_closest|].
    split; [by apply appliedTo_overlays|].
    split; [by apply appliedTo_image|].
    split; [simpl; by rewrite lookup_insert_eq | done].
Qed.

Lemma selection_doApply_ready :
  settledImage (nodes (Selection.doApply i pg)) i
  ∧ overlayStyled (noisePattern pg) (currentSettings pg)
      (nodes (Selection.doApply i pg)) i
  ∧ noisePattern (Selection.doApply i pg) = noisePattern pg
  ∧ currentSettings (Selection.doApply i pg) = currentSettings pg.
Proof.
  pose proof Hready as [Hl Hld Hplace].
  destruct (closest (nodes pg) NOISE_WRAPPER_CLASS i) as [w|] eqn:Hc.
  - destruct (querySelectorAll (nodes pg) w NOISE_OVERLAY_CLASS)
      as [|o [|o' rest]] eqn:Hq; [| |simpl in Hplace; lia].
    + unfold Selection.doApply, ensureWrapper. rewrite Hc.
      unfold querySelector. rewrite Hq. simpl.
      destruct (appended_old (nodes pg) i w
                  (createOverlay (noisePattern pg) (currentSettings pg))
                  (mk_is_Some _ _ Hl) Hc i e Hl)
        as (e' & He' & _ & _ & Hld' & _ & Hattr).
      pose proof (appended_closest depth (nodes pg) i w
                    (createOverlay (noisePattern pg) (currentSettings pg))
                    Hwf (mk_is_Some _ _ Hl) Hc) as Hc'.
      pose proof (appended_overlays depth (nodes pg) i w
                    (createOverlay (noisePattern pg) (currentSettings pg))
                    Hwf (mk_is_Some _ _ Hl) Hc Hq eq_refl eq_refl) as Hq'.
      split; [|split; [|done]].
      * exists w, (fresh (dom (nodes pg))), e'.
        split; [done|]. split; [done|]. split; [done|].
        split; [|congruence].
        rewrite Hattr, decide_True by done. by rewrite lookup_insert_eq.
      * intros w2 o2 Hw2 Ho2. rewrite Hc' in Hw2. injection Hw2 as <-.
        unfold querySelector in Ho2. rewrite Hq' in Ho2. injection Ho2 as <-.
        eexists. split; [|shelve].
        apply (appended_overlay (nodes pg) i w _ (mk_is_Some _ _ Hl) Hc).
        Unshelve. done.
    + unfold Selection.doApply, ensureWrapper. rewrite Hc.
      unfold querySelector. rewrite Hq. simpl.
      set (style := applyOverlaySettings (noisePattern pg) (currentSettings pg)).
      assert (sameTree (nodes pg)
                (setAttribute i NOISE_APPLIED_ATTR "true"
                   (alter style o (nodes pg)))) as Hs.
      { eapply sameTree_trans; by apply sameTree_alter. }
      split; [|split; [|done]].
      * set (e1 := if decide (o = i) then style e else e).
        exists w, o, (withAttributes
                        (<[NOISE_APPLIED_ATTR := "true"%string]> (attributes e1))
                        e1).
        rewrite (closest_ext _ _ _ _ Hs), (querySelectorAll_ext _ _ _ _ Hs).
        split; [done|]. split; [done|]. split.
        { unfold setAttribute, e1. rewrite lookup_alter_eq, lookup_alter.
          case_decide as Hoi; [subst o|]; by rewrite Hl. }
        split; [simpl; by rewrite lookup_insert_eq|].
        unfold e1. by case_decide.
      * intros w2 o2 Hw2 Ho2.
        rewrite (closest_ext _ _ _ _ Hs), Hc in Hw2. injection Hw2 as <-.
        unfold querySelector in Ho2.
        rewrite (querySelectorAll_ext _ _ _ _ Hs), Hq in Ho2.
        injection Ho2 as <-.
        assert (is_Some (nodes pg !! o)) as [eo Ho].
        { assert (o ∈ querySelectorAll (nodes pg) w NOISE_OVERLAY_CLASS) as Hin
            by (rewrite Hq; apply list_elem_of_here).
          apply list_elem_of_filter in Hin as [Hm _].
          unfold matchesClass in Hm.
          destruct (nodes pg !! o) as [eo|] eqn:Eo; [by exists eo | discriminate Hm]. }
        unfold setAttribute. rewrite lookup_alter. subst style.
        case_decide as Hio; [subst i|]; rewrite lookup_alter_eq, Ho; simpl;
          eexists; (split; [done|]); done.
  - destruct (ready_plain depth _ i e Hwf Hready Hc) as (p & ep & Hplain).
    destruct (doApply_new _ i e p ep Hplain pg eq_refl) as [_ ->].
    simpl. split; [|split; [|done]].
    + eexists _, _, _. split; [by apply appliedTo_closest|].
      split; [by apply appliedTo_overlays|].
      split; [by apply appliedTo_image|].
      split; [simpl; by rewrite lookup_insert_eq | done].
    + intros w2 o2 Hw2 Ho2.
      rewrite (appliedTo_closest _ i e p ep Hplain) in Hw2.
      injection Hw2 as <-. unfold querySelector in Ho2.
      rewrite (appliedTo_overlays _ i e p ep Hplain) in Ho2.
      injection Ho2 as <-. eexists. split; [by apply appliedTo_overlay|done].
Qed.

End first_doApply.

Lemma sameTree_markLoaded w h i (d : gmap positive element) :
  sameTree d (alter (markLoaded w h) i d).
Proof. by apply sameTree_alter. Qed.

Lemma placed_ready d i e :
  placedImage d i e → loaded e = true → readyImage d i e.
Proof. intros [] ?. by constructor. Qed.

Lemma placed_markLoaded d i e w h l :
  placedImage d i e → (0 < w)%N →
  readyImage (alter (markLoaded w h) i
                (alter (λ e, withLoadListeners (loadListeners e ++ l) e) i d))
    i (markLoaded w h e).
Proof.
  intros [Hl Hplace] Hw.
  assert (sameTree d (alter (markLoaded w h) i
            (alter (λ e, withLoadListeners (loadListeners e ++ l) e) i d)))
    as Hs by (eapply sameTree_trans; by apply sameTree_alter).
  constructor.
  - rewrite !lookup_alter_eq, Hl. done.
  - unfold loaded. simpl. by apply N.ltb_lt.
  - rewrite (closest_ext _ _ _ _ Hs).
    destruct (closest d NOISE_WRAPPER_CLASS i) as [wr|].
    + by rewrite (querySelectorAll_ext _ _ _ _ Hs).
    + done.
Qed.

(** Applying noise [k] times to an image that is still loading registers
    [k] callbacks and changes nothing else. *)
Lemma base_applyNoise_while_loading pg i e k :
  nodes pg !! i = Some e → loaded e = false →
  attributes e !! NOISE_APPLIED_ATTR ≠ Some "true"%string →
  Nat.iter k (Base.applyNoise i) pg
  = withNodes
      (alter (λ e, withLoadListeners
                     (loadListeners e ++ replicate k ApplyOnLoad) e) i
             (nodes pg)) pg.
Proof.
  intros Hl Hld Ha. induction k as [|k IH].
  - simpl. rewrite alter_id; [by rewrite withNodes_id|].
    intros x _. rewrite app_nil_r. by destruct x.
  - change (Nat.iter (S k) (Base.applyNoise i) pg)
      with (Base.applyNoise i (Nat.iter k (Base.applyNoise i) pg)).
    rewrite IH. unfold Base.applyNoise at 1. simpl nodes.
    rewrite lookup_alter_eq, Hl. simpl.
    rewrite bool_decide_eq_false_2 by done.
    assert (loaded (withLoadListeners
                      (loadListeners e ++ replicate k ApplyOnLoad) e) = false)
      as -> by done.
    unfold addLoadListener, withNodes. simpl. f_equal.
    rewrite alter_alter_eq. apply alter_ext. intros x _. simpl.
    rewrite <- app_assoc, <- replicate_cons_app. by destruct x.
Qed.

Lemma selection_applyNoise_while_loading pg i e k :
  nodes pg !! i = Some e → loaded e = false →
  Nat.iter k (Selection.applyNoise i) pg
  = withNodes
      (alter (λ e, withLoadListeners
                     (loadListeners e ++ replicate k ApplyOnLoad) e) i
             (nodes pg)) pg.
Proof.
  intros Hl Hld. induction k as [|k IH].
  - simpl. rewrite alter_id; [by rewrite withNodes_id|].
    intros x _. rewrite app_nil_r. by destruct x.
  - change (Nat.iter (S k) (Selection.applyNoise i) pg)
      with (Selection.applyNoise i (Nat.iter k (Selection.applyNoise i) pg)).
    rewrite IH. unfold Selection.applyNoise at 1. simpl nodes.
    rewrite lookup_alter_eq, Hl. simpl.
    assert (loaded (withLoadListeners
                      (loadListeners e ++ replicate k ApplyOnLoad) e) = false)
      as -> by done.
    unfold addLoadListener, withNodes. simpl. f_equal.
    rewrite alter_alter_eq. apply alter_ext. intros x _. simpl.
    rewrite <- app_assoc, <- replicate_cons_app. by destruct x.
Qed.


(** The listeners of one [load] event, for a [doApply] that changes
    nothing when repeated. *)
Lemma foldl_apply_listeners (f : page → page) l p0 :
  f (f p0) = f p0 → ApplyOnLoad ∈ l →
  foldl (λ p l, match l with ApplyOnLoad => f p | ExportOnLoad _ => p end) p0 l
  = f p0.
Proof.
  intros Hf.
  assert (∀ l', foldl (λ p l, match l with
                              | ApplyOnLoad => f p
                              | ExportOnLoad _ => p
                              end) (f p0) l' = f p0) as Hfix.
  { induction l' as [|x l' IH]; [done|]. simpl. destruct x; by rewrite ?Hf. }
  induction l as [|x l IH]; intros Hin; [by apply elem_of_nil in Hin|].
  simpl. destruct x.
  - apply Hfix.
  - apply IH. by apply elem_of_cons in Hin as [?|?].
Qed.

Lemma withNodes_withNodes d d' pg :
  withNodes d (withNodes d' pg) = withNodes d pg.
Proof. done. Qed.

Section deferred.
Context (depth : positive → nat) (pg : page) (i : positive) (e : element)
        (k : nat) (w h : N).
Context (Hwf : wellFormedWith depth (nodes pg))
        (Hplaced : placedImage (nodes pg) i e)
        (Hloading : loaded e = false)
        (Hw : (0 < w)%N).

Let listening : gmap positive element :=
  alter (λ e, withLoadListeners
                (loadListeners e ++ replicate (S k) ApplyOnLoad) e) i
        (nodes pg).
Let arrived : page := withNodes (alter (markLoaded w h) i listening) pg.

Lemma arrived_ready :
  wellFormedWith depth (nodes arrived)
  ∧ readyImage (nodes arrived) i (markLoaded w h e).
Proof.
  split.
  - apply (wellFormedWith_sameTree depth (nodes pg)); [done|].
    eapply sameTree_trans; by apply sameTree_alter.
  - by apply placed_markLoaded.
Qed.

Lemma pending_listeners :
  ApplyOnLoad ∈ (loadListeners e ++ replicate (S k) ApplyOnLoad)%list.
Proof. apply elem_of_app. right. simpl. apply list_elem_of_here. Qed.

Lemma base_fireLoad_loading :
  attributes e !! NOISE_APPLIED_ATTR ≠ Some "true"%string →
  settledImage
    (nodes (Base.fireLoad i w h (Nat.iter (S k) (Base.applyNoise i) pg))) i.
Proof.
  intros Ha. destruct Hplaced as [Hl _]. destruct arrived_ready as [Hwf' Hr].
  rewrite (base_applyNoise_while_loading pg i e) by done.
  unfold Base.fireLoad. simpl nodes. rewrite lookup_alter_eq, Hl. simpl.
  destruct (base_doApply_ready depth arrived i _ Hwf' Hr) as (Hs & _).
  change (foldl _ _ _) with
    (foldl (λ p l, match l with
                   | ApplyOnLoad => Base.doApply i p
                   | ExportOnLoad _ => p
                   end) arrived
           (loadListeners e ++ ApplyOnLoad :: replicate k ApplyOnLoad)).
  rewrite foldl_apply_listeners; [done | | apply pending_listeners].
  by apply base_doApply_settled.
Qed.

Lemma selection_fireLoad_loading ev st :
  Selection.pg st = Nat.iter (S k) (Selection.applyNoise i) pg →
  settledImage (nodes (Selection.pg (Selection.fireLoad ev i w h st).1)) i.
Proof.
  intros Hst. destruct Hplaced as [Hl _]. destruct arrived_ready as [Hwf' Hr].
  rewrite (selection_applyNoise_while_loading pg i e) in Hst by done.
  unfold Selection.fireLoad. rewrite Hst. simpl nodes.
  rewrite lookup_alter_eq, Hl. simpl.
  destruct (selection_doApply_ready depth arrived i _ Hwf' Hr)
    as (Hs & Hsty & Hpat & Hcs).
  assert (∀ l acc,
            Selection.pg
              (foldl (λ acc l, Selection.runListener ev i l acc) acc l).1
            = foldl (λ p l, match l with
                            | ApplyOnLoad => Selection.doApply i p
                            | ExportOnLoad _ => p
                            end) (Selection.pg acc.1) l) as Hfold.
  { induction l as [|x l IH]; intros acc; [done|].
    simpl. rewrite IH. by destruct x. }
  rewrite Hfold. unfold Selection.withDom, Selection.withPage.
  simpl Selection.pg. rewrite Hst.
  change (withNodes _ (withNodes _ pg)) with arrived.
  rewrite foldl_apply_listeners; [done | | apply pending_listeners].
  apply selection_doApply_settled; [done|]. by rewrite Hpat, Hcs.
Qed.

End deferred.

Lemma settled_oneOverlay d i : settledImage d i → oneOverlay d i.
Proof.
  intros (w & o & ei & Hc & Hq & Hi & Ha & _). exists w, o.
  split; [done|]. split; [done|]. unfold getAttribute. by rewrite Hi.
Qed.

Lemma base_applyNoise_ready depth pg i e :
  wellFormedWith depth (nodes pg) → readyImage (nodes pg) i e →
  attributes e !! NOISE_APPLIED_ATTR ≠ Some "true"%string →
  Base.applyNoise i pg = Base.doApply i pg
  ∧ Base.applyNoise i (Base.doApply i pg) = Base.doApply i pg
  ∧ settledImage (nodes (Base.doApply i pg)) i.
Proof.
  intros Hwf Hready Ha.
  destruct (base_doApply_ready depth pg i e Hwf Hready) as (Hs & _).
  split; [|split; [|done]].
  - destruct Hready as [Hl Hld _]. unfold Base.applyNoise.
    rewrite Hl, Hld. by rewrite bool_decide_eq_false_2.
  - destruct Hs as (w & o & ei & _ & _ & Hi & Hattr & _).
    by apply (base_applyNoise_marked _ i ei).
Qed.

Lemma selection_applyNoise_ready depth pg i e :
  wellFormedWith depth (nodes pg) → readyImage (nodes pg) i e →
  Selection.applyNoise i pg = Selection.doApply i pg
  ∧ Selection.applyNoise i (Selection.doApply i pg) = Selection.doApply i pg
  ∧ settledImage (nodes (Selection.doApply i pg)) i.
Proof.
  intros Hwf Hready.
  destruct (selection_doApply_ready depth pg i e Hwf Hready)
    as (Hs & Hst & Hpat & Hcs).
  split; [|split; [|done]].
  - destruct Hready as [Hl Hld _]. unfold Selection.applyNoise.
    by rewrite Hl, Hld.
  - pose proof Hs as (w & o & ei & _ & _ & Hi & _ & Hld).
    unfold Selection.applyNoise. rewrite Hi, Hld.
    apply selection_doApply_settled; [done|]. by rewrite Hpat, Hcs.
Qed.

(** C1 (as amended).  In a well-formed document, take an image that
    either sits in a wrapper holding at most one overlay, or has no
    wrapper yet and is the child of an element (an image without children,
    not carrying the overlay class).
    - If the image has finished loading, applying noise to it once or
      more leaves exactly one overlay inside its wrapper and the image
      marked processed, and every application after the first leaves the
      page as it is: in the page-wide script for an image not yet marked,
      and in the selection script.
    - The page-wide script skips every image that is marked processed.
    - If the image is still loading, the applications only register
      [load] callbacks; when the [load] event arrives (with a positive
      natural width) the image gets its wrapper, again with exactly one
      overlay, however many applications there were. *)
Theorem applyNoise_idempotent (pg : page) (i : positive) (e : element)
    (n : nat) :
  wellFormed (nodes pg) → placedImage (nodes pg) i e →
  (loaded e = true →
     (attributes e !! NOISE_APPLIED_ATTR ≠ Some "true"%string →
        Nat.iter (S n) (Base.applyNoise i) pg = Base.applyNoise i pg
        ∧ oneOverlay (nodes (Base.applyNoise i pg)) i)
     ∧ (Nat.iter (S n) (Selection.applyNoise i) pg = Selection.applyNoise i pg
        ∧ oneOverlay (nodes (Selection.applyNoise i pg)) i))
  ∧ (∀ pg' e', nodes pg' !! i = Some e' →
       attributes e' !! NOISE_APPLIED_ATTR = Some "true"%string →
       Base.applyNoise i pg' = pg')
  ∧ (loaded e = false →
     attributes e !! NOISE_APPLIED_ATTR ≠ Some "true"%string →
     let listening :=
       withNodes
         (alter (λ e, withLoadListeners
                        (loadListeners e ++ replicate (S n) ApplyOnLoad) e) i
                (nodes pg)) pg in
     Nat.iter (S n) (Base.applyNoise i) pg = listening
     ∧ Nat.iter (S n) (Selection.applyNoise i) pg = listening
     ∧ ∀ w h, (0 < w)%N →
         oneOverlay (nodes (Base.fireLoad i w h listening)) i
         ∧ ∀ ev st, Selection.pg st = listening →
             oneOverlay
               (nodes (Selection.pg (Selection.fireLoad ev i w h st).1)) i).
Proof.
  intros [depth Hwf] Hplaced. split; [|split].
  - intros Hld. pose proof (placed_ready _ _ _ Hplaced Hld) as Hready. split.
    + intros Ha.
      destruct (base_applyNoise_ready depth pg i e Hwf Hready Ha)
        as (Heq & Hagain & Hs).
      split.
      * apply iter_idempotent. by rewrite Heq.
      * rewrite Heq. by apply settled_oneOverlay.
    + destruct (selection_applyNoise_ready depth pg i e Hwf Hready)
        as (Heq & Hagain & Hs).
      split.
      * apply iter_idempotent. by rewrite Heq.
      * rewrite Heq. by apply settled_oneOverlay.
  - intros pg' e'. apply base_applyNoise_marked.
  - intros Hld Ha listening. pose proof Hplaced as [Hl _].
    pose proof (base_applyNoise_while_loading pg i e (S n) Hl Hld Ha) as Hb.
    pose proof (selection_applyNoise_while_loading pg i e (S n) Hl Hld) as Hs.
    split; [exact Hb|]. split; [exact Hs|].
    intros w h Hw. split.
    + apply settled_oneOverlay. unfold listening. rewrite <- Hb.
      by apply (base_fireLoad_loading depth pg i e n w h).
    + intros ev st Hst. apply settled_oneOverlay.
      apply (selection_fireLoad_loading depth pg i e n w h); try done.
      by rewrite Hs.
Qed.

Lemma sample_wellFormed : wellFormed Sample.document.
Proof.
  exists Sample.depth. unfold wellFormedWith, Sample.document.
  repeat (apply map_Forall_insert_2;
          [vm_compute; repeat split; try lia; repeat constructor;
           try (apply list_elem_of_In; simpl; tauto)|]).
  apply map_Forall_empty.
Qed.

Lemma sample_placed3 :
  placedImage Sample.document 3 (Sample.image 2 true 640 480).
Proof.
  constructor; [reflexivity |].
  replace (closest Sample.document NOISE_WRAPPER_CLASS 3) with (@None positive)
    by (vm_compute; reflexivity).
  split; [discriminate|]. split; [reflexivity | apply not_elem_of_nil].
Qed.

Lemma applyNoise_idempotent_witness :
  Nat.iter 3 (Base.applyNoise 3) Sample.page0 = Base.applyNoise 3 Sample.page0
  ∧ oneOverlay (nodes (Base.applyNoise 3 Sample.page0)) 3.
Proof.
  refine (proj1 (proj1 (applyNoise_idempotent Sample.page0 3
                          (Sample.image 2 true 640 480) 2
                          sample_wellFormed sample_placed3) _) _).
  - reflexivity.
  - vm_compute. discriminate.
Defined.

(** C1 as stated fails for an image that is still loading: after two
    applications, in either script, the image has no wrapper and the
    document holds no overlay. *)
Lemma applyNoise_loading_image_no_overlay :
  let pg2 := Base.applyNoise 5 (Base.applyNoise 5 Sample.page0) in
  let sel2 := Selection.applyNoise 5 (Selection.applyNoise 5 Sample.page0) in
  closest (nodes pg2) NOISE_WRAPPER_CLASS 5 = None
  ∧ documentQuerySelectorAll (nodes pg2) (documentElement pg2)
      NOISE_OVERLAY_CLASS = []
  ∧ closest (nodes sel2) NOISE_WRAPPER_CLASS 5 = None
  ∧ documentQuerySelectorAll (nodes sel2) (documentElement sel2)
      NOISE_OVERLAY_CLASS = [].
Proof. by vm_compute. Qed.

End OverlayFacts.

(** ** Refreshing the overlays *)

Module RefreshFacts.

Import DomFacts.

Lemma applyOverlaySettings_idempotent pattern s e :
  applyOverlaySettings pattern s (applyOverlaySettings pattern s e)
  = applyOverlaySettings pattern s e.
Proof. done. Qed.

Lemma applyOverlaySettings_withoutStyle pattern s e :
  withoutStyle (applyOverlaySettings pattern s e) = withoutStyle e.
Proof. done. Qed.

Lemma foldl_alter_lookup (f : element → element) l
    (d : gmap positive element) n :
  (∀ e, f (f e) = f e) →
  foldl (λ d o, alter f o d) d l !! n
  = if bool_decide (n ∈ l) then f <$> d !! n else d !! n.
Proof.
  intros Hf. revert d. induction l as [|o l IH]; intros d.
  { by rewrite bool_decide_eq_false_2 by apply not_elem_of_nil. }
  simpl foldl. rewrite IH. destruct (decide (n = o)) as [->|Hne].
  - rewrite lookup_alter_eq.
    rewrite (bool_decide_eq_true_2 (o ∈ o :: l)) by apply list_elem_of_here.
    case_bool_decide; [|done].
    destruct (d !! o); simpl; [|done]. by rewrite Hf.
  - rewrite lookup_alter_ne by done.
    apply (f_equal (λ b : bool, if b then f <$> d !! n else d !! n)).
    apply bool_decide_ext. rewrite elem_of_cons.
    split; [by right | by intros [?|?]].
Qed.

Lemma refreshAllOverlays_lookup pg n :
  nodes (refreshAllOverlays pg) !! n
  = if bool_decide (n ∈ documentQuerySelectorAll (nodes pg)
                          (documentElement pg) NOISE_OVERLAY_CLASS)
    then applyOverlaySettings (noisePattern pg) (currentSettings pg)
           <$> nodes pg !! n
    else nodes pg !! n.
Proof.
  unfold refreshAllOverlays. simpl.
  apply foldl_alter_lookup. intros e. apply applyOverlaySettings_idempotent.
Qed.

Lemma refreshAllOverlays_sameTree pg :
  sameTree (nodes pg) (nodes (refreshAllOverlays pg)).
Proof.
  intros a. rewrite refreshAllOverlays_lookup.
  case_bool_decide; [|done]. by destruct (nodes pg !! a).
Qed.

(** C9 (as amended).  [refreshAllOverlays] changes nothing but the
    background image and the opacity of the overlay elements of the
    document: these two style properties are set from the current texture
    and intensity; every other property of every node, the set of nodes,
    the tree that [closest] and [querySelectorAll] read, and the page
    variables are as before. *)
Theorem refreshAllOverlays_frame (pg : page) :
  let pg' := refreshAllOverlays pg in
  (documentElement pg' = documentElement pg ∧ body pg' = body pg
   ∧ currentSettings pg' = currentSettings pg
   ∧ noisePattern pg' = noisePattern pg)
  ∧ (∀ n, withoutStyle <$> nodes pg' !! n = withoutStyle <$> nodes pg !! n)
  ∧ (∀ n, n ∈ documentQuerySelectorAll (nodes pg) (documentElement pg)
               NOISE_OVERLAY_CLASS →
          nodes pg' !! n
          = applyOverlaySettings (noisePattern pg) (currentSettings pg)
              <$> nodes pg !! n)
  ∧ (∀ n, n ∉ documentQuerySelectorAll (nodes pg) (documentElement pg)
               NOISE_OVERLAY_CLASS →
          nodes pg' !! n = nodes pg !! n)
  ∧ (∀ n cls, closest (nodes pg') cls n = closest (nodes pg) cls n
              ∧ querySelectorAll (nodes pg') n cls
                = querySelectorAll (nodes pg) n cls).
Proof.
  intros pg'. split; [done|]. split; [|split; [|split]].
  - intros n. unfold pg'. rewrite refreshAllOverlays_lookup.
    case_bool_decide; [|done]. by destruct (nodes pg !! n).
  - intros n Hn. unfold pg'. rewrite refreshAllOverlays_lookup.
    by rewrite bool_decide_eq_true_2.
  - intros n Hn. unfold pg'. rewrite refreshAllOverlays_lookup.
    by rewrite bool_decide_eq_false_2.
  - intros n cls. pose proof (refreshAllOverlays_sameTree pg) as H. split.
    + by apply closest_ext.
    + by apply querySelectorAll_ext.
Qed.

Lemma refreshAllOverlays_frame_witness :
  nodes (refreshAllOverlays Sample.page3_changed) !! 7%positive
  = applyOverlaySettings (noisePattern Sample.page3_changed)
      (currentSettings Sample.page3_changed)
      <$> nodes Sample.page3_changed !! 7%positive
  ∧ nodes (refreshAllOverlays Sample.page3_changed) !! 3%positive
    = nodes Sample.page3_changed !! 3%positive.
Proof.
  destruct (refreshAllOverlays_frame Sample.page3_changed)
    as (_ & _ & Hin & Hout & _).
  split.
  - apply Hin. vm_compute. apply list_elem_of_here.
  - apply Hout. vm_compute. intros [?|[]%elem_of_nil]%elem_of_cons. done.
Defined.

(** C9 as stated fails: the refresh also rewrites the opacity.  After the
    intensity has changed from 20 to 50, the overlay's opacity goes from
    ["0.2"] to ["0.5"]. *)
Lemma refreshAllOverlays_changes_opacity :
  opacity <$> nodes Sample.page3_changed !! 7%positive = Some "0.2"
  ∧ opacity <$> nodes (refreshAllOverlays Sample.page3_changed) !! 7%positive
    = Some "0.5".
Proof. by vm_compute. Qed.

End RefreshFacts.

(** ** Selecting one image, then another *)

Module TwoSelections.

Import DomFacts OverlayFacts.
Import Selection.
Local Open Scope nat_scope.

Lemma addClass_mem cls e c :
  c ∈ className (addClass cls e) ↔ c = cls ∨ c ∈ className e.
Proof.
  unfold addClass. case_bool_decide as Hin; simpl.
  - split; [by right | by intros [->|?]].
  - rewrite elem_of_app, list_elem_of_singleton. tauto.
Qed.

Lemma removeClass_mem cls e c :
  c ∈ className (removeClass cls e) ↔ c ≠ cls ∧ c ∈ className e.
Proof. unfold removeClass. simpl. by rewrite list_elem_of_filter. Qed.

Lemma appliedTo_overlaid d i e p ep pattern s :
  plainImage d i e p ep →
  overlaid (appliedTo d i e p ep pattern s) i (fresh (dom d))
    (fresh (dom (wrapInto d i e p ep)))
    (withAttributes (<[NOISE_APPLIED_ATTR := "true"%string]> (attributes e))
       (withParentNode (Some (fresh (dom d))) e))
    (withChildNodes [i; fresh (dom (wrapInto d i e p ep))] (wrapperOf p i))
    (withParentNode (Some (fresh (dom d))) (createOverlay pattern s)).
Proof.
  intros Hplain.
  destruct (wrapper_fresh d i e p ep Hplain) as (Hw & Hwi & Hwp).
  destruct (overlay_fresh d i e p ep Hplain) as (Ho & How & Hoi & Hop).
  pose proof Hplain as [].
  constructor; try done.
  - by apply appliedTo_image.
  - simpl. by eapply closest_None_self.
  - by apply appliedTo_wrapper.
  - simpl. apply list_elem_of_here.
  - by apply appliedTo_overlay.
  - simpl. apply list_elem_of_here.
Qed.

(** [removeOverlay] on an overlaid image detaches the overlay and clears
    the marker. *)
Lemma removeOverlay_overlaid d i w o ei ew eo :
  overlaid d i w o ei ew eo →
  removeOverlay i d
  = <[i := withAttributes (delete NOISE_APPLIED_ATTR (attributes ei)) ei]>
      (<[o := withParentNode None eo]>
         (<[w := withChildNodes [i] ew]> d)).
Proof.
  intros []. unfold removeOverlay.
  rewrite (closest_wrapped d _ i ei w ew) by done.
  unfold querySelector.
  rewrite (querySelectorAll_pair d _ w ew i ei o eo) by done. simpl.
  unfold removeNode, removeAttribute. rewrite ov_overlay0. simpl.
  rewrite ov_overlay_parent0.
  apply map_eq. intros a.
  destruct (decide (a = i)) as [->|Hai].
  { rewrite lookup_alter_eq, lookup_insert_eq.
    rewrite !lookup_alter_ne by done. by rewrite ov_image0. }
  rewrite lookup_alter_ne, (lookup_insert_ne _ i a) by done.
  destruct (decide (a = o)) as [->|Hao].
  { rewrite lookup_alter_eq, lookup_insert_eq.
    rewrite lookup_alter_ne by done. by rewrite ov_overlay0. }
  rewrite lookup_alter_ne, (lookup_insert_ne _ o a) by done.
  destruct (decide (a = w)) as [->|Haw].
  { rewrite lookup_alter_eq, lookup_insert_eq, ov_wrapper0. simpl.
    rewrite ov_wrapper_children0. unfold withoutChild.
    rewrite filter_cons_True by done.
    rewrite filter_cons_False by (intros H; by apply H). done. }
  by rewrite lookup_alter_ne, lookup_insert_ne by done.
Qed.


Lemma addClass_fields cls e :
  parentNode (addClass cls e) = parentNode e
  ∧ childNodes (addClass cls e) = childNodes e
  ∧ loaded (addClass cls e) = loaded e
  ∧ attributes (addClass cls e) = attributes e.
Proof. unfold addClass. by case_bool_decide. Qed.

Lemma classListAdd_eq (d : gmap positive element) i e cls :
  d !! i = Some e → classListAdd i cls d = <[i := addClass cls e]> d.
Proof.
  intros He. unfold classListAdd.
  apply map_eq. intros a. destruct (decide (a = i)) as [->|Hne].
  - by rewrite lookup_alter_eq, lookup_insert_eq, He.
  - by rewrite lookup_alter_ne, lookup_insert_ne.
Qed.

Lemma classListRemove_eq (d : gmap positive element) i e cls :
  d !! i = Some e → classListRemove i cls d = <[i := removeClass cls e]> d.
Proof.
  intros He. unfold classListRemove.
  apply map_eq. intros a. destruct (decide (a = i)) as [->|Hne].
  - by rewrite lookup_alter_eq, lookup_insert_eq, He.
  - by rewrite lookup_alter_ne, lookup_insert_ne.
Qed.



Lemma overlaid_removeClass d i w o ei ew eo :
  overlaid d i w o ei ew eo →
  overlaid (<[i := removeClass SELECTED_CLASS ei]> d) i w o
    (removeClass SELECTED_CLASS ei) ew eo.
Proof.
  intros []. constructor; try done.
  - by rewrite lookup_insert_eq.
  - rewrite removeClass_mem. tauto.
  - rewrite removeClass_mem. tauto.
  - by rewrite lookup_insert_ne.
  - by rewrite lookup_insert_ne.
Qed.


Section select_two.
Context (st : state) (depth : positive → nat) (A B : positive)
        (eA eB : element) (pA pB : positive) (epA epB : element).
Context (Hwf : wellFormedWith depth (nodes (pg st)))
        (Hnone : selectedImage st = None)
        (HAB : A ≠ B)
        (HA : plainImage (nodes (pg st)) A eA pA epA)
        (HB : plainImage (nodes (pg st)) B eB pB epB).

Let d := nodes (pg st).
Let pat := noisePattern (pg st).
Let cs := currentSettings (pg st).

(** After the first selection. *)
Let eA1 := addClass SELECTED_CLASS eA.
Let dA := <[A := eA1]> d.
Let wA := fresh (dom dA).
Let oA := fresh (dom (wrapInto dA A eA1 pA epA)).
Let D1 := appliedTo dA A eA1 pA epA pat cs.
Let eA2 :=
  withAttributes (<[NOISE_APPLIED_ATTR := "true"%string]> (attributes eA1))
    (withParentNode (Some wA) eA1).
Let st1 :=
  notifySelectionChanged
    (State (withNodes D1 (pg st)) (Some A) (selectionModeEnabled st)
           (runtimeSendMessage st) (sent st)).




(** The deselected image. *)
Let eA3 :=
  withAttributes (delete NOISE_APPLIED_ATTR
                    (attributes (removeClass SELECTED_CLASS eA2)))
    (removeClass SELECTED_CLASS eA2).
Let ewA := withChildNodes [A] (withChildNodes [A; oA] (wrapperOf pA A)).
Let eoA := withParentNode None (withParentNode (Some wA) (createOverlay pat cs)).
Let dDeselected :=
  <[A := eA3]>
    (<[oA := eoA]>
       (<[wA := ewA]> (<[A := removeClass SELECTED_CLASS eA2]> D1))).




(** The store in which the second image is selected. *)
Let eB1 := addClass SELECTED_CLASS eB.
Let dB := <[B := eB1]> dDeselected.
Let epA1 :=
  withChildNodes (withoutChild A (insertBeforeRef wA A (childNodes epA))) epA.







Let epB1 := if decide (pB = pA) then epA1 else epB.


Let D2 := appliedTo dB B eB1 pB epB1 pat cs.
Let st2 :=
  notifySelectionChanged
    (State (withNodes D2 (pg st)) (Some B) (selectionModeEnabled st)
           (runtimeSendMessage st) (sent st1)).














End select_two.



(** A remark on an image that is selected while it is still loading: its
    pending [load] callback is not withdrawn when another image is
    selected.  Image 5 is selected, then image 4; when image 5 finishes
    loading it is wrapped, overlaid (overlay 9, next to overlay 7 of image
    4) and marked, although image 4 is the selection. *)
Lemma deselected_image_overlaid_on_load :
  let st :=
    (fireLoad (ExportEnv true (Encoded "data:,") 0) 5 100 100
       (selectImage 4 (selectImage 5 Sample.state0))).1 in
  selectedImage st = Some 4%positive
  ∧ documentQuerySelectorAll (nodes (pg st)) (documentElement (pg st))
      NOISE_OVERLAY_CLASS = [7%positive; 9%positive]
  ∧ closest (nodes (pg st)) NOISE_WRAPPER_CLASS 5 = Some 8%positive
  ∧ querySelectorAll (nodes (pg st)) 8 NOISE_OVERLAY_CLASS = [9%positive]
  ∧ getAttribute (nodes (pg st)) 5 NOISE_APPLIED_ATTR = Some "true"%string.
Proof. by vm_compute. Qed.




End TwoSelections.

(** ** Selection and export *)

Module SelectionFacts.

Import OverlayFacts.
Import Selection.

Lemma withDom_id (st : state) : withDom (nodes (pg st)) st = st.
Proof. destruct st as [p ? ? ? ?]. unfold withDom, withPage. simpl.
  by rewrite withNodes_id. Qed.

(** C10.  Selecting the image that is already selected changes nothing:
    the document (overlays, classes, markers), the selection, the
    selection mode and the list of messages sent stay as they are. *)
Theorem selectImage_same_is_noop (image : positive) (st : state) :
  selectedImage st = Some image → selectImage image st = st.
Proof.
  intros H. unfold selectImage.
  by rewrite bool_decide_eq_true_2.
Qed.

Lemma selectImage_same_witness :
  selectImage 3 Sample.state3 = Sample.state3.
Proof.
  apply (selectImage_same_is_noop 3 Sample.state3). vm_compute. reflexivity.
Defined.

(** *** Export failures *)

Lemma onMessage_generate ev payload st i :
  selectedImage st = Some i →
  onMessage ev (ANI_GENERATE_NOISY_IMAGE payload) st
  = let '(r, d) := generateNoisyDataUrl (Some i) (exportSettings payload st)
                     (export ev) (nodes (pg st)) in
    (withDom d st, exportResponse (export ev) r).
Proof. intros H. unfold onMessage. by rewrite H. Qed.

Lemma generate_no_size i e s ev d :
  d !! i = Some e → (naturalWidth e = 0 ∨ naturalHeight e = 0)%N →
  generateNoisyDataUrl (Some i) s ev d = (Rejected MSG_NO_SIZE, d).
Proof.
  intros He Hz. unfold generateNoisyDataUrl. simpl. rewrite He. simpl.
  destruct Hz as [-> | ->]; [done|].
  by rewrite orb_true_r.
Qed.

Lemma generate_no_context i e s ev d :
  d !! i = Some e → naturalWidth e ≠ 0%N → naturalHeight e ≠ 0%N →
  context2d ev = false →
  generateNoisyDataUrl (Some i) s ev d = (Rejected MSG_NO_CONTEXT, d).
Proof.
  intros He Hw Hh Hc. unfold generateNoisyDataUrl. simpl. rewrite He. simpl.
  apply N.eqb_neq in Hw, Hh. by rewrite Hw, Hh, Hc.
Qed.

Lemma generate_finalize i e s ev d :
  d !! i = Some e → naturalWidth e ≠ 0%N → naturalHeight e ≠ 0%N →
  context2d ev = true → complete e = true →
  generateNoisyDataUrl (Some i) s ev d = (finalize ev, d).
Proof.
  intros He Hw Hh Hc Hl. unfold generateNoisyDataUrl. simpl. rewrite He. simpl.
  assert (loaded e = true) as ->.
  { unfold loaded. rewrite Hl. simpl. apply N.ltb_lt. lia. }
  apply N.eqb_neq in Hw, Hh. by rewrite Hw, Hh, Hc.
Qed.

Lemma generate_pending i e s ev d :
  d !! i = Some e → naturalWidth e ≠ 0%N → naturalHeight e ≠ 0%N →
  context2d ev = true → complete e = false →
  generateNoisyDataUrl (Some i) s ev d
  = (Pending, addLoadListener i (ExportOnLoad s) d).
Proof.
  intros He Hw Hh Hc Hl. unfold generateNoisyDataUrl. simpl. rewrite He. simpl.
  assert (loaded e = false) as ->.
  { unfold loaded. by rewrite Hl. }
  apply N.eqb_neq in Hw, Hh. by rewrite Hw, Hh, Hc.
Qed.





(** *** A failed export leaves the state alone *)

Lemma generate_rejected_dom image s ev d m d' :
  generateNoisyDataUrl image s ev d = (Rejected m, d') → d' = d.
Proof.
  unfold generateNoisyDataUrl.
  destruct (image ≫= _) as [[i e]|]; [|by intros [= _ <-]].
  repeat case_match; try (by intros [= _ <-]); by intros [= ].
Qed.

Lemma alter_loaded_after_listener i l w h (d : gmap positive element) :
  alter (λ e, withLoadListeners [] (withLoaded w h e)) i (addLoadListener i l d)
  = alter (λ e, withLoadListeners [] (withLoaded w h e)) i d.
Proof.
  unfold addLoadListener. rewrite alter_alter_eq.
  apply map_eq. intros j. rewrite !lookup_alter.
  case_decide; [|done]. by destruct (d !! i).
Qed.

(** C7.  When the response to an export request is an error, the state
    after the request is the state before it, so the selection is kept
    and every later run of events proceeds as from the state before.  When
    the export had to wait for the image's [load] event, that event
    leaves the state it would have left without the export, and only
    adds the export's response. *)
Theorem failed_export_keeps_state (ev : env)
    (payload : option (gmap string jsval)) (st : state) :
  (∀ st' err,
     onMessage ev (ANI_GENERATE_NOISY_IMAGE payload) st = (st', [RespError err]) →
     st' = st
     ∧ selectedImage st' = selectedImage st
     ∧ ∀ events, run events st' = run events st)
  ∧ (∀ i e s xev w h,
       nodes (pg st) !! i = Some e →
       let waiting :=
         withDom (addLoadListener i (ExportOnLoad s) (nodes (pg st))) st in
       fireLoad xev i w h waiting
       = ((fireLoad xev i w h st).1,
          ((fireLoad xev i w h st).2 ++ exportResponse xev (finalize xev))%list)).
Proof.
  split.
  - intros st' err H.
    assert (st' = st) as ->; [|done].
    unfold onMessage in H.
    destruct (selectedImage st) as [i|] eqn:Hsel; [|by injection H as <-].
    destruct (generateNoisyDataUrl _ _ _ _) as [r d] eqn:Hg.
    injection H as <- Hr.
    destruct r as [u|m|]; simpl in Hr; try done.
    apply generate_rejected_dom in Hg as ->. apply withDom_id.
  - intros i e s xev w h He waiting.
    unfold fireLoad, waiting. simpl.
    unfold addLoadListener at 1. rewrite lookup_alter_eq, He. simpl.
    replace (withDom _ (withDom _ st))
      with (withDom (alter (λ e, withLoadListeners [] (withLoaded w h e)) i
                       (nodes (pg st))) st).
    2:{ unfold withDom, withPage, withNodes. simpl.
        by rewrite alter_loaded_after_listener. }
    by rewrite foldl_app.
Qed.

Lemma failed_export_witness :
  run [Click 4; Message (Env "" (ExportEnv true (Encoded "data:,") 7))
                  ANI_GET_SELECTION_STATE]
      (onMessage (Env "" (ExportEnv false (Encoded "data:,") 0))
         (ANI_GENERATE_NOISY_IMAGE None) Sample.state3).1
  = run [Click 4; Message (Env "" (ExportEnv true (Encoded "data:,") 7))
                    ANI_GET_SELECTION_STATE]
        Sample.state3.
Proof.
  pose proof (proj1 (failed_export_keeps_state
                       (Env "" (ExportEnv false (Encoded "data:,") 0))
                       None Sample.state3)) as H.
  destruct (H (onMessage (Env "" (ExportEnv false (Encoded "data:,") 0))
                 (ANI_GENERATE_NOISY_IMAGE None) Sample.state3).1
              MSG_NO_CONTEXT) as (_ & _ & H').
  - by vm_compute.
  - apply H'.
Defined.

End SelectionFacts.

(** ** More on the settings *)

Module SettingsMore.

Import NumberFacts SettingsFacts.

Lemma getProp_asObject_noiseType s :
  getProp (asObject s) "noiseType" = JString (noiseType s).
Proof. unfold asObject, getProp. by rewrite lookup_insert_eq. Qed.

Lemma getProp_asObject_intensity s :
  getProp (asObject s) "intensity" = JNumber (intensity s).
Proof.
  unfold asObject, getProp.
  rewrite lookup_insert_ne by done. by rewrite lookup_insert_eq.
Qed.

Lemma supportedNoiseType_Some v t :
  supportedNoiseType v = Some t ↔ v = JString t ∧ t ∈ SUPPORTED_NOISE_TYPES.
Proof.
  destruct v; simpl; try (split; [done | by intros [? _]]).
  case_bool_decide as H; split.
  - by intros [= ->].
  - by intros [[= ->] _].
  - done.
  - intros [[= ->] ?]. done.
Qed.

Lemma clamp_intensity_fixed x :
  clamp (clamp x (Fin (1#2)) (Fin 100)) (Fin (1#2)) (Fin 100)
  = clamp x (Fin (1#2)) (Fin 100).
Proof.
  destruct x as [| |q|]; try done.
  unfold clamp. simpl.
  destruct (Qle_bool q (1#2)) eqn:E1; simpl; [done|].
  destruct (Qle_bool q (100)) eqn:E2; simpl; [|done].
  rewrite E1. simpl. by rewrite E2.
Qed.

Lemma normalizeSettings_noiseType_cases raw :
  (∃ t, getProp raw "noiseType" = JString t ∧ t ∈ SUPPORTED_NOISE_TYPES
        ∧ noiseType (normalizeSettings raw) = t)
  ∨ ((∀ t, t ∈ SUPPORTED_NOISE_TYPES → getProp raw "noiseType" ≠ JString t)
     ∧ noiseType (normalizeSettings raw) = noiseType DEFAULT_SETTINGS).
Proof.
  unfold normalizeSettings.
  destruct (supportedNoiseType (getProp raw "noiseType")) as [t|] eqn:E.
  - left. apply supportedNoiseType_Some in E as [E Ht]. exists t.
    split; [done|]. split; [done|]. by case_match.
  - right. split.
    + intros t Ht Heq.
      assert (supportedNoiseType (getProp raw "noiseType") = Some t) as H
        by by apply supportedNoiseType_Some.
      congruence.
    + by case_match.
Qed.

Lemma normal_iff s :
  normal s ↔
  noiseType s ∈ SUPPORTED_NOISE_TYPES ∧ isNaN (intensity s) = false
  ∧ clamp (intensity s) (Fin (1#2)) (Fin 100) = intensity s.
Proof.
  unfold normal, normalizeSettings.
  rewrite getProp_asObject_noiseType, getProp_asObject_intensity.
  destruct s as [t i]. simpl.
  case_bool_decide as Ht; destruct (isNaN i) eqn:Hi; simpl; split.
  all: try (intros (? & ? & ?); done).
  - intros [= <-]. done.
  - intros [= Hc]. done.
  - intros (_ & _ & ->). done.
  - intros [= <- <-]. done.
  - intros [= <- _]. exfalso. apply Ht. set_solver.
Qed.

Lemma normalizeSettings_normal raw : normal (normalizeSettings raw).
Proof.
  apply normal_iff. split; [|split].
  - destruct (normalizeSettings_noiseType_cases raw) as [(t & _ & Ht & ->)|[_ ->]];
      [done|]. set_solver.
  - apply normalizeSettings_in_range.
  - destruct (isNaN (Number (getProp raw "intensity"))) eqn:E.
    + rewrite normalizeSettings_unparsed by done. by vm_compute.
    + rewrite normalizeSettings_parsed by done. apply clamp_intensity_fixed.
Qed.

Lemma normal_valid s : normal s → validSettings s.
Proof.
  intros (Ht & Hn & Hc)%normal_iff. split; [done|].
  rewrite <- Hc. by apply clamp_bounds.
Qed.

(** X1.  The noise type of the normalised settings is always one of the
    two supported kinds: the argument's [noiseType] when that is the
    string ['uniform'] or ['gaussian'], the default ['uniform'] for
    every other value (a missing property, another string, a value of
    another type).  The [intensity] property has no influence on it. *)
Theorem normalizeSettings_noiseType (raw : option (gmap string jsval)) :
  noiseType (normalizeSettings raw) ∈ SUPPORTED_NOISE_TYPES
  ∧ (∀ t, getProp raw "noiseType" = JString t → t ∈ SUPPORTED_NOISE_TYPES →
          noiseType (normalizeSettings raw) = t)
  ∧ ((∀ t, t ∈ SUPPORTED_NOISE_TYPES → getProp raw "noiseType" ≠ JString t) →
     noiseType (normalizeSettings raw) = "uniform")
  ∧ (∀ raw', getProp raw' "noiseType" = getProp raw "noiseType" →
             noiseType (normalizeSettings raw') = noiseType (normalizeSettings raw)).
Proof.
  split; [|split; [|split]].
  - destruct (normalizeSettings_noiseType_cases raw) as [(t & _ & Ht & ->)|[_ ->]];
      [done|]. set_solver.
  - intros t Heq Ht.
    destruct (normalizeSettings_noiseType_cases raw) as [(t' & Heq' & _ & ->)|[Hno _]].
    + congruence.
    + by destruct (Hno t Ht).
  - intros Hno.
    destruct (normalizeSettings_noiseType_cases raw) as [(t' & Heq' & Ht' & _)|[_ ->]].
    + by destruct (Hno t' Ht').
    + done.
  - intros raw' Heq. unfold normalizeSettings. rewrite Heq.
    destruct (supportedNoiseType _); by repeat case_match.
Qed.

Lemma normalizeSettings_noiseType_witness :
  noiseType (normalizeSettings
               (Some {[ "noiseType" := JString "gaussian";
                        "intensity" := JString "abc" ]})) = "gaussian"
  ∧ noiseType (normalizeSettings (Some {[ "noiseType" := JString "Gaussian" ]}))
    = "uniform".
Proof.
  split.
  - apply (normalizeSettings_noiseType
             (Some {[ "noiseType" := JString "gaussian";
                      "intensity" := JString "abc" ]})).
    + by vm_compute.
    + set_solver.
  - apply (normalizeSettings_noiseType
             (Some {[ "noiseType" := JString "Gaussian" ]})).
    intros t Ht. vm_compute. intros [= <-].
    revert Ht. unfold SUPPORTED_NOISE_TYPES.
    rewrite !elem_of_cons, elem_of_nil. by intros [?|[?|[]]].
Defined.

(** X2.  Normalising is idempotent: the settings that [normalizeSettings]
    returns are valid (a supported noise type, an intensity between 0.5
    and 100), and passing them to [normalizeSettings] again returns them
    unchanged. *)
Theorem normalizeSettings_idempotent (raw : option (gmap string jsval)) :
  validSettings (normalizeSettings raw)
  ∧ normalizeSettings (asObject (normalizeSettings raw)) = normalizeSettings raw.
Proof.
  split.
  - apply normal_valid, normalizeSettings_normal.
  - apply normalizeSettings_normal.
Qed.





End SettingsMore.

(** ** The page variables *)

Module PageFacts.

Import NumberFacts SettingsFacts SettingsMore StorageFacts.

Lemma sameVars_refl pg : sameVars pg pg.
Proof. done. Qed.

Lemma sameVars_trans pg1 pg2 pg3 :
  sameVars pg1 pg2 → sameVars pg2 pg3 → sameVars pg1 pg3.
Proof. intros (?&?&?&?) (?&?&?&?). repeat split; congruence. Qed.

Lemma sameVars_withNodes d pg : sameVars pg (withNodes d pg).
Proof. done. Qed.

Lemma sameVars_foldl {A} (f : page → A → page) (l : list A) pg :
  (∀ p a, sameVars p (f p a)) → sameVars pg (foldl f pg l).
Proof.
  intros Hf. revert pg. induction l as [|a l IH]; intros pg; [done|].
  simpl. eapply sameVars_trans; [apply Hf | apply IH].
Qed.

Lemma sameVars_refreshAllOverlays pg : sameVars pg (refreshAllOverlays pg).
Proof. done. Qed.

Lemma sameVars_base_doApply i pg : sameVars pg (Base.doApply i pg).
Proof.
  unfold Base.doApply. destruct (ensureWrapper _ _) as [[w|] d1]; [|done].
  destruct (querySelector _ _ _); [done|].
  by destruct (appendNew _ _ _).
Qed.

Lemma sameVars_selection_doApply i pg : sameVars pg (Selection.doApply i pg).
Proof.
  unfold Selection.doApply. destruct (ensureWrapper _ _) as [[w|] d1]; [|done].
  destruct (querySelector _ _ _); [done|].
  by destruct (appendNew _ _ _).
Qed.

Lemma sameVars_base_applyNoise i pg : sameVars pg (Base.applyNoise i pg).
Proof.
  unfold Base.applyNoise. destruct (nodes pg !! i); [|done].
  case_bool_decide; [done|]. case_match; [|done].
  apply sameVars_base_doApply.
Qed.

Lemma sameVars_selection_applyNoise i pg :
  sameVars pg (Selection.applyNoise i pg).
Proof.
  unfold Selection.applyNoise. destruct (nodes pg !! i); [|done].
  case_match; [|done]. apply sameVars_selection_doApply.
Qed.

Lemma sameVars_base_fireLoad i w h pg : sameVars pg (Base.fireLoad i w h pg).
Proof.
  unfold Base.fireLoad. destruct (nodes pg !! i); [|done].
  eapply sameVars_trans; [|apply sameVars_foldl].
  { apply sameVars_withNodes. } intros p [|s]; [apply sameVars_base_doApply | done].
Qed.

Lemma sameVars_scanExistingImages pg :
  sameVars pg (Base.scanExistingImages pg).
Proof. apply sameVars_foldl. intros. apply sameVars_base_applyNoise. Qed.

Lemma sameVars_onAddedNode n pg : sameVars pg (Base.onAddedNode n pg).
Proof.
  unfold Base.onAddedNode. case_match; [apply sameVars_base_applyNoise|].
  apply sameVars_foldl. intros. apply sameVars_base_applyNoise.
Qed.

Lemma sameVars_onMutations l pg : sameVars pg (Base.onMutations l pg).
Proof. apply sameVars_foldl. intros. apply sameVars_onAddedNode. Qed.

Lemma base_applySettings_settings pattern raw pg :
  currentSettings (Base.applySettings pattern raw pg) = normalizeSettings raw
  ∧ noisePattern (Base.applySettings pattern raw pg) = pattern.
Proof. done. Qed.

Lemma selection_applySettings_settings pattern raw st :
  currentSettings (Selection.pg (Selection.applySettings pattern raw st))
  = normalizeSettings raw
  ∧ noisePattern (Selection.pg (Selection.applySettings pattern raw st))
    = pattern.
Proof.
  unfold Selection.applySettings.
  destruct (Selection.selectedImage st) as [i|]; simpl; [|done].
  destruct (sameVars_selection_applyNoise i
              (refreshAllOverlays
                 (Page (nodes (Selection.pg st)) (documentElement (Selection.pg st))
                    (body (Selection.pg st)) (normalizeSettings raw) pattern)))
    as (_ & _ & -> & ->).
  done.
Qed.

End PageFacts.

(** ** Storage notifications and the current settings *)

Module SettingsInvariant.

Import NumberFacts SettingsFacts SettingsMore StorageFacts PageFacts.

(** The object that the storage listener hands to [applySettings]. *)
Lemma storageUpdate_fields changes current u :
  storageUpdate changes "local" current = Some u →
  noiseType u
  = match changes !! "noiseType" ≫= (λ c, supportedNoiseType (newValue c)) with
    | Some t => t
    | None => noiseType current
    end
  ∧ intensity u
    = match changes !! "intensity" with
      | Some c =>
          if isUndefined (newValue c) || isNaN (Number (newValue c))
          then intensity current
          else clamp (Number (newValue c)) (Fin (1#2)) (Fin 100)
      | None => intensity current
      end.
Proof.
  unfold storageUpdate. simpl.
  destruct (changes !! "noiseType") as [c1|]; simpl;
    [destruct (supportedNoiseType (newValue c1)) as [t|]|];
    (destruct (changes !! "intensity") as [c2|]; simpl;
     [destruct (isUndefined (newValue c2)); simpl;
      [|destruct (isNaN (Number (newValue c2))); simpl]|]);
    try done; by intros [= <-].
Qed.

Lemma storageUpdate_normal changes areaName current u :
  normal current → storageUpdate changes areaName current = Some u → normal u.
Proof.
  intros Hn Hu.
  destruct (decide (areaName = "local")) as [->|Hne];
    [|by rewrite storageUpdate_other_area in Hu].
  apply storageUpdate_fields in Hu as [Ht Hi].
  apply normal_iff in Hn as (Hnt & Hnn & Hnc).
  apply normal_iff. rewrite Ht, Hi. split; [|split].
  - destruct (changes !! "noiseType") as [c|]; simpl; [|done].
    destruct (supportedNoiseType (newValue c)) as [t|] eqn:E; [|done].
    by apply supportedNoiseType_Some in E as [_ ?].
  - destruct (changes !! "intensity") as [c|]; [|done].
    destruct (isUndefined (newValue c)); simpl; [done|].
    destruct (isNaN (Number (newValue c))) eqn:E; [done|].
    by apply clamp_isNaN.
  - destruct (changes !! "intensity") as [c|]; [|done].
    destruct (isUndefined (newValue c)); simpl; [done|].
    destruct (isNaN (Number (newValue c))) eqn:E; [done|].
    apply clamp_intensity_fixed.
Qed.

Lemma base_onStorageChanged_settings pattern changes areaName pg :
  normal (currentSettings pg) →
  currentSettings (Base.onStorageChanged pattern changes areaName pg)
  = default (currentSettings pg)
      (storageUpdate changes areaName (currentSettings pg)).
Proof.
  intros Hn. unfold Base.onStorageChanged.
  destruct (storageUpdate _ _ _) as [u|] eqn:E; [|done].
  simpl. by apply (storageUpdate_normal changes areaName (currentSettings pg)).
Qed.

Lemma selection_onStorageChanged_settings pattern changes areaName st :
  normal (currentSettings (Selection.pg st)) →
  currentSettings
    (Selection.pg (Selection.onStorageChanged pattern changes areaName st))
  = default (currentSettings (Selection.pg st))
      (storageUpdate changes areaName (currentSettings (Selection.pg st))).
Proof.
  intros Hn. unfold Selection.onStorageChanged.
  destruct (storageUpdate _ _ _) as [u|] eqn:E; [|done].
  destruct (selection_applySettings_settings pattern (asObject u) st) as [-> _].
  simpl.
  by apply (storageUpdate_normal changes areaName
              (currentSettings (Selection.pg st))).
Qed.

(** X4.  A storage notification, in either script, leaves valid settings
    valid.  A field keeps its current value unless the notification is
    for the area ['local'] and carries a usable new value for it: then
    the noise type becomes that supported kind and the intensity the new
    number clamped to [0.5, 100].  The two fields are updated
    independently of each other. *)
Theorem storage_change_settings (pattern : string)
    (changes : gmap string storageChange) (areaName : string) (pg : page) :
  normal (currentSettings pg) →
  let after :=
    currentSettings (Base.onStorageChanged pattern changes areaName pg) in
  normal after
  ∧ (∀ st, Selection.pg st = pg →
       currentSettings
         (Selection.pg (Selection.onStorageChanged pattern changes areaName st))
       = after)
  ∧ (areaName ≠ "local" ∨ ¬ noiseTypeAccepted changes →
     noiseType after = noiseType (currentSettings pg))
  ∧ (areaName ≠ "local" ∨ ¬ intensityAccepted changes →
     intensity after = intensity (currentSettings pg))
  ∧ (areaName = "local" →
     ∀ c t, changes !! "noiseType" = Some c →
            supportedNoiseType (newValue c) = Some t → noiseType after = t)
  ∧ (areaName = "local" →
     ∀ c, changes !! "intensity" = Some c →
          isUndefined (newValue c) = false →
          isNaN (Number (newValue c)) = false →
          intensity after = clamp (Number (newValue c)) (Fin (1#2)) (Fin 100)).
Proof.
  intros Hn after.
  assert (after = default (currentSettings pg)
                    (storageUpdate changes areaName (currentSettings pg)))
    as Hafter by by apply base_onStorageChanged_settings.
  split; [|split; [|split; [|split; [|split]]]].
  - rewrite Hafter.
    destruct (storageUpdate _ _ _) as [u|] eqn:E; [|done].
    by apply (storageUpdate_normal changes areaName (currentSettings pg)).
  - intros st <-. rewrite Hafter.
    by apply selection_onStorageChanged_settings.
  - rewrite Hafter. intros [Hne|Hno].
    { by rewrite storageUpdate_other_area. }
    destruct (decide (areaName = "local")) as [->|Hne];
      [|by rewrite storageUpdate_other_area].
    destruct (storageUpdate _ _ _) as [u|] eqn:E; [|done].
    apply storageUpdate_fields in E as [Hf _]. simpl. rewrite Hf.
    destruct (changes !! "noiseType") as [c|] eqn:Ec; [|done]. simpl.
    destruct (supportedNoiseType (newValue c)) as [t|] eqn:Et; [|done].
    destruct Hno. by exists c, t.
  - rewrite Hafter. intros [Hne|Hno].
    { by rewrite storageUpdate_other_area. }
    destruct (decide (areaName = "local")) as [->|Hne];
      [|by rewrite storageUpdate_other_area].
    destruct (storageUpdate _ _ _) as [u|] eqn:E; [|done].
    apply storageUpdate_fields in E as [_ Hf]. simpl. rewrite Hf.
    destruct (changes !! "intensity") as [c|] eqn:Ec; [|done].
    destruct (isUndefined (newValue c)) eqn:Eu; [done|].
    destruct (isNaN (Number (newValue c))) eqn:En; [done|].
    destruct Hno. by exists c.
  - intros -> c t Hc Ht. rewrite Hafter.
    destruct (storageUpdate _ _ _) as [u|] eqn:E.
    + apply storageUpdate_fields in E as [Hf _]. simpl. rewrite Hf.
      by rewrite Hc; simpl; rewrite Ht.
    + assert (is_Some (storageUpdate changes "local" (currentSettings pg)))
        as [? ?]; [|congruence].
      apply storageUpdate_local. left. by exists c, t.
  - intros -> c Hc Hu Hnan. rewrite Hafter.
    destruct (storageUpdate _ _ _) as [u|] eqn:E.
    + apply storageUpdate_fields in E as [_ Hf]. simpl. rewrite Hf.
      by rewrite Hc, Hu, Hnan.
    + assert (is_Some (storageUpdate changes "local" (currentSettings pg)))
        as [? ?]; [|congruence].
      apply storageUpdate_local. right. by exists c.
Qed.

Lemma default_normal : normal DEFAULT_SETTINGS.
Proof. by vm_compute. Qed.

Lemma storage_change_settings_witness :
  let pg' :=
    Base.onStorageChanged "data:,"
      {[ "intensity" := StorageChange JUndefined (JString "250");
         "noiseType" := StorageChange JUndefined (JString "perlin") ]}
      "local" Sample.page0 in
  intensity (currentSettings pg') = Fin 100
  ∧ noiseType (currentSettings pg') = "uniform".
Proof.
  destruct (storage_change_settings "data:,"
              {[ "intensity" := StorageChange JUndefined (JString "250");
                 "noiseType" := StorageChange JUndefined (JString "perlin") ]}
              "local" Sample.page0 default_normal)
    as (_ & _ & Ht & _ & _ & Hi).
  split.
  - rewrite (Hi eq_refl (StorageChange JUndefined (JString "250")));
      by vm_compute.
  - rewrite Ht; [done|]. right. intros (c & t & Hc & Hs).
    vm_compute in Hc. injection Hc as <-. by vm_compute in Hs.
Defined.

End SettingsInvariant.

(** ** The settings over a run of events *)

Module RunFacts.

Import NumberFacts SettingsFacts SettingsMore StorageFacts PageFacts
  SettingsInvariant.
Import Selection.

Lemma pg_notifySelectionChanged st :
  pg (notifySelectionChanged st) = pg st.
Proof. unfold notifySelectionChanged. by case_match. Qed.

Lemma sameVars_selectImage i st : sameVars (pg st) (pg (selectImage i st)).
Proof.
  unfold selectImage. case_bool_decide; [done|].
  rewrite pg_notifySelectionChanged. simpl.
  eapply sameVars_trans; [|apply sameVars_selection_applyNoise].
  apply sameVars_withNodes.
Qed.

Lemma sameVars_clearSelection st : sameVars (pg st) (pg (clearSelection st)).
Proof.
  unfold clearSelection. destruct (selectedImage st); [|done].
  rewrite pg_notifySelectionChanged. apply sameVars_withNodes.
Qed.

Lemma sameVars_enableSelectionMode st :
  sameVars (pg st) (pg (enableSelectionMode st)).
Proof. unfold enableSelectionMode. by case_match. Qed.

Lemma sameVars_disableSelectionMode st :
  sameVars (pg st) (pg (disableSelectionMode st)).
Proof. unfold disableSelectionMode. by case_match. Qed.

Lemma sameVars_click t st : sameVars (pg st) (pg (click t st)).
Proof.
  unfold click, selectionClickHandler. repeat case_match; try done.
  eapply sameVars_trans; [apply sameVars_disableSelectionMode|].
  apply sameVars_selectImage.
Qed.

Lemma sameVars_selection_fireLoad ev i w h st :
  sameVars (pg st) (pg (fireLoad ev i w h st).1).
Proof.
  unfold fireLoad. destruct (nodes (pg st) !! i) as [e|]; [|done].
  generalize (loadListeners e). intros l.
  assert (sameVars (pg st)
            (pg (withDom (alter (λ e, withLoadListeners [] (withLoaded w h e)) i
                            (nodes (pg st))) st, @nil response).1)) as H0
    by done.
  revert H0. generalize (withDom (alter (λ e, withLoadListeners [] (withLoaded w h e)) i
                            (nodes (pg st))) st, @nil response).
  induction l as [|x l IH]; intros acc Hacc; [done|].
  simpl. apply IH. destruct x; simpl; [|done].
  eapply sameVars_trans; [exact Hacc|]. apply sameVars_selection_doApply.
Qed.

Lemma step_settings e st :
  normal (currentSettings (pg st)) →
  normal (currentSettings (pg (step e st).1)).
Proof.
  intros Hn. destruct e as [ev m|t|ev i w h|pat changes areaName]; simpl.
  - destruct m as [| | |payload|payload|]; simpl; try done.
    + by destruct (sameVars_enableSelectionMode st) as (_ & _ & -> & _).
    + destruct (sameVars_clearSelection (disableSelectionMode st))
        as (_ & _ & -> & _).
      by destruct (sameVars_disableSelectionMode st) as (_ & _ & -> & _).
    + unfold handleApplyNoiseRequest.
      destruct (selectedImage st); simpl; [|done].
      case_match; simpl;
        destruct (selection_applySettings_settings (pattern ev)
                    (match payload with Some o => Some o | None => Some ∅ end) st)
          as [-> _]; apply normalizeSettings_normal.
    + destruct (selectedImage st); simpl; [|done].
      by destruct (generateNoisyDataUrl _ _ _ _).
  - by destruct (sameVars_click t st) as (_ & _ & -> & _).
  - by destruct (sameVars_selection_fireLoad ev i w h st) as (_ & _ & -> & _).
  - rewrite selection_onStorageChanged_settings by done.
    destruct (storageUpdate _ _ _) as [u|] eqn:E; [|done].
    by apply (storageUpdate_normal changes areaName (currentSettings (pg st))).
Qed.

Lemma run_settings events st :
  normal (currentSettings (pg st)) →
  normal (currentSettings (pg (run events st).1)).
Proof.
  revert st. induction events as [|e events IH]; intros st Hn; [done|].
  simpl. destruct (step e st) as [st1 out1] eqn:E1.
  destruct (run events st1) as [st2 out2] eqn:E2. simpl.
  replace st2 with (run events st1).1 by by rewrite E2.
  apply IH. replace st1 with (step e st).1 by by rewrite E1.
  by apply step_settings.
Qed.

Lemma base_step_settings e pg0 :
  normal (currentSettings pg0) →
  normal (currentSettings (Startup.step e pg0)).
Proof.
  intros Hn. destruct e as [i w h|added|pat changes areaName]; simpl.
  - by destruct (sameVars_base_fireLoad i w h pg0) as (_ & _ & -> & _).
  - by destruct (sameVars_onMutations added pg0) as (_ & _ & -> & _).
  - rewrite base_onStorageChanged_settings by done.
    destruct (storageUpdate _ _ _) as [u|] eqn:E; [|done].
    by apply (storageUpdate_normal changes areaName (currentSettings pg0)).
Qed.

Lemma base_run_settings events pg0 :
  normal (currentSettings pg0) →
  normal (currentSettings (Startup.run events pg0)).
Proof.
  revert pg0. induction events as [|e events IH]; intros pg0 Hn; [done|].
  apply IH. by apply base_step_settings.
Qed.

(** X5.  The current settings stay valid.  In both scripts, from a state
    whose settings are normalised (as the initial defaults are), every
    run of events leaves settings that are normalised: a supported noise
    type and an intensity between 0.5 and 100.  After [start] this holds
    whatever the storage returned and whatever the state was before. *)
Theorem settings_stay_valid :
  normal DEFAULT_SETTINGS
  ∧ (∀ events pg0,
       normal (currentSettings pg0) →
       normal (currentSettings (Startup.run events pg0))
       ∧ validSettings (currentSettings (Startup.run events pg0)))
  ∧ (∀ events st,
       normal (currentSettings (pg st)) →
       normal (currentSettings (pg (run events st).1))
       ∧ validSettings (currentSettings (pg (run events st).1)))
  ∧ (∀ storage pat pg0 events,
       validSettings
         (currentSettings (Startup.run events (Startup.start storage pat pg0))))
  ∧ (∀ storage pat st events,
       validSettings
         (currentSettings
            (pg (run events (Startup.startSelection storage pat st)).1))).
Proof.
  split; [apply default_normal|].
  split; [|split; [|split]].
  - intros events pg0 Hn.
    pose proof (base_run_settings events pg0 Hn) as H.
    split; [done | by apply normal_valid].
  - intros events st Hn.
    pose proof (run_settings events st Hn) as H.
    split; [done | by apply normal_valid].
  - intros storage pat pg0 events.
    apply normal_valid, base_run_settings. unfold Startup.start.
    destruct (sameVars_scanExistingImages
                (Base.applySettings pat (Startup.initialItems storage) pg0))
      as (_ & _ & -> & _).
    apply normalizeSettings_normal.
  - intros storage pat st events.
    apply normal_valid, run_settings. unfold Startup.startSelection.
    destruct (selection_applySettings_settings pat
                (Startup.initialItems storage) st) as [-> _].
    apply normalizeSettings_normal.
Qed.

Lemma settings_stay_valid_witness :
  validSettings
    (currentSettings
       (pg (run [Message (Env "data:," (ExportEnv true (Encoded "data:,") 0))
                   (ANI_APPLY_NOISE (Some {[ "intensity" := JNumber (Fin 1000) ]}))]
              Sample.state3).1)).
Proof.
  destruct settings_stay_valid as (_ & _ & H & _).
  apply H. by vm_compute.
Defined.

End RunFacts.

(** ** The pixels of the texture *)

Module TextureFacts.

Import Noise NoiseFacts.

Local Open Scope R_scope.









End TextureFacts.

(** ** The pixel loop of the export *)

Module PixelFacts.

Import Noise NoiseFacts Pixels.

Local Open Scope R_scope.

Lemma clamp_range x lo hi : lo <= hi → lo <= clamp x lo hi <= hi.
Proof.
  intros H. unfold clamp. split.
  - apply Rmin_glb; [apply Rmax_r | done].
  - apply Rmin_r.
Qed.

Lemma clamp_inside x lo hi : lo <= x <= hi → clamp x lo hi = x.
Proof.
  intros [H1 H2]. unfold clamp.
  rewrite Rmax_left by done. by rewrite Rmin_left.
Qed.

Lemma clamp_near c x lo hi :
  lo <= c <= hi → Rabs (clamp x lo hi - c) <= Rabs (x - c).
Proof.
  intros [H1 H2]. unfold clamp, Rmin, Rmax.
  repeat destruct (Rle_dec _ _); unfold Rabs; repeat destruct (Rcase_abs _); lra.
Qed.

Lemma factor_range i : 64 / 100 <= factor i <= 128.
Proof.
  unfold factor.
  pose proof (clamp_range (i / 100) (5 / 1000) 1 ltac:(lra)). lra.
Qed.

Lemma factor_linear i : 1 / 2 <= i <= 100 → factor i = i * 128 / 100.
Proof.
  intros H. unfold factor. rewrite clamp_inside by lra. lra.
Qed.

Lemma drawNonZero_suffix (P : R → Prop) src x rest :
  Forall P src → drawNonZero src = Some (x, rest) → P x ∧ Forall P rest.
Proof.
  induction 1 as [|y src Hy Hsrc IH]; [done|]. simpl.
  destruct (Req_dec_T y 0); [done|]. by intros [= <- <-].
Qed.

Lemma randomGaussianUnit_suffix (P : R → Prop) src g rest :
  Forall P src → randomGaussianUnit src = Some (g, rest) →
  0 <= g <= 1 ∧ Forall P rest.
Proof.
  intros Hsrc. unfold randomGaussianUnit.
  destruct (drawNonZero src) as [[u src1]|] eqn:E1; [|done].
  destruct (drawNonZero src1) as [[v src2]|] eqn:E2; [|done].
  intros [= <- <-]. split; [apply clamp_unit|].
  apply (drawNonZero_suffix P) in E1 as [_ H1]; [|done].
  by apply (drawNonZero_suffix P) in E2 as [_ H2].
Qed.

Lemma noiseDelta_range type i src delta rest :
  Forall (λ x, 0 <= x < 1) src →
  noiseDelta type i src = Some (delta, rest) →
  - factor i <= delta <= factor i ∧ Forall (λ x, 0 <= x < 1) rest.
Proof.
  intros Hsrc. unfold noiseDelta. fold (factor i).
  pose proof (factor_range i) as Hf.
  destruct (String.eqb type "gaussian").
  - destruct (randomGaussianUnit src) as [[g src1]|] eqn:E; [|done].
    intros [= <- <-].
    apply (randomGaussianUnit_suffix _ _ _ _ Hsrc) in E as [Hg Hrest].
    split; [|done]. split; nra.
  - destruct Hsrc as [|r src Hr Hsrc]; [done|]. simpl.
    intros [= <- <-]. split; [|done]. split; nra.
Qed.

Lemma drawNonZero_positive x src :
  0 < x → drawNonZero (x :: src) = Some (x, src).
Proof. intros H. apply drawNonZero_nonzero. lra. Qed.

Lemma noiseDelta_draws type i src :
  Forall (λ x, 0 < x < 1) src → (2 ≤ length src)%nat →
  ∃ delta rest, noiseDelta type i src = Some (delta, rest)
    ∧ (length src ≤ length rest + 2)%nat
    ∧ Forall (λ x, 0 < x < 1) rest.
Proof.
  intros Hsrc Hlen.
  destruct Hsrc as [|u src1 Hu Hsrc1]; [simpl in Hlen; lia|].
  destruct Hsrc1 as [|v src2 Hv Hsrc2]; [simpl in Hlen; lia|].
  unfold noiseDelta. destruct (String.eqb type "gaussian").
  - rewrite randomGaussianUnit_draws by lra.
    eexists _, _. split; [done|]. split; [simpl; lia | done].
  - simpl. eexists _, _. split; [done|]. split; [simpl; lia|].
    by constructor.
Qed.

(** X7.  The shift drawn for a pixel of the export is bounded by the
    intensity: [factor] lies between 0.64 and 128 and is [1.28 *
    intensity] for an intensity between 0.5 and 100; with draws of
    [Math.random] in [0,1), [noiseDelta] lies between [-factor] and
    [factor], for either noise type. *)
Theorem noiseDelta_bounded (type : string) (i : R) (src : list R) :
  Forall (λ x, 0 <= x < 1) src →
  64 / 100 <= factor i <= 128
  ∧ (1 / 2 <= i <= 100 → factor i = i * 128 / 100)
  ∧ (∀ delta rest, noiseDelta type i src = Some (delta, rest) →
       - factor i <= delta <= factor i)
  ∧ (Forall (λ x, 0 < x) src → (2 ≤ length src)%nat →
     is_Some (noiseDelta type i src)).
Proof.
  intros Hsrc. split; [apply factor_range|]. split; [apply factor_linear|].
  split.
  - intros delta rest H. by apply (noiseDelta_range type i src delta rest).
  - intros Hpos Hlen.
    destruct (noiseDelta_draws type i src) as (delta & rest & -> & _); [|done..].
    apply Forall_forall. intros x Hx.
    rewrite Forall_forall in Hsrc, Hpos.
    specialize (Hsrc x Hx). specialize (Hpos x Hx). simpl in *. lra.
Qed.

Lemma noiseDelta_bounded_witness :
  factor 20 = 20 * 128 / 100
  ∧ is_Some (noiseDelta "uniform" 20 [1 / 2; 1 / 4]).
Proof.
  destruct (noiseDelta_bounded "uniform"%string 20 [1 / 2; 1 / 4])
    as (_ & Hlin & _ & Hsome).
  { repeat constructor; lra. }
  split.
  - apply Hlin. lra.
  - apply Hsome; [repeat constructor; lra | simpl; lia].
Defined.

(** *** Stores into the clamped byte array *)

Lemma ToUint8Clamp_between (a b : Z) x :
  (0 ≤ a)%Z → (b ≤ 255)%Z → IZR a <= x <= IZR b →
  (a ≤ ToUint8Clamp x ≤ b)%Z.
Proof.
  intros Ha Hb [Hax Hxb].
  assert (a ≤ b)%Z as Hab by (apply le_IZR; lra).
  unfold ToUint8Clamp.
  destruct (Rle_dec x 0) as [H0|H0].
  { split; [|lia]. apply le_IZR. lra. }
  destruct (Rle_dec 255 x) as [H255|H255].
  { split; [lia|]. apply le_IZR. lra. }
  pose proof (Zfloor_bound x) as [Hf1 Hf2].
  assert (a ≤ Zfloor x)%Z as Haf by by apply Zfloor_lub.
  assert (Zfloor x ≤ b)%Z as Hfb by (apply le_IZR; lra).
  assert (IZR (Zfloor x) < x → (Zfloor x + 1 ≤ b)%Z) as Hup.
  { intros Hlt. apply Z.lt_succ_r, Z.lt_succ_r. unfold Z.succ.
    assert (Zfloor x < b)%Z; [|lia]. apply lt_IZR. lra. }
  destruct (Rlt_dec (IZR (Zfloor x) + 1 / 2) x) as [H1|H1].
  { split; [lia|]. apply Hup. lra. }
  destruct (Rlt_dec x (IZR (Zfloor x) + 1 / 2)) as [H2|H2]; [lia|].
  destruct (Z.even (Zfloor x)); [lia|].
  split; [lia|]. apply Hup. lra.
Qed.

Lemma Rabs_bound x b : Rabs x <= b → - b <= x <= b.
Proof. unfold Rabs. destruct (Rcase_abs x); lra. Qed.

Lemma putChannel_range delta c : (0 ≤ putChannel delta c ≤ 255)%Z.
Proof.
  unfold putChannel. apply ToUint8Clamp_between; [lia | lia |].
  apply clamp_range. lra.
Qed.

Lemma putChannel_near delta c (B : Z) :
  (0 ≤ c ≤ 255)%Z → Rabs delta <= IZR B →
  (Z.abs (putChannel delta c - c) ≤ B)%Z.
Proof.
  intros Hc Hd.
  assert (0 <= IZR B) as HB0 by (pose proof (Rabs_pos delta); lra).
  apply le_IZR in HB0.
  assert (0 <= IZR c <= 255) as Hcr by (split; apply IZR_le; lia).
  pose proof (clamp_near (IZR c) (IZR c + delta) 0 255 Hcr) as Hnear.
  replace (IZR c + delta - IZR c) with delta in Hnear by lra.
  pose proof (clamp_range (IZR c + delta) 0 255 ltac:(lra)) as Hrange.
  set (x := clamp (IZR c + delta) 0 255) in *.
  assert (IZR (Z.max 0 (c - B)) <= x <= IZR (Z.min 255 (c + B))) as Hx.
  { assert (Rabs (x - IZR c) <= IZR B) as Hxc by lra.
    apply Rabs_bound in Hxc. split.
    - apply Z.max_case; [lra | rewrite minus_IZR; lra].
    - apply Z.min_case; [lra | rewrite plus_IZR; lra]. }
  pose proof (ToUint8Clamp_between (Z.max 0 (c - B)) (Z.min 255 (c + B)) x
                ltac:(lia) ltac:(lia) Hx) as Hr.
  unfold putChannel. fold x. lia.
Qed.


Lemma list_ind4 {A} (P : list A → Prop) :
  P [] → (∀ a, P [a]) → (∀ a b, P [a; b]) → (∀ a b c, P [a; b; c]) →
  (∀ a b c d l, P l → P (a :: b :: c :: d :: l)) → ∀ l, P l.
Proof.
  intros H0 H1 H2 H3 H4. fix IH 1.
  intros [|a [|b [|c [|d l]]]]; [done..|]. apply H4, IH.
Qed.

Local Open Scope Z_scope.

Lemma shifted_put B delta c :
  0 ≤ c ≤ 255 → (Rabs delta <= IZR B)%R → shifted B c (putChannel delta c).
Proof.
  intros Hc Hd. split; [apply putChannel_range | by apply putChannel_near].
Qed.

Lemma shifted_same B c : 0 ≤ c ≤ 255 → 0 ≤ B → shifted B c c.
Proof. intros Hc HB. split; [done|]. lia. Qed.

Ltac shifts :=
  repeat first
    [ apply List.Forall2_nil
    | apply List.Forall2_cons;
      [first [by apply shifted_put | by apply shifted_same]|] ].

Lemma addNoise_shifted type i (B : Z) data :
  (factor i <= IZR B)%R →
  Forall (λ c, 0 ≤ c ≤ 255) data →
  ∀ src out rest,
    Forall (λ x, (0 <= x < 1)%R) src →
    addNoise type i data src = Some (out, rest) →
    Forall2 (shifted B) data out
    ∧ (∀ k c, data !! (4 * k + 3)%nat = Some c →
              out !! (4 * k + 3)%nat = Some c)
    ∧ Forall (λ x, (0 <= x < 1)%R) rest.
Proof.
  intros HB. 
  assert (0 ≤ B) as HB0.
  { apply le_IZR. pose proof (factor_range i). lra. }
  induction data as [|r|r g|r g b|r g b a data IH] using list_ind4;
    intros Hdata src out rest Hsrc; cbn [addNoise map].
  - intros [= <- <-]. split; [constructor|]. split; [by intros [|?] ?|done].
  - destruct (noiseDelta type i src) as [[delta src1]|] eqn:E; [|done].
    intros [= <- <-].
    apply (noiseDelta_range _ _ _ _ _ Hsrc) in E as [Hd Hs1].
    assert (Rabs delta <= IZR B)%R as Hd' by (apply Rabs_le; lra).
    inversion_clear Hdata as [|?? Hr _].
    split; [|split; [|done]].
    + shifts.
    + intros k c Hk. by apply lookup_lt_Some in Hk; simpl in Hk; lia.
  - destruct (noiseDelta type i src) as [[delta src1]|] eqn:E; [|done].
    intros [= <- <-].
    apply (noiseDelta_range _ _ _ _ _ Hsrc) in E as [Hd Hs1].
    assert (Rabs delta <= IZR B)%R as Hd' by (apply Rabs_le; lra).
    inversion_clear Hdata as [|?? Hr Hdata']. inversion_clear Hdata' as [|?? Hg _].
    split; [|split; [|done]].
    + shifts.
    + intros k c Hk. by apply lookup_lt_Some in Hk; simpl in Hk; lia.
  - destruct (noiseDelta type i src) as [[delta src1]|] eqn:E; [|done].
    intros [= <- <-].
    apply (noiseDelta_range _ _ _ _ _ Hsrc) in E as [Hd Hs1].
    assert (Rabs delta <= IZR B)%R as Hd' by (apply Rabs_le; lra).
    inversion_clear Hdata as [|?? Hr Hdata']. inversion_clear Hdata' as [|?? Hg Hdata''].
    inversion_clear Hdata'' as [|?? Hb _].
    split; [|split; [|done]].
    + shifts.
    + intros k c Hk. by apply lookup_lt_Some in Hk; simpl in Hk; lia.
  - destruct (noiseDelta type i src) as [[delta src1]|] eqn:E; [|done].
    apply (noiseDelta_range _ _ _ _ _ Hsrc) in E as [Hd Hs1].
    assert (Rabs delta <= IZR B)%R as Hd' by (apply Rabs_le; lra).
    destruct (addNoise type i data src1) as [[out1 src2]|] eqn:E1; [|done].
    intros [= <- <-].
    inversion_clear Hdata as [|?? Hr Hdata']. inversion_clear Hdata' as [|?? Hg Hdata''].
    inversion_clear Hdata'' as [|?? Hb Hdata']. inversion_clear Hdata' as [|?? Ha Hdata''].
    destruct (IH Hdata'' src1 out1 src2 Hs1 E1) as (IH1 & IH2 & IH3).
    split; [|split; [|done]].
    + shifts. done.
    + intros [|k] c Hk; [done|].
      assert (4 * S k + 3 = S (S (S (S (4 * k + 3)))))%nat as Heq by lia.
      rewrite Heq in *. remember (4 * k + 3)%nat as m eqn:Hm.
      simpl in *. subst m. by apply IH2.
Qed.


Lemma addNoise_draws type i data :
  ∀ src, Forall (λ x, (0 < x < 1)%R) src →
         (2 * ((length data + 3) / 4) ≤ length src)%nat →
         is_Some (addNoise type i data src).
Proof.
  induction data as [|r|r g|r g b|r g b a data IH] using list_ind4;
    intros src Hsrc Hlen; cbn [addNoise map]; [done|..].
  1-3: destruct (noiseDelta_draws type i src Hsrc) as (delta & rest & -> & _);
         [by vm_compute in Hlen | done].
  assert ((length (r :: g :: b :: a :: data) + 3) / 4
          = S ((length data + 3) / 4))%nat as Hdiv.
  { replace (length (r :: g :: b :: a :: data) + 3)%nat
      with (length data + 3 + 1 * 4)%nat by (simpl; lia).
    rewrite Nat.div_add by lia. lia. }
  rewrite Hdiv in Hlen.
  destruct (noiseDelta_draws type i src Hsrc) as (delta & src1 & -> & Hl & Hs1);
    [lia|].
  destruct (IH src1 Hs1) as [[out src2] ->]; [lia|]. done.
Qed.

(** X8.  The pixel loop of the export, run on bytes between 0 and 255
    with draws in [0,1): the result has the length of the input; every
    byte stays between 0 and 255 and moves by at most [B], for every
    integer [B] not below [factor] (128 at most); every fourth byte, the
    alpha channel, is left as it is.  With two non-zero draws available
    per pixel the loop completes. *)
Theorem addNoise_effect (type : string) (i : R) (B : Z) (data : list Z)
    (src : list R) :
  Forall (λ x, (0 <= x < 1)%R) src →
  Forall (λ c, 0 ≤ c ≤ 255) data →
  (factor i <= IZR B)%R →
  (∀ out rest, addNoise type i data src = Some (out, rest) →
     length out = length data
     ∧ Forall2 (shifted B) data out
     ∧ (∀ k c, data !! (4 * k + 3)%nat = Some c →
               out !! (4 * k + 3)%nat = Some c))
  ∧ (Forall (λ x, (0 < x)%R) src →
     (2 * ((length data + 3) / 4) ≤ length src)%nat →
     is_Some (addNoise type i data src)).
Proof.
  intros Hsrc Hdata HB. split.
  - intros out rest H.
    destruct (addNoise_shifted type i B data HB Hdata src out rest Hsrc H)
      as (H1 & H2 & _).
    split; [|done]. symmetry. by eapply Forall2_length.
  - intros Hpos Hlen. apply addNoise_draws; [|done].
    apply Forall_forall. intros x Hx.
    rewrite Forall_forall in Hsrc, Hpos.
    specialize (Hsrc x Hx). specialize (Hpos x Hx). simpl in *. lra.
Qed.

Lemma addNoise_effect_witness :
  is_Some (addNoise "uniform" 20 [10; 200; 255; 77] [(1 / 2)%R; (1 / 4)%R]).
Proof.
  apply (addNoise_effect "uniform" 20 26 [10; 200; 255; 77]
           [(1 / 2)%R; (1 / 4)%R]).
  - repeat constructor; lra.
  - repeat constructor; lia.
  - rewrite factor_linear by lra. lra.
  - repeat constructor; lra.
  - simpl. lia.
Defined.

End PixelFacts.

(** ** Start-up *)

Module StartupFacts.

Import NumberFacts SettingsFacts SettingsMore StorageFacts PageFacts
  SettingsInvariant RunFacts.
Import Startup.

Lemma getProp_storageGet_noiseType stored :
  getProp (storageGet stored) "noiseType"
  = default (JString "uniform") (stored !! "noiseType").
Proof. unfold storageGet, getProp. by rewrite lookup_insert_eq. Qed.

Lemma getProp_storageGet_intensity stored :
  getProp (storageGet stored) "intensity"
  = default (JNumber (Fin 20)) (stored !! "intensity").
Proof.
  unfold storageGet, getProp.
  rewrite lookup_insert_ne by done. by rewrite lookup_insert_eq.
Qed.

(** The defaults handed to [storage.local.get] make no difference to the
    normalised result. *)
Lemma normalizeSettings_storageGet stored :
  normalizeSettings (storageGet stored) = normalizeSettings (Some stored).
Proof.
  unfold normalizeSettings.
  rewrite getProp_storageGet_noiseType, getProp_storageGet_intensity.
  unfold getProp.
  destruct (stored !! "noiseType") as [t|], (stored !! "intensity") as [i|];
    simpl; try done.
  by destruct (supportedNoiseType t).
Qed.

(** X9.  The settings after [start]: they are the normalised stored
    object, the defaults handed to [storage.local.get] making no
    difference.  Without a storage API, or with nothing stored, they are
    the defaults; settings that were stored in normalised form are
    restored exactly; a field that is missing or unusable falls back to
    its default independently of the other. *)
Theorem initial_settings (storage : option (gmap string jsval))
    (pat : string) (pg : page) (st : Selection.state) :
  currentSettings (start storage pat pg)
  = normalizeSettings (default None (Some <$> storage))
  ∧ currentSettings (Selection.pg (startSelection storage pat st))
    = normalizeSettings (default None (Some <$> storage))
  ∧ noisePattern (start storage pat pg) = pat
  ∧ (storage = None ∨ storage = Some ∅ →
     currentSettings (start storage pat pg) = DEFAULT_SETTINGS)
  ∧ (∀ stored s,
       storage = Some stored → normal s →
       stored !! "noiseType" = Some (JString (noiseType s)) →
       stored !! "intensity" = Some (JNumber (intensity s)) →
       currentSettings (start storage pat pg) = s).
Proof.
  assert (normalizeSettings (initialItems storage)
          = normalizeSettings (default None (Some <$> storage))) as Hitems.
  { destruct storage as [stored|]; simpl; [|done].
    apply normalizeSettings_storageGet. }
  assert (currentSettings (start storage pat pg)
          = normalizeSettings (default None (Some <$> storage))) as Hstart.
  { unfold start.
    destruct (sameVars_scanExistingImages
                (Base.applySettings pat (initialItems storage) pg))
      as (_ & _ & -> & _).
    exact Hitems. }
  split; [done|]. split; [|split; [|split]].
  - unfold startSelection.
    destruct (selection_applySettings_settings pat (initialItems storage) st)
      as [-> _].
    exact Hitems.
  - unfold start.
    by destruct (sameVars_scanExistingImages
                   (Base.applySettings pat (initialItems storage) pg))
      as (_ & _ & _ & ->).
  - rewrite Hstart. by intros [->| ->].
  - intros stored s -> Hn Ht Hi. rewrite Hstart. simpl.
    etrans; [|exact Hn]. unfold normalizeSettings.
    rewrite getProp_asObject_noiseType, getProp_asObject_intensity.
    unfold getProp. by rewrite Ht, Hi.
Qed.

Lemma initial_settings_witness :
  currentSettings (start (Some ∅) "data:," Sample.page0) = DEFAULT_SETTINGS
  ∧ currentSettings
      (start (Some {[ "noiseType" := JString "gaussian";
                      "intensity" := JNumber (Fin 35) ]}) "data:," Sample.page0)
    = Build_settings "gaussian" (Fin 35).
Proof.
  split.
  - apply (initial_settings (Some ∅) "data:," Sample.page0 Sample.state0).
    by right.
  - eapply (initial_settings _ "data:," Sample.page0 Sample.state0);
      [reflexivity | by vm_compute | by vm_compute | by vm_compute].
Defined.

End StartupFacts.

(** ** Notifications of the selection *)

Module ControlFacts.

Import NumberFacts SettingsFacts SettingsMore StorageFacts PageFacts
  SettingsInvariant RunFacts.
Import Selection.

Lemma sameControl_refl st : sameControl st st.
Proof. done. Qed.

Lemma sameControl_trans st1 st2 st3 :
  sameControl st1 st2 → sameControl st2 st3 → sameControl st1 st3.
Proof. intros (?&?&?&?) (?&?&?&?). repeat split; congruence. Qed.

Lemma sameControl_withPage p st : sameControl st (withPage p st).
Proof. done. Qed.

Lemma sameControl_applySettings pat raw st :
  sameControl st (applySettings pat raw st).
Proof. unfold applySettings. by destruct (selectedImage st). Qed.

Lemma sameControl_fireLoad ev i w h st : sameControl st (fireLoad ev i w h st).1.
Proof.
  unfold fireLoad. destruct (nodes (pg st) !! i) as [e|]; [|done].
  generalize (loadListeners e). intros l.
  assert (sameControl st
            (withDom (alter (λ e, withLoadListeners [] (withLoaded w h e)) i
                        (nodes (pg st))) st, @nil response).1) as H0 by done.
  revert H0.
  generalize (withDom (alter (λ e, withLoadListeners [] (withLoaded w h e)) i
                         (nodes (pg st))) st, @nil response).
  induction l as [|x l IH]; intros acc Hacc; [done|].
  simpl. apply IH. by destruct x.
Qed.

Lemma sameControl_onStorageChanged pat changes areaName st :
  sameControl st (onStorageChanged pat changes areaName st).
Proof.
  unfold onStorageChanged. destruct (storageUpdate _ _ _); [|done].
  apply sameControl_applySettings.
Qed.

Lemma lastNotice_app acc l l' :
  lastNotice acc (l ++ l') = lastNotice (lastNotice acc l) l'.
Proof.
  revert acc. induction l as [|[b|b] l IH]; intros acc; simpl; by rewrite ?IH.
Qed.

Lemma inSync_sameControl st st' : sameControl st st' → inSync st → inSync st'.
Proof. intros (Hs & _ & _ & Hm). unfold inSync. by rewrite Hs, Hm. Qed.

(** What [selectImage] and [clearSelection] do to the control part. *)
Lemma selectImage_control i st :
  selectedImage st ≠ Some i →
  selectedImage (selectImage i st) = Some i
  ∧ selectionModeEnabled (selectImage i st) = selectionModeEnabled st
  ∧ runtimeSendMessage (selectImage i st) = runtimeSendMessage st
  ∧ sent (selectImage i st)
    = (sent st ++ if runtimeSendMessage st then [ANI_SELECTION_CHANGED true]
                  else [])%list.
Proof.
  intros Hne. unfold selectImage. rewrite bool_decide_eq_false_2 by done.
  unfold notifySelectionChanged. simpl.
  destruct (runtimeSendMessage st); simpl; [done|]. by rewrite app_nil_r.
Qed.

Lemma clearSelection_control i st :
  selectedImage st = Some i →
  selectedImage (clearSelection st) = None
  ∧ selectionModeEnabled (clearSelection st) = selectionModeEnabled st
  ∧ runtimeSendMessage (clearSelection st) = runtimeSendMessage st
  ∧ sent (clearSelection st)
    = (sent st ++ if runtimeSendMessage st then [ANI_SELECTION_CHANGED false]
                  else [])%list.
Proof.
  intros Hs. unfold clearSelection. rewrite Hs.
  unfold notifySelectionChanged. simpl.
  destruct (runtimeSendMessage st); simpl; [done|]. by rewrite app_nil_r.
Qed.

Lemma disableSelectionMode_control st :
  selectedImage (disableSelectionMode st) = selectedImage st
  ∧ runtimeSendMessage (disableSelectionMode st) = runtimeSendMessage st
  ∧ sent (disableSelectionMode st) = sent st
  ∧ selectionModeEnabled (disableSelectionMode st) = false.
Proof. unfold disableSelectionMode. by destruct (selectionModeEnabled st) eqn:E. Qed.

Lemma enableSelectionMode_control st :
  selectedImage (enableSelectionMode st) = selectedImage st
  ∧ runtimeSendMessage (enableSelectionMode st) = runtimeSendMessage st
  ∧ sent (enableSelectionMode st) = sent st
  ∧ selectionModeEnabled (enableSelectionMode st) = true.
Proof. unfold enableSelectionMode. by destruct (selectionModeEnabled st) eqn:E. Qed.

Lemma notified_refl st : notified st st.
Proof. by repeat split. Qed.

Lemma notified_trans st1 st2 st3 :
  notified st1 st2 → notified st2 st3 → notified st1 st3.
Proof.
  intros (Hr & Hp & Hf & Ht) (Hr' & Hp' & Hf' & Ht'). repeat split.
  - congruence.
  - by etrans.
  - intros H. rewrite Hf' by congruence. by apply Hf.
  - intros H Hs. apply Ht'; [congruence|]. by apply Ht.
Qed.

Lemma notified_same st st' :
  selectedImage st' = selectedImage st →
  runtimeSendMessage st' = runtimeSendMessage st →
  sent st' = sent st → notified st st'.
Proof.
  intros Hs Hr Hm. unfold notified. rewrite Hm. repeat split; try done.
  intros _. unfold inSync. by rewrite Hs, Hm.
Qed.

Lemma notified_sameControl st st' : sameControl st st' → notified st st'.
Proof. intros (Hs & _ & Hr & Hm). by apply notified_same. Qed.

Lemma notified_selectImage i st : notified st (selectImage i st).
Proof.
  destruct (decide (selectedImage st = Some i)) as [Heq|Hne].
  { unfold selectImage. rewrite bool_decide_eq_true_2 by done.
    apply notified_refl. }
  destruct (selectImage_control i st Hne) as (Hs & _ & Hr & Hm).
  unfold notified. rewrite Hr, Hm. repeat split.
  - by apply prefix_app_r.
  - intros ->. by rewrite app_nil_r.
  - intros Hrt _. rewrite Hrt in Hm.
    unfold inSync. rewrite Hm, Hs, lastNotice_app. done.
Qed.

Lemma notified_clearSelection st : notified st (clearSelection st).
Proof.
  destruct (selectedImage st) as [i|] eqn:Hi.
  2:{ unfold clearSelection. rewrite Hi. apply notified_refl. }
  destruct (clearSelection_control i st Hi) as (Hs & _ & Hr & Hm).
  unfold notified. rewrite Hr, Hm. repeat split.
  - by apply prefix_app_r.
  - intros ->. by rewrite app_nil_r.
  - intros Hrt _. rewrite Hrt in Hm.
    unfold inSync. rewrite Hm, Hs, lastNotice_app. done.
Qed.

Lemma notified_enableSelectionMode st : notified st (enableSelectionMode st).
Proof.
  destruct (enableSelectionMode_control st) as (? & ? & ? & _).
  by apply notified_same.
Qed.

Lemma notified_disableSelectionMode st : notified st (disableSelectionMode st).
Proof.
  destruct (disableSelectionMode_control st) as (? & ? & ? & _).
  by apply notified_same.
Qed.

Lemma notified_handleApplyNoiseRequest pat settings st :
  notified st (handleApplyNoiseRequest pat settings st).1.
Proof.
  unfold handleApplyNoiseRequest.
  destruct (selectedImage st) as [i|] eqn:Hi; [|apply notified_refl].
  pose proof (sameControl_applySettings pat settings st) as (Hs & _ & Hr & Hm).
  remember (applySettings pat settings st) as st1 eqn:Hst1. clear Hst1.
  cbn [fst]. destruct (runtimeSendMessage st1) eqn:E.
  - unfold notified, inSync. cbn [runtimeSendMessage sent selectedImage].
    rewrite Hm, Hs. repeat split.
    + congruence.
    + by apply prefix_app_r.
    + congruence.
    + intros _ Hsync. rewrite lastNotice_app. simpl. done.
  - apply notified_same; congruence.
Qed.

Lemma notified_step e st : notified st (step e st).1.
Proof.
  destruct e as [ev m|t|ev i w h|pat changes areaName]; simpl.
  - destruct m as [| | |payload|payload|]; simpl.
    + apply notified_enableSelectionMode.
    + eapply notified_trans; [apply notified_disableSelectionMode|].
      apply notified_clearSelection.
    + apply notified_refl.
    + apply notified_handleApplyNoiseRequest.
    + destruct (selectedImage st); [|apply notified_refl].
      destruct (generateNoisyDataUrl _ _ _ _). simpl.
      by apply notified_same.
    + apply notified_refl.
  - unfold click, selectionClickHandler.
    destruct (selectionModeEnabled st); [|apply notified_refl].
    destruct (matchesTag _ _ _); [|apply notified_refl].
    eapply notified_trans; [apply notified_disableSelectionMode|].
    apply notified_selectImage.
  - apply notified_sameControl, sameControl_fireLoad.
  - apply notified_sameControl, sameControl_onStorageChanged.
Qed.

Lemma notified_run events st : notified st (run events st).1.
Proof.
  revert st. induction events as [|e events IH]; intros st;
    [apply notified_refl|].
  simpl. destruct (step e st) as [st1 out1] eqn:E1.
  destruct (run events st1) as [st2 out2] eqn:E2. simpl.
  eapply notified_trans.
  - pose proof (notified_step e st) as H. by rewrite E1 in H.
  - pose proof (IH st1) as H. by rewrite E2 in H.
Qed.

(** X10.  The popup's view of the selection is kept current.  Over
    every run of events the script only appends to the messages it
    sends; when the messaging channel exists, the last
    [ANI_SELECTION_CHANGED] message sent says whether an image is
    selected now (provided this held at the start, as it does in
    the initial state); without the channel nothing is sent. *)
Theorem selection_notices_in_sync (events : list event) (st : state) :
  let st' := (run events st).1 in
  sent st `prefix_of` sent st'
  ∧ (runtimeSendMessage st = true → inSync st → inSync st')
  ∧ (runtimeSendMessage st = false → sent st' = sent st)
  ∧ (selectedImage st = None → sent st = [] → runtimeSendMessage st = true →
     lastNotice false (sent st') = bool_decide (is_Some (selectedImage st'))).
Proof.
  intros st'. destruct (notified_run events st) as (Hr & Hp & Hf & Ht).
  fold st' in Hr, Hp, Hf, Ht. repeat split; try done.
  intros Hs Hm Hrt. apply Ht; [done|]. unfold inSync. by rewrite Hs, Hm.
Qed.

Lemma selection_notices_in_sync_witness :
  let st' :=
    (run [Message (Env "" (ExportEnv true (Encoded "data:,") 0))
            ANI_START_SELECTION;
          Click 4;
          Message (Env "" (ExportEnv true (Encoded "data:,") 0))
            ANI_CLEAR_SELECTION]
       Sample.state0).1 in
  lastNotice false (sent st') = bool_decide (is_Some (selectedImage st')).
Proof.
  intros st'.
  by apply (selection_notices_in_sync
              [Message (Env "" (ExportEnv true (Encoded "data:,") 0))
                 ANI_START_SELECTION;
               Click 4;
               Message (Env "" (ExportEnv true (Encoded "data:,") 0))
                 ANI_CLEAR_SELECTION]
              Sample.state0).
Defined.

End ControlFacts.

(** ** The selection mode *)

Module ModeFacts.

Import NumberFacts SettingsFacts SettingsMore StorageFacts PageFacts
  SettingsInvariant RunFacts ControlFacts.
Import Selection.

Lemma matchesTag_alter (f : element → element) n (d : gmap positive element)
    tag a :
  (∀ e, tagName (f e) = tagName e) →
  matchesTag (alter f n d) tag a = matchesTag d tag a.
Proof.
  intros Hf. unfold matchesTag. destruct (decide (a = n)) as [->|Hne].
  - rewrite lookup_alter_eq. destruct (d !! n); simpl; [|done]. by rewrite Hf.
  - by rewrite lookup_alter_ne.
Qed.

Lemma matchesTag_classListAdd n cls d tag a :
  matchesTag (classListAdd n cls d) tag a = matchesTag d tag a.
Proof. apply matchesTag_alter. intros e. by case_bool_decide. Qed.

Lemma matchesTag_classListRemove n cls d tag a :
  matchesTag (classListRemove n cls d) tag a = matchesTag d tag a.
Proof. by apply matchesTag_alter. Qed.

Lemma filter_app_other (cls : string) (l : list string) :
  cls ∉ l → filter (λ c, c ≠ cls) (l ++ [cls])%list = l.
Proof.
  intros Hn. rewrite filter_app.
  rewrite (filter_cons_False _ cls []) by (intros H; by apply H).
  rewrite filter_nil, app_nil_r.
  induction l as [|c l IH]; [done|].
  apply not_elem_of_cons in Hn as [Hc Hl].
  rewrite filter_cons_True by done. by rewrite IH.
Qed.

Lemma classListRemove_classListAdd n cls (d : gmap positive element) :
  (∀ e, d !! n = Some e → cls ∉ className e) →
  classListRemove n cls (classListAdd n cls d) = d.
Proof.
  intros Hn. unfold classListRemove, classListAdd.
  apply map_eq. intros a. destruct (decide (a = n)) as [->|Hne].
  - rewrite !lookup_alter_eq. destruct (d !! n) as [e|] eqn:E; simpl; [|done].
    rewrite bool_decide_eq_false_2 by by apply Hn.
    unfold withClassName. simpl. rewrite filter_app_other by by apply Hn.
    by destruct e.
  - by rewrite !lookup_alter_ne.
Qed.

Lemma withNodes_nodes d d' p : withNodes d (withNodes d' p) = withNodes d p.
Proof. done. Qed.

(** X11.  The selection mode is one-shot.  Outside the mode a click is
    ignored.  In the mode, a click on an element that is not an image is
    ignored and the mode stays on; a click on an image selects it and
    turns the mode off, so that further clicks are ignored until the
    mode is started again.  Starting the mode twice is starting it once,
    and turning it off again restores the state, when the body did not
    carry the mode's class before. *)
Theorem selection_mode_one_shot (st : state) :
  (selectionModeEnabled st = false → ∀ t, click t st = st)
  ∧ (∀ t, matchesTag (nodes (pg st)) "img" t = false →
          click t (enableSelectionMode st) = enableSelectionMode st)
  ∧ (∀ A, matchesTag (nodes (pg st)) "img" A = true →
          let st1 := click A (enableSelectionMode st) in
          selectedImage st1 = Some A
          ∧ selectionModeEnabled st1 = false
          ∧ ∀ t, click t st1 = st1)
  ∧ enableSelectionMode (enableSelectionMode st) = enableSelectionMode st
  ∧ (selectionModeEnabled st = false →
     (∀ e, nodes (pg st) !! body (pg st) = Some e →
           SELECTION_MODE_CLASS ∉ className e) →
     disableSelectionMode (enableSelectionMode st) = st).
Proof.
  assert (∀ t, matchesTag (nodes (pg (enableSelectionMode st))) "img" t
               = matchesTag (nodes (pg st)) "img" t) as Htag.
  { intros t. unfold enableSelectionMode.
    destruct (selectionModeEnabled st); [done|]. simpl.
    apply matchesTag_classListAdd. }
  destruct (enableSelectionMode_control st) as (Hs & _ & _ & Hon).
  split; [|split; [|split; [|split]]].
  - intros Hoff t. unfold click. by rewrite Hoff.
  - intros t Ht. unfold click, selectionClickHandler. by rewrite Hon, Htag, Ht.
  - intros A HA st1.
    assert (st1 = selectImage A (disableSelectionMode (enableSelectionMode st)))
      as Hst1.
    { unfold st1, click, selectionClickHandler. by rewrite Hon, Htag, HA. }
    destruct (disableSelectionMode_control (enableSelectionMode st))
      as (Hs' & _ & _ & Hoff).
    assert (selectedImage st1 = Some A ∧ selectionModeEnabled st1 = false)
      as [H1 H2].
    { rewrite Hst1.
      destruct (decide (selectedImage
                          (disableSelectionMode (enableSelectionMode st))
                        = Some A)) as [Heq|Hne].
      - unfold selectImage. by rewrite bool_decide_eq_true_2.
      - destruct (selectImage_control A _ Hne) as (-> & -> & _). done. }
    split; [done|]. split; [done|].
    intros t. unfold click. by rewrite H2.
  - unfold enableSelectionMode at 1. by rewrite Hon.
  - intros Hoff Hbody. unfold enableSelectionMode. rewrite Hoff.
    unfold disableSelectionMode. simpl.
    rewrite classListRemove_classListAdd by done.
    destruct st as [[] ? ? ? ?]. simpl in *. by rewrite Hoff.
Qed.

Lemma selection_mode_one_shot_witness :
  let st1 := click 4 (enableSelectionMode Sample.state0) in
  selectedImage st1 = Some 4%positive ∧ click 3 st1 = st1
  ∧ disableSelectionMode (enableSelectionMode Sample.state0) = Sample.state0.
Proof.
  destruct (selection_mode_one_shot Sample.state0) as (_ & _ & H & _ & Hr).
  destruct (H 4%positive) as (H1 & _ & H3); [by vm_compute|].
  split; [exact H1|]. split; [apply H3|].
  apply Hr; [done|]. intros e He. vm_compute in He. injection He as <-.
  apply not_elem_of_nil.
Defined.

End ModeFacts.

(** ** Answers to export requests *)

Module ExportFacts.

Import NumberFacts SettingsFacts SettingsMore StorageFacts PageFacts
  SettingsInvariant RunFacts ControlFacts OverlayFacts SelectionFacts.
Import Selection.

Lemma exportResponse_settled ev r :
  r ≠ Pending → length (exportResponse ev r) = 1%nat.
Proof. by destruct r. Qed.

Lemma finalize_settled ev : finalize ev ≠ Pending.
Proof. unfold finalize. by destruct (pixels ev). Qed.

Lemma fireLoad_waiting xev i w h st e s :
  nodes (pg st) !! i = Some e →
  fireLoad xev i w h
    (withDom (addLoadListener i (ExportOnLoad s) (nodes (pg st))) st)
  = ((fireLoad xev i w h st).1,
     ((fireLoad xev i w h st).2 ++ exportResponse xev (finalize xev))%list).
Proof.
  intros He. unfold fireLoad. simpl.
  unfold addLoadListener at 1. rewrite lookup_alter_eq, He. simpl.
  replace (withDom _ (withDom _ st))
    with (withDom (alter (λ e, withLoadListeners [] (withLoaded w h e)) i
                     (nodes (pg st))) st).
  2:{ unfold withDom, withPage, withNodes. simpl.
      by rewrite alter_loaded_after_listener. }
  by rewrite foldl_app.
Qed.

Lemma loaded_complete e :
  naturalWidth e ≠ 0%N → loaded e = complete e.
Proof.
  intros Hw. unfold loaded.
  assert ((0 <? naturalWidth e)%N = true) as -> by (apply N.ltb_lt; lia).
  by rewrite andb_true_r.
Qed.

(** X12.  Every export request for a selected image is answered exactly
    once, and no export changes the selection or the document tree.  The
    answer is immediate when a natural dimension is 0, when no 2D
    context is obtained, or when the image is complete; a successful one
    carries the data URL and the file name [noisy-image-<now>.png].
    When the image is not yet complete there is no answer at the
    request; it comes with the image's [load] event, which otherwise
    does what it would have done without the export. *)
Theorem export_answered_once (ev : env) (payload : option (gmap string jsval))
    (st : state) (i : positive) (e : element) :
  selectedImage st = Some i → nodes (pg st) !! i = Some e →
  let request := ANI_GENERATE_NOISY_IMAGE payload in
  (naturalWidth e = 0%N ∨ naturalHeight e = 0%N
   ∨ context2d (export ev) = false ∨ complete e = true →
   (onMessage ev request st).1 = st
   ∧ length (onMessage ev request st).2 = 1%nat)
  ∧ (∀ u, naturalWidth e ≠ 0%N → naturalHeight e ≠ 0%N →
          context2d (export ev) = true → complete e = true →
          pixels (export ev) = Encoded u →
          onMessage ev request st
          = (st, [RespImage u ("noisy-image-" ++ digitsOfN (now (export ev))
                               ++ ".png")]))
  ∧ (naturalWidth e ≠ 0%N → naturalHeight e ≠ 0%N →
     context2d (export ev) = true → complete e = false →
     (onMessage ev request st).2 = []
     ∧ sameControl st (onMessage ev request st).1
     ∧ ∀ xev w h,
         fireLoad xev i w h (onMessage ev request st).1
         = ((fireLoad xev i w h st).1,
            ((fireLoad xev i w h st).2
               ++ exportResponse xev (finalize xev))%list)
         ∧ length (exportResponse xev (finalize xev)) = 1%nat).
Proof.
  intros Hsel He request. unfold request.
  rewrite (onMessage_generate _ _ _ i) by done.
  split; [|split].
  - intros H.
    destruct (N.eq_dec (naturalWidth e) 0%N) as [Hw|Hw].
    { rewrite (generate_no_size i e) by auto. simpl.
      by rewrite withDom_id. }
    destruct (N.eq_dec (naturalHeight e) 0%N) as [Hh|Hh].
    { rewrite (generate_no_size i e) by auto. simpl.
      by rewrite withDom_id. }
    destruct (context2d (export ev)) eqn:Hc.
    2:{ rewrite (generate_no_context i e) by done. simpl.
        by rewrite withDom_id. }
    destruct H as [?|[?|[?|Hl]]]; try done.
    rewrite (generate_finalize i e) by done. simpl.
    rewrite withDom_id. split; [done|].
    apply exportResponse_settled, finalize_settled.
  - intros u Hw Hh Hc Hl Hp.
    rewrite (generate_finalize i e) by done.
    rewrite withDom_id. unfold finalize. by rewrite Hp.
  - intros Hw Hh Hc Hl.
    rewrite (generate_pending i e) by done. simpl.
    split; [done|]. split; [done|].
    intros xev w h. split.
    + by apply (fireLoad_waiting xev i w h st e).
    + apply exportResponse_settled, finalize_settled.
Qed.

Lemma export_answered_once_witness :
  onMessage (Env "" (ExportEnv true (Encoded "data:image/png;base64,CCCC") 1700))
    (ANI_GENERATE_NOISY_IMAGE None) Sample.state3
  = (Sample.state3,
     [RespImage "data:image/png;base64,CCCC" "noisy-image-1700.png"]).
Proof.
  destruct (nodes (pg Sample.state3) !! 3%positive) as [e|] eqn:E;
    [|by vm_compute in E].
  pose proof (export_answered_once
                (Env "" (ExportEnv true (Encoded "data:image/png;base64,CCCC") 1700))
                None Sample.state3 3 e eq_refl E) as (_ & H & _).
  vm_compute in E. injection E as <-.
  apply (H "data:image/png;base64,CCCC"); by vm_compute.
Defined.

End ExportFacts.

(** ** Managed documents *)

Module ManagedFacts.

Import DomFacts OverlayFacts.

Local Open Scope nat_scope.

(** Every proper ancestor in the chain is the parent of a chain element. *)
Lemma ancestors_child f (d : gmap positive element) n a :
  a ∈ inclusiveAncestors f d n → a ≠ n →
  ∃ c ec, c ∈ inclusiveAncestors f d n ∧ d !! c = Some ec
          ∧ parentNode ec = Some a.
Proof.
  revert n. induction f as [|f IH]; intros n Ha Hne; simpl in Ha.
  { by apply elem_of_nil in Ha. }
  simpl. destruct (d !! n) as [e|] eqn:E; [|by apply elem_of_nil in Ha].
  apply elem_of_cons in Ha as [->|Ha]; [done|].
  destruct (parentNode e) as [p|] eqn:Ep; [|by apply elem_of_nil in Ha].
  destruct (decide (a = p)) as [->|Hap].
  - exists n, e. split; [apply list_elem_of_here | done].
  - destruct (IH p Ha Hap) as (c & ec & Hc & Hec & Hpc).
    exists c, ec. split; [by right | done].
Qed.

Lemma parent_lists_child depth (d : gmap positive element) c ec a ea :
  wellFormedWith depth d → d !! c = Some ec → parentNode ec = Some a →
  d !! a = Some ea → c ∈ childNodes ea.
Proof.
  intros Hwf Hc Hp Ha. destruct (Hwf c ec Hc) as (_ & Hpo & _).
  unfold parentOk in Hpo. rewrite Hp, Ha in Hpo. tauto.
Qed.

Lemma parent_in_store depth (d : gmap positive element) c ec a :
  wellFormedWith depth d → d !! c = Some ec → parentNode ec = Some a →
  ∃ ea, d !! a = Some ea ∧ c ∈ childNodes ea ∧ depth a < depth c.
Proof.
  intros Hwf Hc Hp. destruct (Hwf c ec Hc) as (_ & Hpo & _).
  unfold parentOk in Hpo. rewrite Hp in Hpo.
  destruct (d !! a) as [ea|]; [|done]. by exists ea.
Qed.

Lemma closest_Some_chain (d : gmap positive element) cls n a :
  closest d cls n = Some a →
  a ∈ inclusiveAncestors (size d) d n ∧ matchesClass d cls a = true.
Proof.
  unfold closest. intros H. apply head_Some_elem_of in H.
  by apply list_elem_of_filter in H as [? ?].
Qed.

Lemma matchesClass_true (d : gmap positive element) cls a :
  matchesClass d cls a = true → ∃ e, d !! a = Some e ∧ cls ∈ className e.
Proof.
  unfold matchesClass. destruct (d !! a) as [e|]; [|done].
  intros H%bool_decide_eq_true. by exists e.
Qed.

Ltac open_overlaid H :=
  let Hi := fresh "Hi" in let Hip := fresh "Hip" in let Hic := fresh "Hic" in
  let Hinw := fresh "Hinw" in let Hino := fresh "Hino" in
  let Hw := fresh "Hw" in let Hwc := fresh "Hwc" in let Hwch := fresh "Hwch" in
  let Ho := fresh "Ho" in let Hoc := fresh "Hoc" in let Hoch := fresh "Hoch" in
  let Hop := fresh "Hop" in let Hiw := fresh "Hiw" in let Hio := fresh "Hio" in
  let Hwo := fresh "Hwo" in
  destruct H as [Hi Hip Hic Hinw Hino Hw Hwc Hwch Ho Hoc Hoch Hop Hiw Hio Hwo].

(** What a processed image looks like to the script. *)
Lemma processed_found d i w o :
  processed d i w o →
  closest d NOISE_WRAPPER_CLASS i = Some w
  ∧ querySelectorAll d w NOISE_OVERLAY_CLASS = [o]
  ∧ getAttribute d i NOISE_APPLIED_ATTR = Some "true"%string.
Proof.
  intros (ei & ew & eo & Hov & Ht & Hm). open_overlaid Hov. split; [|split].
  - by apply (closest_wrapped d _ i ei w ew).
  - by apply (querySelectorAll_pair d _ w ew i ei o eo).
  - unfold getAttribute. by rewrite Hi.
Qed.

Lemma processed_oneOverlay d i w o : processed d i w o → oneOverlay d i.
Proof. intros H. exists w, o. by apply processed_found. Qed.

(** In a managed document, the wrapper that [closest] finds from an
    image is the wrapper of that image as a processed one. *)
Lemma managed_closest d i e a :
  managed d → d !! i = Some e → tagName e = "img"%string →
  closest d NOISE_WRAPPER_CLASS i = Some a →
  ∃ o, processed d i a o.
Proof.
  intros Hm Hi Ht Hc. destruct Hm as [[depth Hwf] Himg Hwr Hov Hmk Hls].
  apply closest_Some_chain in Hc as [Hchain Hmatch].
  apply matchesClass_true in Hmatch as (ea & Hea & Hcls).
  destruct (Hwr a ea Hea Hcls) as (i' & o' & Hproc).
  pose proof Hproc as (ei' & ew' & eo' & Hov' & Ht' & Hm').
  destruct (decide (a = i)) as [->|Hne].
  { rewrite Hi in Hea. injection Hea as <-.
    destruct (Himg i e Hi Ht) as (_ & Hnw & _). done. }
  destruct (ancestors_child _ d i a Hchain Hne) as (c & ec & Hcin & Hec & Hpc).
  pose proof (parent_lists_child depth d c ec a ea Hwf Hec Hpc Hea) as Hin.
  open_overlaid Hov'. rewrite Hw in Hea. injection Hea as <-.
  rewrite Hwch in Hin.
  destruct (inclusiveAncestors_members depth d _ i c Hwf Hcin)
    as (ec' & Hec' & Hor).
  rewrite Hec in Hec'. injection Hec' as <-.
  apply elem_of_cons in Hin as [->|Hin].
  - rewrite Hi0 in Hec. injection Hec as <-.
    destruct Hor as [->|Hch]; [|done].
    by exists o'.
  - apply list_elem_of_singleton in Hin as ->.
    rewrite Ho in Hec. injection Hec as <-.
    destruct Hor as [->|Hch]; [|done].
    rewrite Hi in Ho. injection Ho as <-.
    destruct (Himg i e Hi Ht) as (_ & _ & Hno). done.
Qed.

Lemma managed_unwrapped d i e :
  managed d → d !! i = Some e → tagName e = "img"%string → ¬ marked e →
  closest d NOISE_WRAPPER_CLASS i = None.
Proof.
  intros Hm Hi Ht Hnm.
  destruct (closest d NOISE_WRAPPER_CLASS i) as [a|] eqn:Hc; [|done].
  destruct (managed_closest d i e a Hm Hi Ht Hc)
    as (o & ei & ew & eo & Hov & _ & Hmk).
  open_overlaid Hov. rewrite Hi in Hi0. by injection Hi0 as <-.
Qed.

End ManagedFacts.

(** ** A first application keeps the document managed *)

Module ManagedApply.

Import DomFacts OverlayFacts ManagedFacts.

Local Open Scope nat_scope.

Lemma elem_of_insertBeforeRef (new ref x : positive) l :
  x ∈ insertBeforeRef new ref l ↔ x ∈ l ∨ (x = new ∧ ref ∈ l).
Proof.
  induction l as [|y l IH]; simpl.
  { rewrite !elem_of_nil. split; [done|]. by intros [?|[_ ?]]. }
  case_decide as Hy.
  - subst y. rewrite !elem_of_cons. tauto.
  - rewrite !elem_of_cons, IH.
    split; [tauto|]. intros [[?|?]|[? [?|?]]]; try tauto.
    subst. by destruct Hy.
Qed.

Lemma elem_of_rewired (new ref x : positive) l :
  x ∈ withoutChild ref (insertBeforeRef new ref l)
  ↔ x ≠ ref ∧ (x ∈ l ∨ (x = new ∧ ref ∈ l)).
Proof.
  unfold withoutChild. by rewrite list_elem_of_filter, elem_of_insertBeforeRef.
Qed.

Section managed_apply.
Context (d : gmap positive element) (i : positive) (e : element)
        (p : positive) (ep : element) (pat : string) (s : settings)
        (depth : positive → nat).
Context (Hm : managed d) (Hwf : wellFormedWith depth d)
        (Hplain : plainImage d i e p ep)
        (Himg : tagName e = "img"%string).

Let w := fresh (dom d).
Let o := fresh (dom (wrapInto d i e p ep)).
Let d' := appliedTo d i e p ep pat s.
Let ei' :=
  withAttributes (<[NOISE_APPLIED_ATTR := "true"%string]> (attributes e))
    (withParentNode (Some w) e).
Let ew' := withChildNodes [i; o] (wrapperOf p i).
Let eo' := withParentNode (Some w) (createOverlay pat s).
Let ep' :=
  withChildNodes (withoutChild i (insertBeforeRef w i (childNodes ep))) ep.

Lemma ma_ids :
  d !! w = None ∧ d !! o = None ∧ w ≠ i ∧ w ≠ p ∧ o ≠ w ∧ o ≠ i ∧ o ≠ p
  ∧ i ≠ p.
Proof.
  destruct (wrapper_fresh d i e p ep Hplain) as (H1 & H2 & H3).
  destruct (overlay_fresh d i e p ep Hplain) as (H4 & H5 & H6 & H7).
  pose proof Hplain as [Hpl Hld Hcl Hpp Hppl Hipn Hnov Hunw]. by repeat split.
Qed.

Lemma ma_i : d' !! i = Some ei'.
Proof. apply (appliedTo_image d i e p ep Hplain). Qed.

Lemma ma_w : d' !! w = Some ew'.
Proof. apply (appliedTo_wrapper d i e p ep Hplain). Qed.

Lemma ma_o : d' !! o = Some eo'.
Proof. apply (appliedTo_overlay d i e p ep). Qed.

Lemma ma_p : d' !! p = Some ep'.
Proof. apply (appliedTo_parent d i e p ep Hplain). Qed.

Lemma ma_other a : a ≠ o → a ≠ w → a ≠ i → a ≠ p → d' !! a = d !! a.
Proof. apply (appliedTo_other d i e p ep). Qed.

Lemma ma_old a ea :
  d !! a = Some ea → a ≠ i → a ≠ p → d' !! a = Some ea.
Proof.
  intros Ha Hi Hp. destruct ma_ids as (Hw & Ho & _).
  rewrite ma_other; try done; intros ->; congruence.
Qed.

Lemma ma_cases a ea' :
  d' !! a = Some ea' →
  (a = o ∧ ea' = eo') ∨ (a = w ∧ ea' = ew') ∨ (a = i ∧ ea' = ei')
  ∨ (a = p ∧ ea' = ep')
  ∨ (a ≠ o ∧ a ≠ w ∧ a ≠ i ∧ a ≠ p ∧ d !! a = Some ea').
Proof.
  intros Ha.
  destruct (decide (a = o)) as [->|Ho].
  { left. rewrite ma_o in Ha. by injection Ha as <-. }
  destruct (decide (a = w)) as [->|Hw].
  { right. left. rewrite ma_w in Ha. by injection Ha as <-. }
  destruct (decide (a = i)) as [->|Hi].
  { right. right. left. rewrite ma_i in Ha. by injection Ha as <-. }
  destruct (decide (a = p)) as [->|Hp].
  { right. right. right. left. rewrite ma_p in Ha. by injection Ha as <-. }
  right. right. right. right. by rewrite ma_other in Ha.
Qed.

Lemma ma_unmarked : ¬ marked e.
Proof.
  intros Hmk. pose proof Hplain as [Hpl Hld Hcl Hpp Hppl Hipn Hnov Hunw].
  destruct (mg_marked d Hm i e Hpl Himg Hmk) as (w' & o' & Hpr).
  apply processed_found in Hpr as (Hc & _). congruence.
Qed.

Lemma ma_child : i ∈ childNodes ep.
Proof.
  pose proof Hplain as [Hpl Hld Hcl Hpp Hppl Hipn Hnov Hunw].
  by apply (parent_lists_child depth d i e p ep).
Qed.

(** The parent of the image belongs to no processed image. *)
Lemma ma_apart i' w' o' :
  processed d i' w' o' →
  i' ≠ i ∧ i' ≠ p ∧ w' ≠ i ∧ w' ≠ p ∧ o' ≠ i ∧ o' ≠ p
  ∧ i' ≠ w ∧ i' ≠ o ∧ w' ≠ w ∧ w' ≠ o ∧ o' ≠ w ∧ o' ≠ o.
Proof.
  intros (ei0 & ew0 & eo0 & Hov & Ht & Hmk). open_overlaid Hov.
  destruct ma_ids as (Hw0 & Ho0 & _). pose proof ma_child as Hch.
  pose proof ma_unmarked as Hum. pose proof Hplain as [Hpl Hld Hcl Hpp Hppl Hipn Hnov Hunw].
  destruct (mg_img d Hm i e Hpl Himg) as (_ & Hnw & Hno).
  assert (i' ≠ i) as H1.
  { intros ->. rewrite Hpl in Hi. by injection Hi as <-. }
  assert (i' ≠ p) as H2.
  { intros ->. rewrite Hppl in Hi. injection Hi as <-.
    rewrite Hic in Hch. by apply elem_of_nil in Hch. }
  assert (w' ≠ i) as H3.
  { intros ->. rewrite Hpl in Hw. by injection Hw as <-. }
  assert (o' ≠ i) as H5.
  { intros ->. rewrite Hpl in Ho. by injection Ho as <-. }
  assert (w' ≠ p) as H4.
  { intros ->. rewrite Hppl in Hw. injection Hw as <-.
    rewrite Hwch in Hch.
    apply elem_of_cons in Hch as [->|Hch]; [done|].
    by apply list_elem_of_singleton in Hch as ->. }
  assert (o' ≠ p) as H6.
  { intros ->. rewrite Hppl in Ho. injection Ho as <-.
    rewrite Hoch in Hch. by apply elem_of_nil in Hch. }
  repeat split; try done; intros ->; congruence.
Qed.

Lemma ma_processed i' w' o' : processed d i' w' o' → processed d' i' w' o'.
Proof.
  intros Hpr.
  destruct (ma_apart i' w' o' Hpr)
    as (H1 & H2 & H3 & H4 & H5 & H6 & _).
  destruct Hpr as (ei0 & ew0 & eo0 & Hov & Ht & Hmk). open_overlaid Hov.
  exists ei0, ew0, eo0. split; [|done].
  constructor; try done; by apply ma_old.
Qed.

Lemma ma_new : processed d' i w o.
Proof.
  exists ei', ew', eo'. split; [|split].
  - apply (TwoSelections.appliedTo_overlaid d i e p ep pat s Hplain).
  - done.
  - unfold marked, ei'. simpl. by rewrite lookup_insert_eq.
Qed.

Lemma ma_size : size d' = S (S (size d)).
Proof.
  destruct ma_ids as (Hw & Ho & Hwi & Hwp & How & Hoi & Hop & Hip).
  pose proof Hplain as [Hpl Hld Hcl Hpp Hppl Hipn Hnov Hunw].
  unfold d', appliedTo. fold w o.
  rewrite map_size_insert_None.
  2:{ rewrite !lookup_insert_ne by done. done. }
  rewrite map_size_insert_None.
  2:{ rewrite !lookup_insert_ne by done. done. }
  rewrite map_size_insert_Some by (rewrite lookup_insert_ne by done; eauto).
  by rewrite map_size_insert_Some by eauto.
Qed.

Let depth' (x : positive) : nat :=
  if decide (x = w) then depth i
  else if decide (x = i) then S (depth i)
  else if decide (x = o) then S (depth i)
  else depth x.

Lemma ma_depth_old a ea : d !! a = Some ea → a ≠ i → depth' a = depth a.
Proof.
  intros Ha Hi. destruct ma_ids as (Hw & Ho & _). unfold depth'.
  rewrite decide_False by (intros ->; congruence).
  rewrite decide_False by done.
  by rewrite decide_False by (intros ->; congruence).
Qed.

Lemma ma_wellFormed : wellFormedWith depth' d'.
Proof.
  destruct ma_ids as (Hw & Ho & Hwi & Hwp & How & Hoi & Hop & Hip).
  pose proof Hplain as [Hpl Hld Hcl Hpp Hppl Hipn Hnov Hunw]. pose proof ma_child as Hch.
  destruct (Hwf i e Hpl) as (Hdi & Hpi & _).
  unfold parentOk in Hpi. rewrite Hpp, Hppl in Hpi.
  destruct Hpi as [_ Hdpi].
  assert (depth' w = depth i) as Hdw by (unfold depth'; by rewrite decide_True).
  assert (depth' i = S (depth i)) as Hdi'.
  { unfold depth'. rewrite decide_False by done. by rewrite decide_True. }
  assert (depth' o = S (depth i)) as Hdo.
  { unfold depth'. rewrite decide_False by done.
    rewrite decide_False by done. by rewrite decide_True. }
  assert (depth' p = depth p) as Hdp by by apply (ma_depth_old p ep).
  intros x ex Hx. unfold nodeOk. rewrite ma_size.
  destruct (ma_cases x ex Hx)
    as [[-> ->]|[[-> ->]|[[-> ->]|[[-> ->]|(Hxo & Hxw & Hxi & Hxp & Hold)]]]].
  - (* the overlay *)
    split; [lia|]. split.
    + unfold parentOk. simpl. rewrite ma_w. simpl. split; [|lia].
      apply elem_of_cons. right. apply list_elem_of_here.
    + simpl. constructor.
  - (* the wrapper *)
    split; [lia|]. split.
    + unfold parentOk. simpl. rewrite ma_p. simpl. split; [|lia].
      apply elem_of_rewired. split; [done|]. by right.
    + simpl. repeat constructor.
      * unfold childOk. by rewrite ma_i.
      * unfold childOk. by rewrite ma_o.
  - (* the image *)
    split; [lia|]. split.
    + unfold parentOk. simpl. rewrite ma_w. simpl. split; [|lia].
      apply list_elem_of_here.
    + simpl. rewrite Hcl. constructor.
  - (* the parent *)
    destruct (Hwf p ep Hppl) as (Hdp' & Hpar & Hcp).
    split; [lia|]. split.
    + unfold parentOk in *. simpl.
      destruct (parentNode ep) as [q|] eqn:Eq; [|done].
      destruct (d !! q) as [eq|] eqn:Eeq; [|done].
      destruct Hpar as [Hin Hlt].
      assert (q ≠ i) as Hqi.
      { intros ->. rewrite Hpl in Eeq. injection Eeq as <-.
        rewrite Hcl in Hin. by apply elem_of_nil in Hin. }
      assert (q ≠ p) as Hqp by (intros ->; lia).
      rewrite (ma_old q eq) by done.
      rewrite (ma_depth_old q eq) by done. by split; [|lia].
    + simpl. apply Forall_forall. intros c Hc.
      apply elem_of_rewired in Hc as [Hci [Hc|[-> _]]].
      * rewrite Forall_forall in Hcp. specialize (Hcp c Hc).
        unfold childOk in *. destruct (d !! c) as [ec|] eqn:Ec; [|done].
        assert (c ≠ p) as Hcp'.
        { intros ->. rewrite Hppl in Ec. injection Ec as <-.
          destruct (Hwf p ep Hppl) as (_ & Hpo & _).
          unfold parentOk in Hpo. rewrite Hcp, Hppl in Hpo.
          lia. }
        by rewrite (ma_old c ec).
      * unfold childOk. by rewrite ma_w.
  - (* the other nodes *)
    destruct (Hwf x ex Hold) as (Hdx & Hpx & Hcx).
    rewrite (ma_depth_old x ex) by done.
    split; [lia|]. split.
    + unfold parentOk in *.
      destruct (parentNode ex) as [q|] eqn:Eq; [|done].
      destruct (d !! q) as [eq|] eqn:Eeq; [|done].
      destruct Hpx as [Hin Hlt].
      assert (q ≠ i) as Hqi.
      { intros ->. rewrite Hpl in Eeq. injection Eeq as <-.
        rewrite Hcl in Hin. by apply elem_of_nil in Hin. }
      rewrite (ma_depth_old q eq), (ma_depth_old x ex) by done.
      destruct (decide (q = p)) as [->|Hqp].
      * rewrite ma_p. simpl. split; [|done].
        rewrite Hppl in Eeq. injection Eeq as <-.
        apply elem_of_rewired. split; [done|]. by left.
      * by rewrite (ma_old q eq).
    + apply Forall_forall. intros c Hc.
      rewrite Forall_forall in Hcx. specialize (Hcx c Hc).
      unfold childOk in *. destruct (d !! c) as [ec|] eqn:Ec; [|done].
      assert (c ≠ i) as Hci.
      { intros ->. rewrite Hpl in Ec. injection Ec as <-.
        congruence. }
      destruct (decide (c = p)) as [->|Hcp].
      * rewrite ma_p. simpl.
        rewrite Hppl in Ec. by injection Ec as <-.
      * by rewrite (ma_old c ec).
Qed.

Lemma ma_managed : managed d'.
Proof.
  destruct ma_ids as (Hw & Ho & Hwi & Hwp & How & Hoi & Hop & Hip).
  pose proof Hplain as [Hpl Hld Hcl Hpp Hppl Hipn Hnov Hunw]. pose proof ma_child as Hch.
  pose proof ma_unmarked as Hum.
  destruct (mg_img d Hm i e Hpl Himg) as (_ & Hnw & Hno).
  constructor.
  - exists depth'. apply ma_wellFormed.
  - intros x ex Hx Ht.
    destruct (ma_cases x ex Hx)
      as [[-> ->]|[[-> ->]|[[-> ->]|[[-> ->]|(Hxo & Hxw & Hxi & Hxp & Hold)]]]];
      try done.
    + by apply (mg_img d Hm p ep) in Ht as (Hc & ? & ?);
        [rewrite Hc in Hch; apply elem_of_nil in Hch|].
    + by apply (mg_img d Hm x ex).
  - intros x ex Hx Hc.
    destruct (ma_cases x ex Hx)
      as [[-> ->]|[[-> ->]|[[-> ->]|[[-> ->]|(Hxo & Hxw & Hxi & Hxp & Hold)]]]].
    + simpl in Hc. by apply list_elem_of_singleton in Hc.
    + exists i, o. apply ma_new.
    + done.
    + simpl in Hc.
      destruct (mg_wrapper d Hm p ep Hppl Hc) as (i' & o' & Hpr).
      by destruct (ma_apart i' p o' Hpr) as (_ & _ & _ & ? & _).
    + destruct (mg_wrapper d Hm x ex Hold Hc) as (i' & o' & Hpr).
      exists i', o'. by apply ma_processed.
  - intros x ex Hx Hc.
    destruct (ma_cases x ex Hx)
      as [[-> ->]|[[-> ->]|[[-> ->]|[[-> ->]|(Hxo & Hxw & Hxi & Hxp & Hold)]]]].
    + exists i, w. apply ma_new.
    + simpl in Hc. by apply list_elem_of_singleton in Hc.
    + done.
    + simpl in Hc.
      destruct (mg_overlay d Hm p ep Hppl Hc) as (i' & w' & Hpr).
      by destruct (ma_apart i' w' p Hpr) as (_ & _ & _ & _ & _ & ? & _).
    + destruct (mg_overlay d Hm x ex Hold Hc) as (i' & w' & Hpr).
      exists i', w'. by apply ma_processed.
  - intros x ex Hx Ht Hmk.
    destruct (ma_cases x ex Hx)
      as [[-> ->]|[[-> ->]|[[-> ->]|[[-> ->]|(Hxo & Hxw & Hxi & Hxp & Hold)]]]];
      try done.
    + exists w, o. apply ma_new.
    + destruct (mg_marked d Hm p ep Hppl Ht Hmk) as (w' & o' & Hpr).
      by destruct (ma_apart p w' o' Hpr) as (_ & ? & _).
    + destruct (mg_marked d Hm x ex Hold Ht Hmk) as (w' & o' & Hpr).
      exists w', o'. by apply ma_processed.
  - intros x ex Hx Hl.
    destruct (ma_cases x ex Hx)
      as [[-> ->]|[[-> ->]|[[-> ->]|[[-> ->]|(Hxo & Hxw & Hxi & Hxp & Hold)]]]];
      try done.
    + by apply (mg_listeners d Hm p ep).
    + by apply (mg_listeners d Hm x ex).
Qed.

End managed_apply.

End ManagedApply.

(** ** Changes of style, load state and listeners *)

Module ManagedRun.

Import DomFacts OverlayFacts RefreshFacts PageFacts ManagedFacts ManagedApply.

Local Open Scope nat_scope.

(** *** Stores that differ in style, load state and listeners *)

Lemma similarStore_lookup d d' a e' :
  similarStore d d' → d' !! a = Some e' →
  ∃ e, d !! a = Some e ∧ similar e e'.
Proof.
  intros Hs Ha. specialize (Hs a). rewrite Ha in Hs.
  destruct (d !! a) as [e|]; [|done]. by exists e.
Qed.

Lemma similarStore_lookup_1 d d' a e :
  similarStore d d' → d !! a = Some e →
  ∃ e', d' !! a = Some e' ∧ similar e e'.
Proof.
  intros Hs Ha. specialize (Hs a). rewrite Ha in Hs.
  destruct (d' !! a) as [e'|]; [|done]. by exists e'.
Qed.

Lemma similarStore_sameTree d d' : similarStore d d' → sameTree d d'.
Proof.
  intros Hs a. specialize (Hs a).
  destruct (d !! a) as [e|], (d' !! a) as [e'|]; try done.
  destruct Hs as (_ & Hc & _ & Hp & Hch). simpl. by rewrite Hc, Hp, Hch.
Qed.

Lemma similarStore_alter (f : element → element) n (d : gmap positive element) :
  (∀ e, similar e (f e)) → similarStore d (alter f n d).
Proof.
  intros Hf a. destruct (decide (a = n)) as [->|Hne].
  - rewrite lookup_alter_eq. destruct (d !! n); simpl; [apply Hf | done].
  - rewrite lookup_alter_ne by done. by destruct (d !! a).
Qed.

Lemma similarStore_refl d : similarStore d d.
Proof. intros a. by destruct (d !! a). Qed.

Lemma similarStore_trans d1 d2 d3 :
  similarStore d1 d2 → similarStore d2 d3 → similarStore d1 d3.
Proof.
  intros H1 H2 a. specialize (H1 a). specialize (H2 a).
  destruct (d1 !! a), (d2 !! a), (d3 !! a); try done.
  destruct H1 as (?&?&?&?&?), H2 as (?&?&?&?&?). repeat split; congruence.
Qed.

Lemma processed_similar d d' i w o :
  similarStore d d' → processed d i w o → processed d' i w o.
Proof.
  intros Hs (ei & ew & eo & Hov & Ht & Hmk). open_overlaid Hov.
  destruct (similarStore_lookup_1 d d' i ei Hs Hi) as (ei' & Hi' & Hsi).
  destruct (similarStore_lookup_1 d d' w ew Hs Hw) as (ew' & Hw' & Hsw).
  destruct (similarStore_lookup_1 d d' o eo Hs Ho) as (eo' & Ho' & Hso).
  destruct Hsi as (Ti & Ci & Ai & Pi & Chi).
  destruct Hsw as (Tw & Cw & Aw & Pw & Chw).
  destruct Hso as (To & Co & Ao & Po & Cho).
  exists ei', ew', eo'. split; [|split].
  - constructor; try done; congruence.
  - congruence.
  - unfold marked in *. congruence.
Qed.

Lemma managed_similar d d' :
  managed d → similarStore d d' →
  (∀ x ex, d' !! x = Some ex → loadListeners ex ≠ [] → tagName ex = "img"%string) →
  managed d'.
Proof.
  intros [[depth Hwf] Himg Hwr Hov Hmk Hls] Hs Hls'. constructor.
  - exists depth. eapply wellFormedWith_sameTree; [done|].
    by apply similarStore_sameTree.
  - intros x ex' Hx Ht.
    destruct (similarStore_lookup d d' x ex' Hs Hx) as (ex & Hex & (T & C & A & P & Ch)).
    rewrite Ch, C. apply (Himg x ex Hex). congruence.
  - intros x ex' Hx Hc.
    destruct (similarStore_lookup d d' x ex' Hs Hx) as (ex & Hex & (T & C & A & P & Ch)).
    rewrite C in Hc. destruct (Hwr x ex Hex Hc) as (i & o & Hpr).
    exists i, o. by apply (processed_similar d d').
  - intros x ex' Hx Hc.
    destruct (similarStore_lookup d d' x ex' Hs Hx) as (ex & Hex & (T & C & A & P & Ch)).
    rewrite C in Hc. destruct (Hov x ex Hex Hc) as (i & w & Hpr).
    exists i, w. by apply (processed_similar d d').
  - intros x ex' Hx Ht Hm.
    destruct (similarStore_lookup d d' x ex' Hs Hx) as (ex & Hex & (T & C & A & P & Ch)).
    destruct (Hmk x ex Hex) as (w & o & Hpr); [congruence | |].
    { unfold marked in *. congruence. }
    exists w, o. by apply (processed_similar d d').
  - done.
Qed.

End ManagedRun.

(** ** [applyNoise] on a managed document *)

Module ManagedBase.

Import DomFacts OverlayFacts RefreshFacts PageFacts ManagedFacts ManagedApply
  ManagedRun.

Local Open Scope nat_scope.

Lemma grown_refl e : grown e e.
Proof. by repeat split. Qed.

Lemma grows_refl d : grows d d.
Proof. intros x e He. exists e. split; [done | apply grown_refl]. Qed.

Lemma grown_trans e1 e2 e3 : grown e1 e2 → grown e2 e3 → grown e1 e3.
Proof.
  intros (T & L & P & N & M & A & Li) (T' & L' & P' & N' & M' & A' & Li').
  repeat split; try congruence; auto.
  - intros H. rewrite A' by congruence. by apply A.
Qed.

Lemma grows_trans d1 d2 d3 : grows d1 d2 → grows d2 d3 → grows d1 d3.
Proof.
  intros H1 H2 x e He. destruct (H1 x e He) as (e2 & He2 & Hg).
  destruct (H2 x e2 He2) as (e3 & He3 & Hg').
  exists e3. split; [done|]. by eapply grown_trans.
Qed.

Lemma grows_alter (f : element → element) n (d : gmap positive element) :
  (∀ e, d !! n = Some e → grown e (f e)) → grows d (alter f n d).
Proof.
  intros Hf x e He. destruct (decide (x = n)) as [->|Hne].
  - rewrite lookup_alter_eq, He. simpl. exists (f e). split; [done|]. by apply Hf.
  - rewrite lookup_alter_ne by done. exists e. split; [done | apply grown_refl].
Qed.

Lemma matchesTag_true (d : gmap positive element) tag a :
  matchesTag d tag a = true ↔ ∃ e, d !! a = Some e ∧ tagName e = tag.
Proof.
  unfold matchesTag. destruct (d !! a) as [e|].
  - rewrite String.eqb_eq. split; [by eauto|]. by intros (? & [= <-] & ?).
  - split; [done|]. by intros (? & ? & _).
Qed.

Lemma grown_wrapped e w :
  loaded e = true → parentNode e ≠ None →
  grown e (withAttributes (<[NOISE_APPLIED_ATTR := "true"%string]> (attributes e))
             (withParentNode (Some w) e)).
Proof.
  intros Hl Hp. unfold grown. split; [done|]. split; [done|].
  split; [done|]. split; [done|]. split.
  { intros _. unfold marked. simpl. by rewrite lookup_insert_eq. }
  split; [congruence | done].
Qed.

(** [doApply] on a processed image changes nothing. *)
Lemma base_doApply_processed pg i w o :
  processed (nodes pg) i w o → Base.doApply i pg = pg.
Proof.
  intros Hpr. pose proof (processed_found _ _ _ _ Hpr) as (Hc & Hq & Ha).
  destruct Hpr as (ei & ew & eo & Hov & _ & Hmk). open_overlaid Hov.
  unfold Base.doApply, ensureWrapper. rewrite Hc.
  unfold querySelector. rewrite Hq. simpl.
  rewrite (setAttribute_same _ i ei) by done. apply withNodes_id.
Qed.

Lemma ensureWrapper_detached d i e :
  d !! i = Some e → parentNode e = None →
  closest d NOISE_WRAPPER_CLASS i = None →
  ensureWrapper i d = (None, d).
Proof.
  intros He Hp Hc. unfold ensureWrapper. by rewrite Hc, He; simpl; rewrite Hp.
Qed.

(** An unprocessed image with a parent, in a managed document, is a
    plain image. *)
Lemma managed_plain d depth i e p :
  managed d → wellFormedWith depth d →
  d !! i = Some e → tagName e = "img"%string → ¬ marked e →
  loaded e = true → parentNode e = Some p →
  ∃ ep, plainImage d i e p ep.
Proof.
  intros Hm Hwf He Ht Hnm Hl Hp.
  destruct (parent_in_store depth d i e p Hwf He Hp) as (ep & Hep & Hin & Hlt).
  destruct (mg_img d Hm i e He Ht) as (Hc & Hnw & Hno).
  exists ep. constructor; try done.
  - intros ->. lia.
  - by apply (managed_unwrapped d i e).
Qed.

Lemma base_doApply_managed pg i e :
  managed (nodes pg) → nodes pg !! i = Some e → tagName e = "img"%string →
  loaded e = true →
  managed (nodes (Base.doApply i pg))
  ∧ grows (nodes pg) (nodes (Base.doApply i pg))
  ∧ (parentNode e ≠ None →
     ∃ e', nodes (Base.doApply i pg) !! i = Some e' ∧ marked e').
Proof.
  intros Hm He Ht Hl.
  destruct (decide (marked e)) as [Hmk|Hnm].
  { destruct (mg_marked _ Hm i e He Ht Hmk) as (w & o & Hpr).
    rewrite (base_doApply_processed pg i w o Hpr).
    split; [done|]. split; [apply grows_refl|]. intros _. by exists e. }
  destruct (parentNode e) as [p|] eqn:Hp.
  2:{ unfold Base.doApply.
      rewrite (ensureWrapper_detached _ i e) by
        (try done; by apply (managed_unwrapped _ i e)).
      simpl. split; [done|]. split; [apply grows_refl | done]. }
  pose proof (mg_wf _ Hm) as [depth Hwf].
  destruct (managed_plain _ depth i e p Hm Hwf He Ht Hnm Hl Hp) as (ep & Hplain).
  destruct (doApply_new (nodes pg) i e p ep Hplain pg eq_refl) as [-> _].
  simpl. split; [|split].
  - by apply (ma_managed (nodes pg) i e p ep _ _ depth).
  - intros x ex Hx.
    pose proof Hplain as [Hpl Hld Hcl Hpp Hppl Hipn Hnov Hunw].
    destruct (decide (x = i)) as [->|Hxi].
    { rewrite (ma_i (nodes pg) i e p ep _ _ Hplain).
      eexists. split; [done|]. rewrite He in Hx. injection Hx as <-.
      apply grown_wrapped; congruence. }
    destruct (decide (x = p)) as [->|Hxp].
    { rewrite (ma_p (nodes pg) i e p ep _ _ Hplain).
      eexists. split; [done|]. rewrite Hppl in Hx. injection Hx as <-.
      by repeat split. }
    rewrite (ma_old (nodes pg) i e p ep _ _ Hplain x ex) by done.
    exists ex. split; [done | apply grown_refl].
  - intros _. rewrite (ma_i (nodes pg) i e p ep _ _ Hplain).
    eexists. split; [done|]. unfold marked. simpl. by rewrite lookup_insert_eq.
Qed.


Lemma similar_listen e l :
  similar e (withLoadListeners (loadListeners e ++ [l]) e).
Proof. by repeat split. Qed.

Lemma managed_addLoadListener d i e l :
  managed d → d !! i = Some e → tagName e = "img"%string →
  managed (addLoadListener i l d).
Proof.
  intros Hm He Ht. apply (managed_similar d); [done | |].
  - apply similarStore_alter. intros e0. apply similar_listen.
  - intros x ex Hx Hl. unfold addLoadListener in Hx.
    destruct (decide (x = i)) as [->|Hne].
    + rewrite lookup_alter_eq, He in Hx. simpl in Hx. by injection Hx as <-.
    + rewrite lookup_alter_ne in Hx by done. by apply (mg_listeners d Hm x ex).
Qed.

Lemma grows_addLoadListener d i l : grows d (addLoadListener i l d).
Proof.
  apply grows_alter. intros e _. repeat split; try done.
  simpl. intros H. apply elem_of_app. by left.
Qed.

(** What [applyNoise] does to an image of a managed document. *)
Lemma base_applyNoise_managed pg i e :
  managed (nodes pg) → nodes pg !! i = Some e → tagName e = "img"%string →
  let pg' := Base.applyNoise i pg in
  managed (nodes pg')
  ∧ grows (nodes pg) (nodes pg')
  ∧ (loaded e = true → parentNode e ≠ None →
     ∃ e', nodes pg' !! i = Some e' ∧ marked e')
  ∧ (loaded e = false → ¬ marked e →
     ∃ e', nodes pg' !! i = Some e' ∧ ApplyOnLoad ∈ loadListeners e').
Proof.
  intros Hm He Ht pg'. unfold pg', Base.applyNoise. rewrite He.
  case_bool_decide as Hmk.
  { split; [done|]. split; [apply grows_refl|]. split.
    - intros _ _. by exists e.
    - intros _ Hn. by destruct Hn. }
  destruct (loaded e) eqn:Hl.
  - destruct (base_doApply_managed pg i e Hm He Ht Hl) as (H1 & H2 & H3).
    split; [done|]. split; [done|]. split; [by intros _|done].
  - simpl. split; [by apply (managed_addLoadListener _ i e)|].
    split; [apply grows_addLoadListener|]. split; [done|].
    intros _ _. unfold addLoadListener. rewrite lookup_alter_eq, He. simpl.
    eexists. split; [done|]. simpl. apply elem_of_app. right.
    apply list_elem_of_here.
Qed.

(** [applyNoise] over a list of images. *)
Lemma base_applyNoise_fold l :
  ∀ pg,
    managed (nodes pg) →
    (∀ j, j ∈ l → matchesTag (nodes pg) "img" j = true) →
    let pg' := foldl (λ pg image, Base.applyNoise image pg) pg l in
    managed (nodes pg')
    ∧ grows (nodes pg) (nodes pg')
    ∧ ∀ j e, j ∈ l → nodes pg !! j = Some e →
        (loaded e = true → parentNode e ≠ None →
         ∃ e', nodes pg' !! j = Some e' ∧ marked e')
        ∧ (loaded e = false → ¬ marked e →
           ∃ e', nodes pg' !! j = Some e' ∧ ApplyOnLoad ∈ loadListeners e'
                 ∧ ¬ marked e').
Proof.
  induction l as [|j0 l IH]; intros pg Hm Hl.
  { simpl. split; [done|]. split; [apply grows_refl|].
    intros j e Hj. by apply elem_of_nil in Hj. }
  simpl.
  destruct (proj1 (matchesTag_true _ _ _) (Hl j0 (list_elem_of_here _ _)))
    as (e0 & He0 & Ht0).
  destruct (base_applyNoise_managed pg j0 e0 Hm He0 Ht0) as (Hm1 & Hg1 & Hd1 & Hw1).
  set (pg1 := Base.applyNoise j0 pg) in *.
  assert (∀ j, j ∈ l → matchesTag (nodes pg1) "img" j = true) as Hl1.
  { intros j Hj.
    destruct (proj1 (matchesTag_true _ _ _) (Hl j (list_elem_of_further _ _ _ Hj)))
      as (e & He & Ht).
    destruct (Hg1 j e He) as (e1 & He1 & (T & _)).
    apply matchesTag_true. exists e1. split; [done | congruence]. }
  destruct (IH pg1 Hm1 Hl1) as (Hm' & Hg' & Hall).
  split; [done|]. split; [by eapply grows_trans|].
  intros j e Hj He.
  destruct (Hg1 j e He) as (e1 & He1 & Hgr1).
  pose proof Hgr1 as (T1 & L1 & P1 & N1 & M1 & A1 & Li1).
  destruct (Hg' j e1 He1) as (e' & He' & Hgr').
  pose proof Hgr' as (T' & L' & P' & N' & M' & A' & Li').
  split.
  - intros Hld Hp. exists e'. split; [done|].
    apply elem_of_cons in Hj as [->|Hj].
    + rewrite He0 in He. injection He as <-.
      destruct (Hd1 Hld Hp) as (e1' & He1' & Hmk1).
      rewrite He1 in He1'. injection He1' as <-. by apply M'.
    + destruct (Hall j e1 Hj He1) as (Hd & _).
      destruct Hd as (e'' & He'' & Hmk''); [congruence | by apply P1 |].
      rewrite He' in He''. by injection He'' as <-.
  - intros Hld Hnm. exists e'. split; [done|].
    assert (attributes e' = attributes e) as Hattr.
    { rewrite A' by congruence. by apply A1. }
    split; [|unfold marked in *; congruence].
    apply elem_of_cons in Hj as [->|Hj].
    + rewrite He0 in He. injection He as <-.
      destruct (Hw1 Hld Hnm) as (e1' & He1' & Hin1).
      rewrite He1 in He1'. injection He1' as <-. by apply Li'.
    + destruct (Hall j e1 Hj He1) as (_ & Hw).
      destruct Hw as (e'' & He'' & Hin'' & _); [congruence | |].
      { unfold marked in *. rewrite A1 by done. done. }
      rewrite He' in He''. by injection He'' as <-.
Qed.

Lemma cleanPage_managed d : cleanPage d → managed d.
Proof.
  intros [Hwf Himg Hcls Hls]. constructor; try done.
  - intros x ex Hx Ht. destruct (Himg x ex Hx Ht) as [Hc _].
    destruct (Hcls x ex Hx) as [? ?]. done.
  - intros x ex Hx Hc. by destruct (Hcls x ex Hx) as [? _].
  - intros x ex Hx Hc. by destruct (Hcls x ex Hx) as [_ ?].
  - intros x ex Hx Ht Hmk. by destruct (Himg x ex Hx Ht) as [_ ?].
  - intros x ex Hx Hl. by rewrite (Hls x ex Hx) in Hl.
Qed.

End ManagedBase.

(** ** The events of the page-wide script on a managed document *)

Module ManagedEvents.

Import DomFacts OverlayFacts RefreshFacts PageFacts ManagedFacts ManagedApply
  ManagedRun ManagedBase.

Local Open Scope nat_scope.

Lemma similar_style bg op e : similar e (withStyle bg op e).
Proof. by repeat split. Qed.

Lemma refreshAllOverlays_similar pg :
  similarStore (nodes pg) (nodes (refreshAllOverlays pg))
  ∧ ∀ x ex', nodes (refreshAllOverlays pg) !! x = Some ex' →
      ∃ ex, nodes pg !! x = Some ex ∧ loadListeners ex' = loadListeners ex
            ∧ tagName ex' = tagName ex.
Proof.
  split.
  - intros a. rewrite refreshAllOverlays_lookup. case_bool_decide.
    + destruct (nodes pg !! a); simpl; [|done]. apply similar_style.
    + by destruct (nodes pg !! a).
  - intros x ex'. rewrite refreshAllOverlays_lookup. case_bool_decide.
    + destruct (nodes pg !! x) as [ex|]; simpl; [|done].
      intros [= <-]. by exists ex.
    + intros Hx. by exists ex'.
Qed.

Lemma managed_refreshAllOverlays pg :
  managed (nodes pg) → managed (nodes (refreshAllOverlays pg)).
Proof.
  intros Hm. destruct (refreshAllOverlays_similar pg) as [Hs Hl].
  apply (managed_similar (nodes pg)); [done..|].
  intros x ex' Hx Hne. destruct (Hl x ex' Hx) as (ex & Hex & Hll & Ht).
  rewrite Ht. apply (mg_listeners _ Hm x ex Hex). congruence.
Qed.

Lemma managed_base_applySettings pat raw pg :
  managed (nodes pg) → managed (nodes (Base.applySettings pat raw pg)).
Proof.
  intros Hm. unfold Base.applySettings.
  by apply (managed_refreshAllOverlays
              (Page (nodes pg) (documentElement pg) (body pg)
                    (normalizeSettings raw) pat)).
Qed.

Lemma managed_onStorageChanged pat changes areaName pg :
  managed (nodes pg) →
  managed (nodes (Base.onStorageChanged pat changes areaName pg)).
Proof.
  intros Hm. unfold Base.onStorageChanged.
  destruct (storageUpdate _ _ _); [|done].
  by apply managed_base_applySettings.
Qed.

Lemma managed_onAddedNode node pg :
  managed (nodes pg) → managed (nodes (Base.onAddedNode node pg)).
Proof.
  intros Hm. unfold Base.onAddedNode.
  destruct (matchesTag (nodes pg) "img" node) eqn:Ht.
  - apply matchesTag_true in Ht as (e & He & Ht).
    by apply (base_applyNoise_managed pg node e).
  - apply base_applyNoise_fold; [done|].
    intros j Hj. by apply list_elem_of_filter in Hj as [? _].
Qed.

Lemma managed_onMutations added pg :
  managed (nodes pg) → managed (nodes (Base.onMutations added pg)).
Proof.
  revert pg. induction added as [|n added IH]; intros pg Hm; [done|].
  simpl. apply IH. by apply managed_onAddedNode.
Qed.

(** The listeners of a [load] event, run one after the other. *)
Lemma base_listeners_managed i l :
  ∀ pg e,
    managed (nodes pg) → nodes pg !! i = Some e → tagName e = "img"%string →
    loaded e = true →
    let pg' := foldl (λ pg l, Base.runListener i l pg) pg l in
    managed (nodes pg')
    ∧ (marked e ∨ ApplyOnLoad ∈ l → parentNode e ≠ None →
       ∃ e', nodes pg' !! i = Some e' ∧ marked e'
             ∧ tagName e' = "img"%string).
Proof.
  induction l as [|x l IH]; intros pg e Hm He Ht Hl.
  { simpl. split; [done|]. intros [Hmk|H] _; [by exists e|].
    by apply elem_of_nil in H. }
  simpl. destruct x as [|s]; simpl.
  - destruct (base_doApply_managed pg i e Hm He Ht Hl) as (Hm1 & Hg1 & Hd1).
    destruct (Hg1 i e He) as (e1 & He1 & (T & L & P & N & M & A & Li)).
    destruct (IH (Base.doApply i pg) e1 Hm1 He1) as (Hm' & H');
      [congruence | congruence |].
    split; [done|]. intros _ Hp. apply H'; [|by apply P].
    left. destruct (Hd1 Hp) as (e1' & He1' & Hmk).
    rewrite He1 in He1'. by injection He1' as <-.
  - destruct (IH pg e Hm He Ht Hl) as (Hm' & H').
    split; [done|]. intros Hin Hp. apply H'; [|done].
    destruct Hin as [?|Hin]; [by left|]. right.
    by apply elem_of_cons in Hin as [?|?].
Qed.

Lemma similar_markLoaded w h e :
  similar e (withLoadListeners [] (withLoaded w h e)).
Proof. by repeat split. Qed.

Lemma base_fireLoad_managed i w h pg :
  managed (nodes pg) → (0 < w)%N →
  managed (nodes (Base.fireLoad i w h pg))
  ∧ ∀ e, nodes pg !! i = Some e → ApplyOnLoad ∈ loadListeners e →
         parentNode e ≠ None →
         ∃ e', nodes (Base.fireLoad i w h pg) !! i = Some e' ∧ marked e'
               ∧ tagName e' = "img"%string.
Proof.
  intros Hm Hw. unfold Base.fireLoad.
  destruct (nodes pg !! i) as [e|] eqn:He; [|by split].
  set (d1 := alter (λ e, withLoadListeners [] (withLoaded w h e)) i (nodes pg)).
  assert (managed d1) as Hm1.
  { apply (managed_similar (nodes pg)); [done | |].
    - apply similarStore_alter. intros e0. apply similar_markLoaded.
    - intros x ex Hx Hl. unfold d1 in Hx.
      destruct (decide (x = i)) as [->|Hne].
      + rewrite lookup_alter_eq, He in Hx. simpl in Hx. by injection Hx as <-.
      + rewrite lookup_alter_ne in Hx by done.
        by apply (mg_listeners _ Hm x ex). }
  assert (d1 !! i = Some (withLoadListeners [] (withLoaded w h e))) as He1.
  { unfold d1. by rewrite lookup_alter_eq, He. }
  destruct (decide (loadListeners e = [])) as [Hnil|Hne].
  { rewrite Hnil. simpl. split; [done|]. intros e0 [= <-] Hin.
    rewrite Hnil in Hin. by apply elem_of_nil in Hin. }
  pose proof (mg_listeners _ Hm i e He Hne) as Ht.
  destruct (base_listeners_managed i (loadListeners e) (withNodes d1 pg)
              (withLoadListeners [] (withLoaded w h e)) Hm1 He1 Ht)
    as (Hm' & H').
  { unfold loaded. simpl. by apply N.ltb_lt. }
  split; [done|]. intros e0 [= <-] Hin Hp. apply H'; [by right | done].
Qed.

Lemma base_step_managed ev pg :
  managed (nodes pg) →
  match ev with Startup.Load _ w _ => (0 < w)%N | _ => True end →
  managed (nodes (Startup.step ev pg)).
Proof.
  intros Hm Hpos. destruct ev as [i w h|added|pat changes areaName]; simpl.
  - by apply base_fireLoad_managed.
  - by apply managed_onMutations.
  - by apply managed_onStorageChanged.
Qed.

Lemma base_run_managed events pg :
  managed (nodes pg) → positiveLoads events →
  managed (nodes (Startup.run events pg)).
Proof.
  intros Hm Hpos. revert pg Hm.
  induction Hpos as [|ev events Hev _ IH]; intros pg Hm; [done|].
  simpl. apply IH. by apply base_step_managed.
Qed.

End ManagedEvents.

(** ** The scan at start-up *)

Module PageWide.

Import DomFacts OverlayFacts RefreshFacts PageFacts ManagedFacts ManagedApply
  ManagedRun ManagedBase ManagedEvents.

Local Open Scope nat_scope.

Lemma filter_none {A} (P : A → Prop) `{∀ x, Decision (P x)} (l : list A) :
  (∀ x, x ∈ l → ¬ P x) → filter P l = [].
Proof.
  induction l as [|x l IH]; intros Hl; [done|].
  rewrite filter_cons_False by (apply Hl, list_elem_of_here).
  apply IH. intros y Hy. apply Hl. by right.
Qed.

Lemma cleanPage_no_overlays d root :
  cleanPage d → documentQuerySelectorAll d root NOISE_OVERLAY_CLASS = [].
Proof.
  intros Hc. unfold documentQuerySelectorAll. apply filter_none.
  intros x _ Hx. apply matchesClass_true in Hx as (e & He & Hcls).
  by destruct (cp_classes d Hc x e He) as [_ ?].
Qed.

Lemma cleanPage_applySettings pat raw pg :
  cleanPage (nodes pg) → nodes (Base.applySettings pat raw pg) = nodes pg.
Proof.
  intros Hc. unfold Base.applySettings, refreshAllOverlays. simpl.
  by rewrite cleanPage_no_overlays.
Qed.

Lemma managed_marked_oneOverlay d x ex :
  managed d → d !! x = Some ex → tagName ex = "img"%string → marked ex →
  oneOverlay d x.
Proof.
  intros Hm Hx Ht Hmk. destruct (mg_marked d Hm x ex Hx Ht Hmk) as (w & o & Hpr).
  by apply (processed_oneOverlay d x w o).
Qed.

(** The outcome of a scan, for the images of the list scanned. *)
Lemma scan_outcome pg :
  managed (nodes pg) →
  let pg' := Base.scanExistingImages pg in
  managed (nodes pg')
  ∧ grows (nodes pg) (nodes pg')
  ∧ ∀ j e,
      j ∈ documentNodes (nodes pg) (documentElement pg) →
      nodes pg !! j = Some e → tagName e = "img"%string →
      (loaded e = true → parentNode e ≠ None → oneOverlay (nodes pg') j)
      ∧ (loaded e = false → ¬ marked e →
         closest (nodes pg') NOISE_WRAPPER_CLASS j = None
         ∧ ∃ e', nodes pg' !! j = Some e' ∧ ApplyOnLoad ∈ loadListeners e'
                 ∧ ¬ marked e').
Proof.
  intros Hm pg'. unfold pg', Base.scanExistingImages.
  set (l := filter (λ a, matchesTag (nodes pg) "img" a = true)
              (documentNodes (nodes pg) (documentElement pg))).
  destruct (base_applyNoise_fold l pg Hm) as (Hm' & Hg & Hall).
  { intros j Hj. by apply list_elem_of_filter in Hj as [? _]. }
  split; [done|]. split; [done|].
  intros j e Hj He Ht.
  assert (j ∈ l) as Hjl.
  { apply list_elem_of_filter. split; [|done].
    apply matchesTag_true. by exists e. }
  destruct (Hall j e Hjl He) as [Hd Hw].
  destruct (Hg j e He) as (e1 & He1 & (T & _)).
  split.
  - intros Hl Hp. destruct (Hd Hl Hp) as (e' & He' & Hmk).
    apply (managed_marked_oneOverlay _ j e'); try done.
    rewrite He1 in He'. injection He' as <-. congruence.
  - intros Hl Hnm. destruct (Hw Hl Hnm) as (e' & He' & Hin & Hnm').
    split; [|by exists e'].
    apply (managed_unwrapped _ j e'); try done.
    rewrite He1 in He'. injection He' as <-. congruence.
Qed.

(** X13.  On a page that the script has not touched, [start] gives
    every image of the document that has finished loading and has a
    parent exactly one overlay, in a wrapper of its own, and marks it;
    an image that is still loading is left unwrapped and unmarked, with
    the [load] listener registered.  The document is then in the
    managed shape, hence well-formed.  Loading the settings changes no
    node of such a page. *)
Theorem start_overlays_images (storage : option (gmap string jsval))
    (pat : string) (pg : page) :
  cleanPage (nodes pg) →
  let pg' := Startup.start storage pat pg in
  nodes (Base.applySettings pat (Startup.initialItems storage) pg) = nodes pg
  ∧ managed (nodes pg') ∧ wellFormed (nodes pg')
  ∧ ∀ j e,
      j ∈ documentNodes (nodes pg) (documentElement pg) →
      nodes pg !! j = Some e → tagName e = "img"%string →
      (loaded e = true → parentNode e ≠ None → oneOverlay (nodes pg') j)
      ∧ (loaded e = false →
         closest (nodes pg') NOISE_WRAPPER_CLASS j = None
         ∧ ∃ e', nodes pg' !! j = Some e' ∧ ApplyOnLoad ∈ loadListeners e'
                 ∧ ¬ marked e').
Proof.
  intros Hc pg'.
  set (pg1 := Base.applySettings pat (Startup.initialItems storage) pg).
  assert (nodes pg1 = nodes pg) as Hn by by apply cleanPage_applySettings.
  assert (managed (nodes pg1)) as Hm1.
  { rewrite Hn. by apply cleanPage_managed. }
  destruct (scan_outcome pg1 Hm1) as (Hm' & Hg & Hall).
  split; [done|]. split; [done|]. split; [by apply mg_wf|].
  intros j e Hj He Ht.
  destruct (Hall j e) as [Hd Hw]; [by rewrite Hn | by rewrite Hn | done |].
  split; [done|]. intros Hl. apply Hw; [done|].
  by destruct (cp_img _ Hc j e He Ht) as [_ ?].
Qed.

Lemma sample_clean : cleanPage Sample.document.
Proof.
  constructor.
  - apply sample_wellFormed.
  - intros x ex Hx Ht. unfold Sample.document in Hx.
    repeat (apply lookup_insert_Some in Hx as [[<- <-]|[_ Hx]];
            [try done; by split|]).
    done.
  - intros x ex Hx. unfold Sample.document in Hx.
    repeat (apply lookup_insert_Some in Hx as [[<- <-]|[_ Hx]];
            [split; apply not_elem_of_nil|]).
    done.
  - intros x ex Hx. unfold Sample.document in Hx.
    repeat (apply lookup_insert_Some in Hx as [[<- <-]|[_ Hx]]; [done|]).
    done.
Qed.

Lemma start_overlays_images_witness :
  oneOverlay (nodes (Startup.start None "data:," Sample.page0)) 3
  ∧ oneOverlay (nodes (Startup.start None "data:," Sample.page0)) 4
  ∧ closest (nodes (Startup.start None "data:," Sample.page0))
      NOISE_WRAPPER_CLASS 5 = None.
Proof.
  destruct (start_overlays_images None "data:," Sample.page0 sample_clean)
    as (_ & _ & _ & H).
  split; [|split].
  - apply (H 3%positive (Sample.image 2 true 640 480)); try done.
    vm_compute. apply list_elem_of_In. simpl. tauto.
  - apply (H 4%positive (Sample.image 2 true 320 200)); try done.
    vm_compute. apply list_elem_of_In. simpl. tauto.
  - apply (H 5%positive (Sample.image 2 false 0 0)); try done.
    vm_compute. apply list_elem_of_In. simpl. tauto.
Defined.

End PageWide.

(** ** The page-wide script over a run of events *)

Module PageWideRun.

Import DomFacts OverlayFacts RefreshFacts PageFacts ManagedFacts ManagedApply
  ManagedRun ManagedBase ManagedEvents PageWide.

Local Open Scope nat_scope.

(** X14.  The page-wide script keeps the document in shape.  From a
    managed document (in particular from a page the script has just
    started on), after every run of events whose [load] events deliver
    images of positive width: the tree is well-formed; every element
    with the wrapper class holds exactly an image and its overlay; every
    element with the overlay class is the one overlay of an image; and
    every marked image has exactly one overlay. *)
Theorem page_stays_managed (events : list Startup.event) (pg : page) :
  positiveLoads events →
  (managed (nodes pg) ∨
   ∃ storage pat pg0, cleanPage (nodes pg0) ∧ pg = Startup.start storage pat pg0) →
  let d := nodes (Startup.run events pg) in
  managed d ∧ wellFormed d
  ∧ (∀ x ex, d !! x = Some ex → NOISE_WRAPPER_CLASS ∈ className ex →
       ∃ i o, childNodes ex = [i; o] ∧ oneOverlay d i
              ∧ closest d NOISE_WRAPPER_CLASS i = Some x
              ∧ querySelectorAll d x NOISE_OVERLAY_CLASS = [o])
  ∧ (∀ x ex, d !! x = Some ex → NOISE_OVERLAY_CLASS ∈ className ex →
       ∃ i w, closest d NOISE_WRAPPER_CLASS i = Some w
              ∧ querySelectorAll d w NOISE_OVERLAY_CLASS = [x])
  ∧ (∀ x ex, d !! x = Some ex → tagName ex = "img"%string → marked ex →
       oneOverlay d x).
Proof.
  intros Hpos Hstart d.
  assert (managed (nodes pg)) as Hm0.
  { destruct Hstart as [?|(storage & pat & pg0 & Hc & ->)]; [done|].
    by apply start_overlays_images. }
  assert (managed d) as Hm by by apply base_run_managed.
  split; [done|]. split; [by apply mg_wf|]. split; [|split].
  - intros x ex Hx Hc. destruct (mg_wrapper d Hm x ex Hx Hc) as (i & o & Hpr).
    exists i, o. pose proof (processed_found d i x o Hpr) as (H1 & H2 & H3).
    split; [|split; [by apply (processed_oneOverlay d i x o)|done]].
    destruct Hpr as (ei & ew & eo & Hov & _). open_overlaid Hov.
    rewrite Hx in Hw. by injection Hw as <-.
  - intros x ex Hx Hc. destruct (mg_overlay d Hm x ex Hx Hc) as (i & w & Hpr).
    exists i, w. by pose proof (processed_found d i w x Hpr) as (H1 & H2 & H3).
  - intros x ex Hx Ht Hmk. by apply (managed_marked_oneOverlay d x ex).
Qed.

Lemma page_stays_managed_witness :
  wellFormed
    (nodes (Startup.run
              [Startup.Load 5 100 100;
               Startup.StorageChanged "data:,"
                 {[ "intensity" := StorageChange JUndefined (JNumber (Fin 50)) ]}
                 "local";
               Startup.Mutations [3%positive]]
              (Startup.start None "data:," Sample.page0))).
Proof.
  apply (page_stays_managed
           [Startup.Load 5 100 100;
            Startup.StorageChanged "data:,"
              {[ "intensity" := StorageChange JUndefined (JNumber (Fin 50)) ]}
              "local";
            Startup.Mutations [3%positive]]
           (Startup.start None "data:," Sample.page0)).
  - repeat constructor.
  - right. exists None, "data:,", Sample.page0. split; [apply sample_clean | done].
Defined.

(** X15.  An image that is still loading when the script starts gets its
    overlay when it has loaded: after [start] on an untouched page, the
    [load] event of such an image of the document (with a parent, and a
    positive natural width) leaves it with exactly one overlay, and the
    document managed. *)
Theorem loading_image_overlaid_on_load (storage : option (gmap string jsval))
    (pat : string) (pg : page) (j : positive) (e : element) (w h : N) :
  cleanPage (nodes pg) →
  j ∈ documentNodes (nodes pg) (documentElement pg) →
  nodes pg !! j = Some e → tagName e = "img"%string →
  loaded e = false → parentNode e ≠ None → (0 < w)%N →
  let pg' := Base.fireLoad j w h (Startup.start storage pat pg) in
  oneOverlay (nodes pg') j ∧ managed (nodes pg').
Proof.
  intros Hc Hj He Ht Hl Hp Hw pg'.
  destruct (start_overlays_images storage pat pg Hc) as (Hn & Hm & _ & Hall).
  destruct (Hall j e Hj He Ht) as [_ Hload].
  destruct (Hload Hl) as (_ & e' & He' & Hin & Hnm).
  assert (parentNode e' ≠ None) as Hp'.
  { set (pg1 := Base.applySettings pat (Startup.initialItems storage) pg) in *.
    assert (managed (nodes pg1)) as Hm1.
    { rewrite Hn. by apply cleanPage_managed. }
    destruct (scan_outcome pg1 Hm1) as (_ & Hg & _).
    destruct (Hg j e) as (e1 & He1 & (_ & _ & P & _)); [by rewrite Hn|].
    unfold Startup.start in He'. fold pg1 in He'.
    rewrite He1 in He'. injection He' as <-. by apply P. }
  destruct (base_fireLoad_managed j w h (Startup.start storage pat pg) Hm Hw)
    as (Hm' & Hmk).
  destruct (Hmk e' He' Hin Hp') as (e'' & He'' & Hmk'' & Ht'').
  split; [|done]. by apply (managed_marked_oneOverlay _ j e'').
Qed.

Lemma loading_image_overlaid_on_load_witness :
  oneOverlay
    (nodes (Base.fireLoad 5 100 100 (Startup.start None "data:," Sample.page0)))
    5.
Proof.
  apply (loading_image_overlaid_on_load None "data:," Sample.page0 5
           (Sample.image 2 false 0 0) 100 100); try done.
  - apply sample_clean.
  - vm_compute. apply list_elem_of_In. simpl. tauto.
Defined.

End PageWideRun.

(** ** The mutation observer *)

Module ObserverFacts.

Import DomFacts OverlayFacts RefreshFacts PageFacts ManagedFacts ManagedApply
  ManagedRun ManagedBase ManagedEvents PageWide.

Local Open Scope nat_scope.

Lemma descendants_pair (d : gmap positive element) w ew i ei o eo :
  d !! w = Some ew → childNodes ew = [i; o] →
  d !! i = Some ei → childNodes ei = [] →
  d !! o = Some eo → childNodes eo = [] →
  descendants (size d) d w = [i; o].
Proof.
  intros Hw Hcw Hi Hci Ho Hco.
  pose proof (size_one d w (mk_is_Some _ _ Hw)) as Hs.
  destruct (size d) as [|f]; [lia|]. simpl. rewrite Hw, Hcw. simpl.
  by rewrite (descendants_childless f d i ei), (descendants_childless f d o eo).
Qed.

Lemma matchesTag_false_class d cls a e :
  managed d → d !! a = Some e →
  cls = NOISE_WRAPPER_CLASS ∨ cls = NOISE_OVERLAY_CLASS → cls ∈ className e →
  matchesTag d "img" a = false.
Proof.
  intros Hm Ha Hcls Hin. destruct (matchesTag d "img" a) eqn:E; [|done].
  apply matchesTag_true in E as (e' & He' & Ht).
  rewrite Ha in He'. injection He' as <-.
  destruct (mg_img d Hm a e Ha Ht) as (_ & Hw & Ho).
  by destruct Hcls as [->| ->].
Qed.

(** X16.  The mutation observer.  For an added node, every image that
    is the node itself or one of its descendants, has finished loading
    and has a parent, has exactly one overlay afterwards, and the
    document stays managed.  The wrapper and the overlay that the script
    inserts itself are such added nodes: handling them changes
    nothing, so the observer does not feed itself. *)
Theorem observer_overlays_added_images (pg : page) :
  managed (nodes pg) →
  (∀ node,
     managed (nodes (Base.onAddedNode node pg))
     ∧ ∀ j e,
         j = node ∨ j ∈ descendants (size (nodes pg)) (nodes pg) node →
         nodes pg !! j = Some e → tagName e = "img"%string →
         loaded e = true → parentNode e ≠ None →
         oneOverlay (nodes (Base.onAddedNode node pg)) j)
  ∧ (∀ i w o, processed (nodes pg) i w o → Base.onMutations [w; o] pg = pg).
Proof.
  intros Hm. split.
  - intros node. split; [by apply managed_onAddedNode|].
    intros j e Hj He Ht Hl Hp. unfold Base.onAddedNode.
    destruct (matchesTag (nodes pg) "img" node) eqn:Hnode.
    + apply matchesTag_true in Hnode as (en & Hen & Htn).
      assert (j = node) as ->.
      { destruct Hj as [?|Hj]; [done|].
        destruct (mg_img _ Hm node en Hen Htn) as (Hc & _).
        rewrite (descendants_childless _ _ node en) in Hj by done.
        by apply elem_of_nil in Hj. }
      destruct (base_applyNoise_managed pg node e Hm He Ht)
        as (Hm' & Hg & Hd & _).
      destruct (Hd Hl Hp) as (e' & He' & Hmk).
      apply (managed_marked_oneOverlay _ node e'); try done.
      destruct (Hg node e He) as (e1 & He1 & (T & _)).
      rewrite He1 in He'. injection He' as <-. congruence.
    + assert (j ∈ descendants (size (nodes pg)) (nodes pg) node) as Hin.
      { destruct Hj as [->|?]; [|done].
        assert (matchesTag (nodes pg) "img" node = true) as Hcontra
          by (apply matchesTag_true; by exists e).
        congruence. }
      set (l := filter (λ a, matchesTag (nodes pg) "img" a = true)
                  (descendants (size (nodes pg)) (nodes pg) node)).
      destruct (base_applyNoise_fold l pg Hm) as (Hm' & Hg & Hall).
      { intros x Hx. by apply list_elem_of_filter in Hx as [? _]. }
      assert (j ∈ l) as Hjl.
      { apply list_elem_of_filter. split; [|done].
        apply matchesTag_true. by exists e. }
      destruct (Hall j e Hjl He) as [Hd _].
      destruct (Hd Hl Hp) as (e' & He' & Hmk).
      apply (managed_marked_oneOverlay _ j e'); try done.
      destruct (Hg j e He) as (e1 & He1 & (T & _)).
      rewrite He1 in He'. injection He' as <-. congruence.
  - intros i w o Hpr.
    destruct Hpr as (ei & ew & eo & Hov & Ht & Hmk). open_overlaid Hov.
    assert (Base.onAddedNode w pg = pg) as Hw'.
    { unfold Base.onAddedNode.
      rewrite (matchesTag_false_class _ NOISE_WRAPPER_CLASS w ew) by auto.
      rewrite (descendants_pair _ w ew i ei o eo) by done.
      rewrite filter_cons_True by (apply matchesTag_true; by exists ei).
      rewrite filter_cons_False.
      2:{ rewrite (matchesTag_false_class _ NOISE_OVERLAY_CLASS o eo) by auto.
          done. }
      simpl. by apply (base_applyNoise_marked pg i ei). }
    assert (Base.onAddedNode o pg = pg) as Ho'.
    { unfold Base.onAddedNode.
      rewrite (matchesTag_false_class _ NOISE_OVERLAY_CLASS o eo) by auto.
      by rewrite (descendants_childless _ _ o eo). }
    unfold Base.onMutations. simpl. by rewrite Hw', Ho'.
Qed.

Lemma page3_managed : managed (nodes Sample.page3).
Proof.
  destruct (base_applyNoise_managed Sample.page0 3
              (Sample.image 2 true 640 480)) as (H & _); try done.
  apply cleanPage_managed, sample_clean.
Qed.

Lemma observer_overlays_added_images_witness :
  oneOverlay (nodes (Base.onAddedNode 2 Sample.page3)) 4.
Proof.
  destruct (observer_overlays_added_images Sample.page3 page3_managed)
    as [H _].
  apply (proj2 (H 2%positive) 4%positive (Sample.image 2 true 320 200));
    try done.
  right. vm_compute. apply list_elem_of_In. simpl. tauto.
Defined.

End ObserverFacts.

(** ** Deselecting and selecting again *)

Module Reselect.

Import DomFacts OverlayFacts TwoSelections PageFacts RunFacts ControlFacts
  ManagedFacts.
Import Selection.

Local Open Scope nat_scope.

Lemma loaded_removeClass cls e : loaded (removeClass cls e) = loaded e.
Proof. done. Qed.

Section reselect.
Context (st : state) (i w o : positive) (ei ew eo : element).
Context (Hsel : selectedImage st = Some i)
        (Hov : overlaid (nodes (pg st)) i w o ei ew eo)
        (Hld : loaded ei = true).

Let d := nodes (pg st).
Let eiR := removeClass SELECTED_CLASS ei.
Let ei1 := withAttributes (delete NOISE_APPLIED_ATTR (attributes eiR)) eiR.
Let ew1 := withChildNodes [i] ew.
Let eo1 := withParentNode None eo.
Let d1 := <[i := ei1]> (<[o := eo1]> (<[w := ew1]> (<[i := eiR]> d))).
Let st1 := clearSelection st.

Lemma rs_cleared : nodes (pg st1) = d1 ∧ selectedImage st1 = None.
Proof.
  unfold st1. split.
  - unfold clearSelection. rewrite Hsel. rewrite pg_notifySelectionChanged.
    simpl. open_overlaid Hov.
    rewrite (classListRemove_eq _ i ei) by done.
    exact (removeOverlay_overlaid _ i w o _ _ _
             (overlaid_removeClass _ _ _ _ _ _ _ Hov)).
  - by destruct (clearSelection_control i st Hsel) as (-> & _).
Qed.

Lemma rs_lookups :
  d1 !! i = Some ei1 ∧ d1 !! w = Some ew1 ∧ d1 !! o = Some eo1.
Proof.
  open_overlaid Hov. unfold d1. split; [|split].
  - by rewrite lookup_insert_eq.
  - rewrite !lookup_insert_ne by done. by rewrite lookup_insert_eq.
  - rewrite lookup_insert_ne by done. by rewrite lookup_insert_eq.
Qed.

Lemma rs_classes cls :
  cls ≠ SELECTED_CLASS → (cls ∈ className ei1 ↔ cls ∈ className ei).
Proof.
  intros Hne. unfold ei1, eiR. simpl. rewrite list_elem_of_filter. tauto.
Qed.

Lemma rs_cleared_shape :
  closest d1 NOISE_WRAPPER_CLASS i = Some w
  ∧ querySelectorAll d1 w NOISE_OVERLAY_CLASS = []
  ∧ getAttribute d1 i NOISE_APPLIED_ATTR = None
  ∧ SELECTED_CLASS ∉ className ei1.
Proof.
  destruct rs_lookups as (Hi1 & Hw1 & Ho1). open_overlaid Hov.
  split; [|split; [|split]].
  - apply (closest_wrapped d1 _ i ei1 w ew1); try done.
    by rewrite rs_classes.
  - apply (querySelectorAll_single d1 _ w ew1 i ei1); try done.
    by rewrite rs_classes.
  - unfold getAttribute. rewrite Hi1. simpl. apply lookup_delete_eq.
  - unfold ei1, eiR. simpl. rewrite list_elem_of_filter. tauto.
Qed.

(** The second selection. *)
Let ei2 := addClass SELECTED_CLASS ei1.
Let d2 := <[i := ei2]> d1.
Let k := fresh (dom d2).
Let pat := noisePattern (pg st).
Let cs := currentSettings (pg st).
Let d4 :=
  setAttribute i NOISE_APPLIED_ATTR "true"
    (<[k := withParentNode (Some w) (createOverlay pat cs)]>
       (alter (λ ep, withChildNodes (childNodes ep ++ [k]) ep) w d2)).
Let st2 := selectImage i st1.

Lemma rs_fresh : d2 !! k = None ∧ k ≠ i ∧ k ≠ w ∧ k ≠ o ∧ d !! k = None.
Proof.
  destruct rs_lookups as (Hi1 & Hw1 & Ho1). open_overlaid Hov.
  pose proof (fresh_lookup d2) as Hk. fold k in Hk.
  assert (k ≠ i) as H1.
  { intros Heq. rewrite Heq in Hk. unfold d2 in Hk.
    by rewrite lookup_insert_eq in Hk. }
  assert (k ≠ w) as H2.
  { intros Heq. rewrite Heq in Hk. unfold d2 in Hk.
    rewrite lookup_insert_ne in Hk by done. congruence. }
  assert (k ≠ o) as H3.
  { intros Heq. rewrite Heq in Hk. unfold d2 in Hk.
    rewrite lookup_insert_ne in Hk by done. congruence. }
  repeat split; try done.
  unfold d2, d1 in Hk. by rewrite !lookup_insert_ne in Hk by done.
Qed.

Lemma rs_d2 :
  d2 !! i = Some ei2 ∧ d2 !! w = Some ew1 ∧ d2 !! o = Some eo1.
Proof.
  destruct rs_lookups as (Hi1 & Hw1 & Ho1). open_overlaid Hov.
  unfold d2. split; [by rewrite lookup_insert_eq|].
  by rewrite !lookup_insert_ne by done.
Qed.

Lemma rs_classes2 cls :
  cls ≠ SELECTED_CLASS → (cls ∈ className ei2 ↔ cls ∈ className ei).
Proof.
  intros Hne. unfold ei2. rewrite addClass_mem, rs_classes by done. tauto.
Qed.

Lemma rs_reselected : nodes (pg st2) = d4 ∧ selectedImage st2 = Some i.
Proof.
  destruct rs_cleared as [Hn Hs]. destruct rs_lookups as (Hi1 & Hw1 & Ho1).
  destruct rs_d2 as (Hi2 & Hw2 & Ho2). open_overlaid Hov.
  assert (selectedImage st1 ≠ Some i) as Hne by by rewrite Hs.
  unfold st2.
  split; [|by destruct (selectImage_control i st1 Hne) as (-> & _)].
  unfold selectImage. rewrite bool_decide_eq_false_2 by done.
  rewrite Hs, pg_notifySelectionChanged. simpl. rewrite Hn.
  rewrite (classListAdd_eq _ i ei1) by done. fold ei2 d2.
  unfold applyNoise. simpl. rewrite Hi2.
  assert (loaded ei2 = true) as ->.
  { unfold ei2. destruct (addClass_fields SELECTED_CLASS ei1) as (_ & _ & -> & _).
    done. }
  unfold doApply, ensureWrapper. simpl.
  rewrite (closest_wrapped d2 _ i ei2 w ew1); try done.
  2:{ by rewrite rs_classes2. }
  2:{ unfold ei2. by destruct (addClass_fields SELECTED_CLASS ei1) as (-> & _). }
  unfold querySelector.
  rewrite (querySelectorAll_single d2 _ w ew1 i ei2); try done.
  2:{ unfold ei2. by destruct (addClass_fields SELECTED_CLASS ei1) as (_ & -> & _). }
  2:{ by rewrite rs_classes2. }
  simpl. unfold appendNew. fold k.
  assert (noisePattern (pg st1) = pat ∧ currentSettings (pg st1) = cs) as [-> ->].
  { destruct (sameVars_clearSelection st) as (_ & _ & H1 & H2). by split. }
  done.
Qed.

Lemma rs_d4 :
  d4 !! i = Some (withAttributes
                    (<[NOISE_APPLIED_ATTR := "true"%string]> (attributes ei2)) ei2)
  ∧ d4 !! w = Some (withChildNodes [i; k] ew1)
  ∧ d4 !! k = Some (withParentNode (Some w) (createOverlay pat cs))
  ∧ d4 !! o = Some eo1.
Proof.
  destruct rs_d2 as (Hi2 & Hw2 & Ho2). open_overlaid Hov.
  destruct rs_fresh as (Hk & Hki & Hkw & Hko & _).
  unfold d4, setAttribute. split; [|split; [|split]].
  - rewrite lookup_alter_eq, lookup_insert_ne by done.
    rewrite lookup_alter_ne by done. by rewrite Hi2.
  - rewrite lookup_alter_ne, lookup_insert_ne by done.
    rewrite lookup_alter_eq, Hw2. done.
  - rewrite lookup_alter_ne by done. by rewrite lookup_insert_eq.
  - rewrite lookup_alter_ne, lookup_insert_ne by done.
    by rewrite lookup_alter_ne.
Qed.

Lemma rs_final :
  closest d4 NOISE_WRAPPER_CLASS i = Some w
  ∧ querySelectorAll d4 w NOISE_OVERLAY_CLASS = [k]
  ∧ getAttribute d4 i NOISE_APPLIED_ATTR = Some "true"%string.
Proof.
  destruct rs_d4 as (Hi4 & Hw4 & Hk4 & Ho4). open_overlaid Hov.
  destruct rs_fresh as (Hk & Hki & Hkw & Hko & _).
  destruct (addClass_fields SELECTED_CLASS ei1) as (Hp & Hc & _).
  split; [|split].
  - eapply (closest_wrapped d4 _ i _ w); try done.
    + simpl. by rewrite rs_classes2.
    + simpl. unfold ei2. by rewrite Hp.
  - eapply (querySelectorAll_pair d4 _ w _ i _ k); try done.
    + simpl. unfold ei2. by rewrite Hc.
    + simpl. by rewrite rs_classes2.
    + simpl. apply list_elem_of_here.
  - unfold getAttribute. rewrite Hi4. simpl. by rewrite lookup_insert_eq.
Qed.

End reselect.


(** X17.  Deselecting an image does not restore the page.  For a
    selected, loaded image with its wrapper and overlay, [clearSelection]
    detaches the overlay, clears the marker and the selected class, and
    leaves the wrapper around the image.  Selecting the image again
    reuses that wrapper and puts a newly created overlay into it, so
    that the image has exactly one overlay again; the old overlay stays
    detached. *)
Theorem deselect_keeps_wrapper (st : state) (i w o : positive)
    (ei ew eo : element) :
  selectedImage st = Some i →
  overlaid (nodes (pg st)) i w o ei ew eo → loaded ei = true →
  let st1 := clearSelection st in
  let st2 := selectImage i st1 in
  let d1 := nodes (pg st1) in
  let d2 := nodes (pg st2) in
  selectedImage st1 = None
  ∧ closest d1 NOISE_WRAPPER_CLASS i = Some w
  ∧ querySelectorAll d1 w NOISE_OVERLAY_CLASS = []
  ∧ getAttribute d1 i NOISE_APPLIED_ATTR = None
  ∧ (∃ e1, d1 !! i = Some e1 ∧ SELECTED_CLASS ∉ className e1)
  ∧ (∃ eo1, d1 !! o = Some eo1 ∧ parentNode eo1 = None)
  ∧ selectedImage st2 = Some i
  ∧ ∃ o2, o2 ≠ o ∧ nodes (pg st) !! o2 = None
          ∧ closest d2 NOISE_WRAPPER_CLASS i = Some w
          ∧ querySelectorAll d2 w NOISE_OVERLAY_CLASS = [o2]
          ∧ getAttribute d2 i NOISE_APPLIED_ATTR = Some "true"%string
          ∧ ∃ eo2, d2 !! o = Some eo2 ∧ parentNode eo2 = None.
Proof.
  intros Hsel Hov Hld st1 st2 d1 d2.
  destruct (rs_cleared st i w o ei ew eo Hsel Hov) as [Hn1 Hs1].
  destruct (rs_lookups st i w o ei ew eo Hov) as (Hi1 & Hw1 & Ho1).
  destruct (rs_cleared_shape st i w o ei ew eo Hov) as (Hc1 & Hq1 & Ha1 & Hcl1).
  destruct (rs_reselected st i w o ei ew eo Hsel Hov Hld) as [Hn2 Hs2].
  destruct (rs_fresh st i w o ei ew eo Hov) as (_ & _ & _ & Hko & Hk).
  destruct (rs_d4 st i w o ei ew eo Hov) as (_ & _ & _ & Ho4).
  destruct (rs_final st i w o ei ew eo Hov) as (Hc2 & Hq2 & Ha2).
  unfold d1, d2, st2, st1. rewrite Hn1, Hn2.
  split; [done|]. split; [done|]. split; [done|]. split; [done|].
  split; [by eexists|]. split; [by eexists|]. split; [done|].
  eexists. split; [exact Hko|]. split; [exact Hk|].
  split; [done|]. split; [done|]. split; [done|]. by eexists.
Qed.

Lemma sample_selected3 :
  ∃ ei ew eo,
    overlaid (nodes (pg Sample.state3)) 3 6 7 ei ew eo ∧ loaded ei = true.
Proof.
  eexists _, _, _. split; [constructor|]; try (vm_compute; reflexivity);
    try discriminate.
  all: simpl.
  - by intros [= ]%list_elem_of_singleton.
  - by intros [= ]%list_elem_of_singleton.
  - apply list_elem_of_here.
  - apply list_elem_of_here.
Qed.

Lemma deselect_keeps_wrapper_witness :
  let st1 := clearSelection Sample.state3 in
  closest (nodes (pg st1)) NOISE_WRAPPER_CLASS 3 = Some 6%positive
  ∧ querySelectorAll (nodes (pg st1)) 6 NOISE_OVERLAY_CLASS = [].
Proof.
  destruct sample_selected3 as (ei & ew & eo & Hov & Hld).
  destruct (deselect_keeps_wrapper Sample.state3 3 6 7 ei ew eo eq_refl Hov Hld)
    as (_ & H1 & H2 & _).
  split; [exact H1 | exact H2].
Defined.

End Reselect.

(** ** A request to apply noise *)

Module Restyle.

Import DomFacts OverlayFacts RefreshFacts TwoSelections PageFacts RunFacts
  ControlFacts ManagedFacts Reselect.
Import Selection.

Local Open Scope nat_scope.

Lemma refreshed_element pg0 a e :
  nodes pg0 !! a = Some e →
  ∃ e', nodes (refreshAllOverlays pg0) !! a = Some e'
        ∧ withoutStyle e' = withoutStyle e.
Proof.
  intros He. rewrite refreshAllOverlays_lookup, He. case_bool_decide; simpl.
  - by eexists.
  - by eexists.
Qed.

Lemma withoutStyle_fields e e' :
  withoutStyle e' = withoutStyle e →
  className e' = className e ∧ parentNode e' = parentNode e
  ∧ childNodes e' = childNodes e ∧ attributes e' = attributes e
  ∧ loaded e' = loaded e.
Proof.
  intros H.
  pose proof (f_equal className H) as H1.
  pose proof (f_equal parentNode H) as H2.
  pose proof (f_equal childNodes H) as H3.
  pose proof (f_equal attributes H) as H4.
  pose proof (f_equal loaded H) as H5.
  done.
Qed.

Lemma overlaid_refreshed pg0 i w o ei ew eo :
  overlaid (nodes pg0) i w o ei ew eo →
  ∃ ei' ew' eo',
    overlaid (nodes (refreshAllOverlays pg0)) i w o ei' ew' eo'
    ∧ loaded ei' = loaded ei ∧ attributes ei' = attributes ei.
Proof.
  intros Hov. open_overlaid Hov.
  destruct (refreshed_element pg0 i ei Hi) as (ei' & Hi' & Hsi).
  destruct (refreshed_element pg0 w ew Hw) as (ew' & Hw' & Hsw).
  destruct (refreshed_element pg0 o eo Ho) as (eo' & Ho' & Hso).
  apply withoutStyle_fields in Hsi as (Ci & Pi & Chi & Ai & Li).
  apply withoutStyle_fields in Hsw as (Cw & Pw & Chw & Aw & Lw).
  apply withoutStyle_fields in Hso as (Co & Po & Cho & Ao & Lo).
  exists ei', ew', eo'. split; [|done].
  constructor; try done; congruence.
Qed.

(** [doApply] of the selection script on an image with its overlay:
    the overlay is restyled, the image marked. *)
Lemma selection_doApply_overlaid p i w o ei ew eo :
  overlaid (nodes p) i w o ei ew eo →
  nodes (doApply i p)
  = setAttribute i NOISE_APPLIED_ATTR "true"
      (alter (applyOverlaySettings (noisePattern p) (currentSettings p)) o
             (nodes p)).
Proof.
  intros Hov. open_overlaid Hov. unfold doApply, ensureWrapper.
  rewrite (closest_wrapped _ _ i ei w ew) by done.
  unfold querySelector.
  by rewrite (querySelectorAll_pair _ _ w ew i ei o eo) by done.
Qed.

(** X18.  A request to apply noise, with an image selected that has its
    wrapper and overlay: the answer is [ok]; the current settings become
    the normalised payload and the texture the new one; the overlay of
    the selected image shows them (the opacity of the new intensity, the
    new texture as background); the image keeps exactly one overlay,
    the same one, and stays selected; a feedback message is sent when
    the messaging channel exists. *)
Theorem apply_request_restyles (ev : env) (payload : option (gmap string jsval))
    (st : state) (i w o : positive) (ei ew eo : element) :
  selectedImage st = Some i →
  overlaid (nodes (pg st)) i w o ei ew eo → loaded ei = true →
  let s' :=
    normalizeSettings (match payload with Some x => Some x | None => Some ∅ end) in
  let out := onMessage ev (ANI_APPLY_NOISE payload) st in
  let d' := nodes (pg out.1) in
  out.2 = [RespOk]
  ∧ currentSettings (pg out.1) = s'
  ∧ noisePattern (pg out.1) = pattern ev
  ∧ selectedImage out.1 = Some i
  ∧ sent out.1
    = (sent st ++ if runtimeSendMessage st then [ANI_NOISE_APPLIED_FEEDBACK true]
                  else [])%list
  ∧ (∃ eo', d' !! o = Some eo'
            ∧ opacity eo' = overlayOpacityFromIntensity (intensity s')
            ∧ backgroundImage eo'
              = (if String.eqb (pattern ev) "" then ""
                 else "url(" ++ pattern ev ++ ")")%string)
  ∧ closest d' NOISE_WRAPPER_CLASS i = Some w
  ∧ querySelectorAll d' w NOISE_OVERLAY_CLASS = [o]
  ∧ getAttribute d' i NOISE_APPLIED_ATTR = Some "true"%string.
Proof.
  intros Hsel Hov Hld s' out d'.
  set (raw := match payload with Some x => Some x | None => Some ∅ end) in *.
  set (p0 := Page (nodes (pg st)) (documentElement (pg st)) (body (pg st))
               (normalizeSettings raw) (pattern ev)).
  set (p1 := refreshAllOverlays p0).
  set (st1 := applySettings (pattern ev) raw st).
  assert (pg st1 = applyNoise i p1) as Hpg1.
  { unfold st1, applySettings. by rewrite Hsel. }
  destruct (sameControl_applySettings (pattern ev) raw st) as (Hs & _ & Hr & Hm).
  fold st1 in Hs, Hr, Hm.
  assert (out = (if runtimeSendMessage st1
                 then State (pg st1) (selectedImage st1) (selectionModeEnabled st1)
                        (runtimeSendMessage st1)
                        (sent st1 ++ [ANI_NOISE_APPLIED_FEEDBACK true])
                 else st1, [RespOk])) as Hout.
  { unfold out. simpl. unfold handleApplyNoiseRequest. by rewrite Hsel. }
  assert (pg out.1 = pg st1) as Hpg.
  { rewrite Hout. simpl. by destruct (runtimeSendMessage st1). }
  destruct (overlaid_refreshed p0 i w o ei ew eo Hov)
    as (ei' & ew' & eo' & Hov1 & Hl1 & Ha1).
  fold p1 in Hov1.
  assert (nodes (pg st1)
          = setAttribute i NOISE_APPLIED_ATTR "true"
              (alter (applyOverlaySettings (pattern ev) s') o (nodes p1)))
    as Hnodes.
  { rewrite Hpg1. unfold applyNoise.
    pose proof Hov1 as Hov1'. open_overlaid Hov1'. rewrite Hi.
    rewrite Hl1, Hld.
    by rewrite (selection_doApply_overlaid p1 i w o ei' ew' eo'). }
  assert (currentSettings (pg st1) = s' ∧ noisePattern (pg st1) = pattern ev)
    as [Hcs Hpat].
  { rewrite Hpg1.
    by destruct (sameVars_selection_applyNoise i p1) as (_ & _ & -> & ->). }
  unfold d'. rewrite Hpg, Hnodes.
  pose proof Hov1 as Hov1'. open_overlaid Hov1'.
  assert (setAttribute i NOISE_APPLIED_ATTR "true"
            (alter (applyOverlaySettings (pattern ev) s') o (nodes p1)) !! i
          = Some (withAttributes
                    (<[NOISE_APPLIED_ATTR := "true"%string]> (attributes ei')) ei'))
    as Hi4.
  { unfold setAttribute. rewrite lookup_alter_eq, lookup_alter_ne by done.
    by rewrite Hi. }
  assert (setAttribute i NOISE_APPLIED_ATTR "true"
            (alter (applyOverlaySettings (pattern ev) s') o (nodes p1)) !! w
          = Some ew') as Hw4.
  { unfold setAttribute. by rewrite !lookup_alter_ne by done. }
  assert (setAttribute i NOISE_APPLIED_ATTR "true"
            (alter (applyOverlaySettings (pattern ev) s') o (nodes p1)) !! o
          = Some (applyOverlaySettings (pattern ev) s' eo')) as Ho4.
  { unfold setAttribute. rewrite lookup_alter_ne by done.
    by rewrite lookup_alter_eq, Ho. }
  split; [by rewrite Hout|]. split; [done|]. split; [done|].
  split.
  { rewrite Hout. simpl. destruct (runtimeSendMessage st1); simpl; congruence. }
  split.
  { rewrite Hout. simpl. rewrite <- Hr.
    destruct (runtimeSendMessage st1); simpl; [by rewrite Hm|].
    by rewrite Hm, app_nil_r. }
  split; [by eexists|]. split; [|split].
  - by eapply (closest_wrapped _ _ i _ w ew').
  - by eapply (querySelectorAll_pair _ _ w ew' i _ o _).
  - unfold getAttribute. rewrite Hi4. simpl. by rewrite lookup_insert_eq.
Qed.

Lemma apply_request_restyles_witness :
  let out :=
    onMessage (Env "data:image/png;base64,BBBB"
                 (ExportEnv true (Encoded "data:,") 0))
      (ANI_APPLY_NOISE None) Sample.state3 in
  out.2 = [RespOk]
  ∧ querySelectorAll (nodes (pg out.1)) 6 NOISE_OVERLAY_CLASS = [7%positive].
Proof.
  destruct sample_selected3 as (ei & ew & eo & Hov & Hld).
  destruct (apply_request_restyles
              (Env "data:image/png;base64,BBBB"
                 (ExportEnv true (Encoded "data:,") 0))
              None Sample.state3 3 6 7 ei ew eo eq_refl Hov Hld)
    as (H1 & _ & _ & _ & _ & _ & _ & H2 & _).
  split; [exact H1 | exact H2].
Defined.

End Restyle.

(** ** Images outside the document tree *)

Module Detached.

Import DomFacts OverlayFacts RefreshFacts TwoSelections PageFacts RunFacts
  ControlFacts ManagedFacts ManagedApply ManagedRun ManagedBase ManagedEvents
  Restyle.
Import Selection.

Local Open Scope nat_scope.

Lemma closest_detached (d : gmap positive element) cls i e :
  d !! i = Some e → parentNode e = None → cls ∉ className e →
  closest d cls i = None.
Proof.
  intros Hi Hp Hc. unfold closest.
  pose proof (size_one d i (mk_is_Some _ _ Hi)) as Hs.
  destruct (size d) as [|f]; [lia|]. simpl. rewrite Hi, Hp.
  rewrite filter_cons_False; [done|].
  unfold matchesClass. rewrite Hi. by rewrite bool_decide_eq_false_2.
Qed.

Lemma ensureWrapper_no_parent (d : gmap positive element) i e :
  d !! i = Some e → parentNode e = None → NOISE_WRAPPER_CLASS ∉ className e →
  ensureWrapper i d = (None, d).
Proof.
  intros Hi Hp Hc. unfold ensureWrapper.
  rewrite (closest_detached d _ i e) by done. by rewrite Hi; simpl; rewrite Hp.
Qed.

Lemma selection_applyNoise_detached p i e :
  nodes p !! i = Some e → parentNode e = None →
  NOISE_WRAPPER_CLASS ∉ className e → loaded e = true →
  Selection.applyNoise i p = p.
Proof.
  intros Hi Hp Hc Hl. unfold Selection.applyNoise. rewrite Hi, Hl.
  unfold Selection.doApply. rewrite (ensureWrapper_no_parent _ i e) by done.
  apply withNodes_id.
Qed.

Lemma base_applyNoise_detached p i e :
  nodes p !! i = Some e → parentNode e = None →
  NOISE_WRAPPER_CLASS ∉ className e → loaded e = true →
  Base.applyNoise i p = p.
Proof.
  intros Hi Hp Hc Hl. unfold Base.applyNoise. rewrite Hi.
  case_bool_decide; [done|]. rewrite Hl.
  unfold Base.doApply. rewrite (ensureWrapper_no_parent _ i e) by done.
  apply withNodes_id.
Qed.

(** X19.  An image that is loaded but not in the document tree (no
    parent, and not carrying the wrapper class itself) gets no wrapper,
    no overlay and no marker: the page-wide [applyNoise] leaves the page
    as it is; selecting it in the selection script only adds the
    selected class and reports the selection; a following request to
    apply noise is still answered [ok] and reported as applied, while
    every element keeps its tag, classes, attributes, parent and
    children. *)
Theorem detached_image_no_overlay (ev : env)
    (payload : option (gmap string jsval)) (st : state) (i : positive)
    (e : element) :
  nodes (pg st) !! i = Some e → parentNode e = None → loaded e = true →
  NOISE_WRAPPER_CLASS ∉ className e → selectedImage st = None →
  let st1 := selectImage i st in
  let out := onMessage ev (ANI_APPLY_NOISE payload) st1 in
  Base.applyNoise i (pg st) = pg st
  ∧ selectedImage st1 = Some i
  ∧ nodes (pg st1) = classListAdd i SELECTED_CLASS (nodes (pg st))
  ∧ sent st1
    = (sent st ++ if runtimeSendMessage st then [ANI_SELECTION_CHANGED true]
                  else [])%list
  ∧ out.2 = [RespOk]
  ∧ sent out.1
    = (sent st1 ++ if runtimeSendMessage st then [ANI_NOISE_APPLIED_FEEDBACK true]
                   else [])%list
  ∧ similarStore (nodes (pg st1)) (nodes (pg out.1))
  ∧ closest (nodes (pg out.1)) NOISE_WRAPPER_CLASS i = None
  ∧ getAttribute (nodes (pg out.1)) i NOISE_APPLIED_ATTR
    = getAttribute (nodes (pg st)) i NOISE_APPLIED_ATTR.
Proof.
  intros Hi Hp Hl Hc Hsel st1 out.
  split; [by apply (base_applyNoise_detached _ i e)|].
  set (d1 := classListAdd i SELECTED_CLASS (nodes (pg st))).
  assert (d1 !! i = Some (addClass SELECTED_CLASS e)) as Hi1.
  { unfold d1. rewrite (classListAdd_eq _ i e) by done.
    by rewrite lookup_insert_eq. }
  assert (parentNode (addClass SELECTED_CLASS e) = None
          ∧ loaded (addClass SELECTED_CLASS e) = true
          ∧ (NOISE_WRAPPER_CLASS ∉ className (addClass SELECTED_CLASS e))
          ∧ attributes (addClass SELECTED_CLASS e) = attributes e)
    as (Hp1 & Hl1 & Hc1 & Ha1).
  { unfold addClass. case_bool_decide; simpl; [done|].
    repeat split; try done.
    rewrite elem_of_app, list_elem_of_singleton. by intros [?|[=]]. }
  assert (st1 = notifySelectionChanged
                  (State (withNodes d1 (pg st)) (Some i)
                         (selectionModeEnabled st) (runtimeSendMessage st)
                         (sent st))) as Hst1.
  { unfold st1, selectImage. rewrite Hsel. simpl.
    fold d1.
    by rewrite (selection_applyNoise_detached (withNodes d1 (pg st)) i
                  (addClass SELECTED_CLASS e)). }
  assert (pg st1 = withNodes d1 (pg st)) as Hpg1.
  { by rewrite Hst1, pg_notifySelectionChanged. }
  assert (selectedImage st1 = Some i ∧ runtimeSendMessage st1 = runtimeSendMessage st
          ∧ sent st1
            = (sent st ++ if runtimeSendMessage st then [ANI_SELECTION_CHANGED true]
                          else [])%list) as (Hs1 & Hr1 & Hm1).
  { rewrite Hst1. unfold notifySelectionChanged. simpl.
    destruct (runtimeSendMessage st); simpl; [done|]. by rewrite app_nil_r. }
  split; [done|]. split; [by rewrite Hpg1|]. split; [done|].
  set (raw := match payload with Some x => Some x | None => Some ∅ end).
  set (p0 := Page (nodes (pg st1)) (documentElement (pg st1)) (body (pg st1))
               (normalizeSettings raw) (pattern ev)).
  set (p1 := refreshAllOverlays p0).
  set (st2 := applySettings (pattern ev) raw st1).
  assert (nodes p0 !! i = Some (addClass SELECTED_CLASS e)) as Hi0.
  { simpl. by rewrite Hpg1. }
  destruct (refreshed_element p0 i _ Hi0) as (e' & Hi' & Hse).
  apply withoutStyle_fields in Hse as (Ce & Pe & _ & Ae & Le).
  fold p1 in Hi'.
  assert (pg st2 = p1) as Hpg2.
  { unfold st2, applySettings. rewrite Hs1. fold raw p0 p1.
    apply (selection_applyNoise_detached p1 i e'); congruence. }
  destruct (sameControl_applySettings (pattern ev) raw st1) as (Hs & _ & Hr & Hm).
  fold st2 in Hs, Hr, Hm.
  assert (out = (if runtimeSendMessage st2
                 then State (pg st2) (selectedImage st2) (selectionModeEnabled st2)
                        (runtimeSendMessage st2)
                        (sent st2 ++ [ANI_NOISE_APPLIED_FEEDBACK true])
                 else st2, [RespOk])) as Hout.
  { unfold out. simpl. unfold handleApplyNoiseRequest. by rewrite Hs1. }
  assert (pg out.1 = p1) as Hpg.
  { rewrite Hout. simpl. by destruct (runtimeSendMessage st2). }
  split; [by rewrite Hout|].
  split.
  { rewrite Hout. simpl. rewrite <- Hr1, <- Hr.
    destruct (runtimeSendMessage st2); simpl; [by rewrite Hm|].
    by rewrite Hm, app_nil_r. }
  rewrite Hpg. split; [|split].
  - apply (refreshAllOverlays_similar p0).
  - apply (closest_detached _ _ i e'); congruence.
  - unfold getAttribute. rewrite Hi', Hi. simpl. congruence.
Qed.

Lemma detached_image_no_overlay_witness :
  let st :=
    State (withNodes
             (<[9%positive := Element "img" [] ∅ "" "" None [] true 10 10 []]>
                Sample.document)
             Sample.page0) None false true [] in
  let out :=
    onMessage (Env "data:image/png;base64,BBBB"
                 (ExportEnv true (Encoded "data:,") 0))
      (ANI_APPLY_NOISE None) (selectImage 9 st) in
  out.2 = [RespOk]
  ∧ closest (nodes (pg out.1)) NOISE_WRAPPER_CLASS 9 = None.
Proof.
  intros st out.
  assert (NOISE_WRAPPER_CLASS ∉ @nil string) as Hc by apply not_elem_of_nil.
  destruct (detached_image_no_overlay
              (Env "data:image/png;base64,BBBB"
                 (ExportEnv true (Encoded "data:,") 0))
              None st 9 (Element "img" [] ∅ "" "" None [] true 10 10 [])
              eq_refl eq_refl eq_refl Hc eq_refl)
    as (_ & _ & _ & _ & H1 & _ & _ & H2 & _).
  split; [exact H1 | exact H2].
Defined.

End Detached.

(** ** The classes of the selection script *)

Module ShownClasses.

Import DomFacts OverlayFacts RefreshFacts PageFacts RunFacts ControlFacts.
Import Selection.

Local Open Scope nat_scope.

Section keeps.
Context (cls : string).

Lemma keepsClass_refl d : keepsClass cls d d.
Proof.
  split.
  - intros x e He. by exists e.
  - intros x e' He' Hn. by rewrite Hn in He'.
Qed.

Lemma keepsClass_trans d1 d2 d3 :
  keepsClass cls d1 d2 → keepsClass cls d2 d3 → keepsClass cls d1 d3.
Proof.
  intros [A1 A2] [B1 B2]. split.
  - intros x e He. destruct (A1 x e He) as (e2 & H2 & I2).
    destruct (B1 x e2 H2) as (e3 & H3 & I3). exists e3. split; [done|].
    by rewrite I3.
  - intros x e3 H3 Hn. destruct (d2 !! x) as [e2|] eqn:E2.
    + destruct (B1 x e2 E2) as (e3' & H3' & I3).
      assert (e3' = e3) as -> by congruence.
      rewrite I3. by apply (A2 x).
    + by apply (B2 x).
Qed.

Lemma keepsClass_alter (f : element → element) n (d : gmap positive element) :
  (∀ e, cls ∈ className (f e) ↔ cls ∈ className e) →
  keepsClass cls d (alter f n d).
Proof.
  intros Hf. split.
  - intros x e He. destruct (decide (x = n)) as [->|Hne].
    + exists (f e). by rewrite lookup_alter_eq, He.
    + exists e. by rewrite lookup_alter_ne.
  - intros x e' He' Hn. destruct (decide (x = n)) as [->|Hne].
    + by rewrite lookup_alter_eq, Hn in He'.
    + rewrite lookup_alter_ne in He' by done. congruence.
Qed.

Lemma keepsClass_insert_new k e (d : gmap positive element) :
  d !! k = None → cls ∉ className e → keepsClass cls d (<[k := e]> d).
Proof.
  intros Hk Hc. split.
  - intros x ex Hx. exists ex. split; [|done].
    rewrite lookup_insert_ne; [done|]. intros ->. congruence.
  - intros x e' He' Hn. destruct (decide (x = k)) as [->|Hne].
    + rewrite lookup_insert_eq in He'. by injection He' as <-.
    + rewrite lookup_insert_ne in He' by done. congruence.
Qed.

Lemma fresh_None (d : gmap positive element) : d !! fresh (dom d) = None.
Proof. apply not_elem_of_dom, is_fresh. Qed.

Lemma keepsClass_removeNode n d : keepsClass cls d (removeNode n d).
Proof.
  unfold removeNode. destruct (d !! n ≫= parentNode) as [p|].
  - eapply keepsClass_trans; by apply keepsClass_alter.
  - apply keepsClass_refl.
Qed.

Lemma keepsClass_appendChild p c d : keepsClass cls d (appendChild p c d).
Proof.
  unfold appendChild.
  eapply keepsClass_trans; [apply keepsClass_removeNode|].
  eapply keepsClass_trans; by apply keepsClass_alter.
Qed.

Lemma keepsClass_insertNewBefore p e r d :
  cls ∉ className e → keepsClass cls d (insertNewBefore p e r d).2.
Proof.
  intros Hc. unfold insertNewBefore. simpl.
  eapply keepsClass_trans; [|apply keepsClass_insert_new; [|done]].
  - by apply keepsClass_alter.
  - apply lookup_alter_None, fresh_None.
Qed.

Lemma keepsClass_appendNew p e d :
  cls ∉ className e → keepsClass cls d (appendNew p e d).2.
Proof.
  intros Hc. unfold appendNew. simpl.
  eapply keepsClass_trans; [|apply keepsClass_insert_new; [|done]].
  - by apply keepsClass_alter.
  - apply lookup_alter_None, fresh_None.
Qed.

Lemma keepsClass_ensureWrapper i d :
  cls ≠ NOISE_WRAPPER_CLASS → keepsClass cls d (ensureWrapper i d).2.
Proof.
  intros Hw. unfold ensureWrapper.
  destruct (closest d NOISE_WRAPPER_CLASS i); [apply keepsClass_refl|].
  destruct (d !! i ≫= parentNode) as [p|]; [|apply keepsClass_refl].
  destruct (insertNewBefore p _ i d) as [w d1] eqn:E. simpl.
  eapply keepsClass_trans; [|apply keepsClass_appendChild].
  replace d1 with (insertNewBefore p
    (withClassName [NOISE_WRAPPER_CLASS] (createElement "span")) i d).2
    by (by rewrite E).
  apply keepsClass_insertNewBefore. simpl.
  by intros ->%list_elem_of_singleton.
Qed.

Lemma keepsClass_doApply i p :
  cls ≠ NOISE_WRAPPER_CLASS → cls ≠ NOISE_OVERLAY_CLASS →
  keepsClass cls (nodes p) (nodes (Selection.doApply i p)).
Proof.
  intros Hw Ho. unfold Selection.doApply.
  pose proof (keepsClass_ensureWrapper i (nodes p) Hw) as H1.
  destruct (ensureWrapper i (nodes p)) as [[w|] d1]; simpl in H1; [|done].
  destruct (querySelector d1 w NOISE_OVERLAY_CLASS) as [o|].
  - simpl. eapply keepsClass_trans; [exact H1|].
    eapply keepsClass_trans; by apply keepsClass_alter.
  - destruct (appendNew w _ d1) as [k d2] eqn:E. simpl.
    eapply keepsClass_trans; [exact H1|].
    eapply keepsClass_trans; [|by apply keepsClass_alter].
    replace d2 with (appendNew w
      (createOverlay (noisePattern p) (currentSettings p)) d1).2
      by (by rewrite E).
    apply keepsClass_appendNew. simpl.
    by intros ->%list_elem_of_singleton.
Qed.

Lemma keepsClass_applyNoise i p :
  cls ≠ NOISE_WRAPPER_CLASS → cls ≠ NOISE_OVERLAY_CLASS →
  keepsClass cls (nodes p) (nodes (Selection.applyNoise i p)).
Proof.
  intros Hw Ho. unfold Selection.applyNoise.
  destruct (nodes p !! i) as [e|]; [|apply keepsClass_refl].
  destruct (loaded e); [by apply keepsClass_doApply|].
  simpl. by apply keepsClass_alter.
Qed.

Lemma keepsClass_removeOverlay i d : keepsClass cls d (removeOverlay i d).
Proof.
  unfold removeOverlay.
  destruct (closest d NOISE_WRAPPER_CLASS i) as [w|]; [|apply keepsClass_refl].
  eapply keepsClass_trans; [|by apply keepsClass_alter].
  destruct (querySelector d w NOISE_OVERLAY_CLASS);
    [apply keepsClass_removeNode|apply keepsClass_refl].
Qed.

Lemma keepsClass_foldl_alter (f : element → element) l
    (d : gmap positive element) :
  (∀ e, cls ∈ className (f e) ↔ cls ∈ className e) →
  keepsClass cls d (foldl (λ d o, alter f o d) d l).
Proof.
  intros Hf. revert d. induction l as [|a l IH]; intros d; simpl.
  - apply keepsClass_refl.
  - eapply keepsClass_trans; [by apply (keepsClass_alter f a)|apply IH].
Qed.

Lemma keepsClass_refreshAllOverlays p :
  keepsClass cls (nodes p) (nodes (refreshAllOverlays p)).
Proof. unfold refreshAllOverlays. simpl. by apply keepsClass_foldl_alter. Qed.

End keeps.

Lemma keepsClass_lookup cls d d' x e' :
  keepsClass cls d d' → d' !! x = Some e' →
  (∃ e, d !! x = Some e ∧ (cls ∈ className e' ↔ cls ∈ className e))
  ∨ (d !! x = None ∧ cls ∉ className e').
Proof.
  intros [K1 K2] He'. destruct (d !! x) as [e|] eqn:E.
  - left. exists e. split; [done|].
    destruct (K1 x e E) as (e'' & H'' & I). congruence.
  - right. split; [done|]. by apply (K2 x).
Qed.

Lemma keepsClass_is_Some cls d d' x :
  keepsClass cls d d' → is_Some (d !! x) → is_Some (d' !! x).
Proof. intros [K1 _] [e He]. destruct (K1 x e He) as (e' & -> & _). eauto. Qed.

Lemma mode_not_selected : SELECTION_MODE_CLASS ≠ SELECTED_CLASS.
Proof. done. Qed.

(** A step that touches neither class and none of the two variables. *)
Lemma shown_frame st st' :
  classesShown st →
  keepsClass SELECTED_CLASS (nodes (pg st)) (nodes (pg st')) →
  keepsClass SELECTION_MODE_CLASS (nodes (pg st)) (nodes (pg st')) →
  selectedImage st' = selectedImage st →
  selectionModeEnabled st' = selectionModeEnabled st →
  body (pg st') = body (pg st) →
  classesShown st'.
Proof.
  intros (Hb & Hs & Hc) KS KM Hsel Hmode Hbody. split; [|split].
  - rewrite Hbody. by apply (keepsClass_is_Some _ _ _ _ KM).
  - intros x Hx. rewrite Hsel in Hx.
    by apply (keepsClass_is_Some _ _ _ _ KS), Hs.
  - intros x e' He'. rewrite Hsel, Hmode, Hbody. split.
    + destruct (keepsClass_lookup _ _ _ _ _ KS He') as [(e & He & I)|[Hn Hno]].
      * rewrite I. by apply Hc.
      * split; [done|]. intros Hx. apply Hs in Hx as [? Hx]. congruence.
    + destruct (keepsClass_lookup _ _ _ _ _ KM He') as [(e & He & I)|[Hn Hno]].
      * rewrite I. by apply Hc.
      * split; [done|]. intros [_ ->]. destruct Hb as [? Hb]. congruence.
Qed.

Lemma shown_withDom st d :
  classesShown st →
  keepsClass SELECTED_CLASS (nodes (pg st)) d →
  keepsClass SELECTION_MODE_CLASS (nodes (pg st)) d →
  classesShown (withDom d st).
Proof. intros. by apply (shown_frame st). Qed.

Lemma shown_notify st : classesShown st → classesShown (notifySelectionChanged st).
Proof. unfold notifySelectionChanged. by destruct (runtimeSendMessage st). Qed.

Lemma addClass_other cls c e :
  c ≠ cls → c ∈ className (addClass cls e) ↔ c ∈ className e.
Proof.
  intros Hne. unfold addClass. case_bool_decide; [done|]. simpl.
  rewrite elem_of_app, list_elem_of_singleton. split; [|by left].
  by intros [?|?].
Qed.

Lemma removeClass_other cls c e :
  c ≠ cls → c ∈ className (removeClass cls e) ↔ c ∈ className e.
Proof.
  intros Hne. unfold removeClass. simpl. rewrite list_elem_of_filter.
  split; [by intros [_ ?]|done].
Qed.

Lemma removeClass_self cls e : cls ∉ className (removeClass cls e).
Proof. unfold removeClass. simpl. rewrite list_elem_of_filter. by intros [? _]. Qed.

Lemma addClass_self cls e : cls ∈ className (addClass cls e).
Proof.
  unfold addClass. case_bool_decide; [done|]. simpl.
  rewrite elem_of_app, list_elem_of_singleton. by right.
Qed.

Lemma keepsClass_classListAdd c cls n d :
  c ≠ cls → keepsClass c d (classListAdd n cls d).
Proof. intros Hne. apply keepsClass_alter. intros e. by apply (addClass_other cls c e). Qed.

Lemma keepsClass_classListRemove c cls n d :
  c ≠ cls → keepsClass c d (classListRemove n cls d).
Proof.
  intros Hne. apply keepsClass_alter. intros e.
  by apply (removeClass_other cls c e).
Qed.

Lemma classListAdd_lookup n cls (d : gmap positive element) x :
  classListAdd n cls d !! x
  = if decide (x = n) then addClass cls <$> d !! x else d !! x.
Proof.
  unfold classListAdd. destruct (decide (x = n)) as [->|Hne].
  - by rewrite lookup_alter_eq.
  - by rewrite lookup_alter_ne.
Qed.

Lemma classListRemove_lookup n cls (d : gmap positive element) x :
  classListRemove n cls d !! x
  = if decide (x = n) then removeClass cls <$> d !! x else d !! x.
Proof.
  unfold classListRemove. destruct (decide (x = n)) as [->|Hne].
  - by rewrite lookup_alter_eq.
  - by rewrite lookup_alter_ne.
Qed.

(** After the class has been taken from the only element that carried
    it, and the overlay of that element removed, no element carries
    it. *)
Lemma deselected_none st old :
  classesShown st → selectedImage st = Some old →
  ∀ x e,
    removeOverlay old (classListRemove old SELECTED_CLASS (nodes (pg st))) !! x
    = Some e →
    SELECTED_CLASS ∉ className e.
Proof.
  intros (_ & _ & Hc) Hsel x e He.
  destruct (keepsClass_lookup _ _ _ _ _
              (keepsClass_removeOverlay SELECTED_CLASS old _) He)
    as [(e1 & He1 & I)|[_ Hno]]; [|done].
  rewrite I. rewrite classListRemove_lookup in He1.
  destruct (decide (x = old)) as [->|Hne].
  - destruct (nodes (pg st) !! old) as [e0|]; [|done].
    injection He1 as <-. apply removeClass_self.
  - intros Hin. apply (Hc x e1 He1) in Hin. congruence.
Qed.

Lemma keeps_mode_deselect old d :
  keepsClass SELECTION_MODE_CLASS d
    (removeOverlay old (classListRemove old SELECTED_CLASS d)).
Proof.
  eapply keepsClass_trans; [|apply keepsClass_removeOverlay].
  by apply keepsClass_classListRemove.
Qed.

Lemma shown_clearSelection st : classesShown st → classesShown (clearSelection st).
Proof.
  intros Hsh. unfold clearSelection.
  destruct (selectedImage st) as [old|] eqn:Hsel; [|done].
  apply shown_notify.
  pose proof (deselected_none st old Hsh Hsel) as Hnone.
  pose proof (keeps_mode_deselect old (nodes (pg st))) as KM.
  destruct Hsh as (Hb & Hs & Hc). split; [|split]; simpl.
  - by apply (keepsClass_is_Some _ _ _ _ KM).
  - done.
  - intros x e He. split.
    + split; [|done]. intros Hin. by destruct (Hnone x e He).
    + destruct (keepsClass_lookup _ _ _ _ _ KM He) as [(e0 & He0 & I)|[Hn Hno]].
      * rewrite I. by apply Hc.
      * split; [done|]. intros [_ ->]. destruct Hb as [? Hb]. congruence.
Qed.

Lemma shown_selectImage i st :
  classesShown st → is_Some (nodes (pg st) !! i) →
  classesShown (selectImage i st).
Proof.
  intros Hsh Hi. unfold selectImage. case_bool_decide as Hsame; [done|].
  apply shown_notify.
  set (d1 := match selectedImage st with
             | Some old =>
                 removeOverlay old
                   (classListRemove old SELECTED_CLASS (nodes (pg st)))
             | None => nodes (pg st)
             end).
  set (d2 := classListAdd i SELECTED_CLASS d1).
  set (s2 := State (withNodes d2 (pg st)) (Some i) (selectionModeEnabled st)
               (runtimeSendMessage st) (sent st)).
  assert (∀ x e, d1 !! x = Some e → SELECTED_CLASS ∉ className e) as Hnone.
  { unfold d1. destruct (selectedImage st) as [old|] eqn:Hsel.
    - by apply deselected_none.
    - intros x e He Hin. destruct Hsh as (_ & _ & Hc).
      destruct (Hc x e He) as [[Hsx _] _]. specialize (Hsx Hin). congruence. }
  assert (keepsClass SELECTION_MODE_CLASS (nodes (pg st)) d1) as KM1.
  { unfold d1. destruct (selectedImage st);
      [apply keeps_mode_deselect|apply keepsClass_refl]. }
  assert (keepsClass SELECTION_MODE_CLASS (nodes (pg st)) d2) as KM2.
  { eapply keepsClass_trans; [exact KM1|]. by apply keepsClass_classListAdd. }
  assert (is_Some (d1 !! i)) as Hi1.
  { by apply (keepsClass_is_Some _ _ _ _ KM1). }
  assert (classesShown s2) as Hs2.
  { destruct Hsh as (Hb & Hs & Hc). split; [|split]; simpl.
    - by apply (keepsClass_is_Some _ _ _ _ KM2).
    - intros x [= <-]. by apply (keepsClass_is_Some _ _ _ _ KM2).
    - intros x e He. split.
      + unfold d2 in He. rewrite classListAdd_lookup in He.
        destruct (decide (x = i)) as [->|Hne].
        * destruct (d1 !! i) as [e1|]; [|done]. injection He as <-.
          split; [done|]. intros _. apply addClass_self.
        * split; [|congruence]. intros Hin. by destruct (Hnone x e He).
      + destruct (keepsClass_lookup _ _ _ _ _ KM2 He)
          as [(e0 & He0 & I)|[Hn Hno]].
        * rewrite I. by apply Hc.
        * split; [done|]. intros [_ ->]. destruct Hb as [? Hb]. congruence. }
  apply (shown_frame s2); try done.
  - by apply (keepsClass_applyNoise SELECTED_CLASS i (withNodes d2 (pg st))).
  - by apply (keepsClass_applyNoise SELECTION_MODE_CLASS i (withNodes d2 (pg st))).
  - simpl. by destruct (sameVars_selection_applyNoise i (withNodes d2 (pg st)))
      as (_ & -> & _).
Qed.

Lemma shown_enableSelectionMode st :
  classesShown st → classesShown (enableSelectionMode st).
Proof.
  intros Hsh. unfold enableSelectionMode.
  destruct (selectionModeEnabled st) eqn:Hmode; [done|].
  pose proof (keepsClass_classListAdd SELECTED_CLASS SELECTION_MODE_CLASS
                (body (pg st)) (nodes (pg st))) as KS.
  destruct Hsh as (Hb & Hs & Hc). split; [|split]; simpl.
  - by apply (keepsClass_is_Some _ _ _ _ (KS ltac:(done))).
  - intros x Hx. by apply (keepsClass_is_Some _ _ _ _ (KS ltac:(done))), Hs.
  - intros x e. rewrite classListAdd_lookup.
    destruct (decide (x = body (pg st))) as [->|Hne].
    + destruct (nodes (pg st) !! body (pg st)) as [e0|] eqn:E0; [|done].
      simpl. intros [= <-]. split.
      * rewrite addClass_other by done. by apply Hc.
      * split; [done|]. intros _. apply addClass_self.
    + intros He. split; [by apply Hc|].
      split; [|by intros [_ ?]]. intros Hin.
      destruct (Hc x e He) as [_ [Hm _]]. by destruct (Hm Hin).
Qed.

Lemma shown_disableSelectionMode st :
  classesShown st → classesShown (disableSelectionMode st).
Proof.
  intros Hsh. unfold disableSelectionMode.
  destruct (selectionModeEnabled st) eqn:Hmode; [|done].
  pose proof (keepsClass_classListRemove SELECTED_CLASS SELECTION_MODE_CLASS
                (body (pg st)) (nodes (pg st))) as KS.
  destruct Hsh as (Hb & Hs & Hc). split; [|split]; simpl.
  - by apply (keepsClass_is_Some _ _ _ _ (KS ltac:(done))).
  - intros x Hx. by apply (keepsClass_is_Some _ _ _ _ (KS ltac:(done))), Hs.
  - intros x e. rewrite classListRemove_lookup.
    destruct (decide (x = body (pg st))) as [->|Hne].
    + destruct (nodes (pg st) !! body (pg st)) as [e0|] eqn:E0; [|done].
      simpl. intros [= <-]. split.
      * rewrite removeClass_other by done. by apply Hc.
      * split; [|by intros [? _]]. intros Hin.
        by destruct (removeClass_self SELECTION_MODE_CLASS e0).
    + intros He. split; [by apply Hc|].
      split; [|by intros [? _]]. intros Hin.
      destruct (Hc x e He) as [_ [Hm _]]. by destruct (Hm Hin) as [_ ?].
Qed.

Lemma shown_click target st : classesShown st → classesShown (click target st).
Proof.
  intros Hsh. unfold click, selectionClickHandler.
  destruct (selectionModeEnabled st) eqn:Hmode; [|done].
  destruct (matchesTag (nodes (pg st)) "img" target) eqn:Htag; [|done].
  pose proof (shown_disableSelectionMode st Hsh) as Hd.
  apply shown_selectImage; [done|].
  unfold matchesTag in Htag.
  destruct (nodes (pg st) !! target) as [e|] eqn:E; [|done].
  unfold disableSelectionMode. rewrite Hmode. simpl.
  rewrite classListRemove_lookup.
  destruct (decide (target = body (pg st))); rewrite E; simpl; eauto.
Qed.

Lemma shown_applySettings pat raw st :
  classesShown st → classesShown (applySettings pat raw st).
Proof.
  intros Hsh.
  destruct (sameControl_applySettings pat raw st) as (Hsel & Hmode & _).
  set (p0 := Page (nodes (pg st)) (documentElement (pg st)) (body (pg st))
               (normalizeSettings raw) pat).
  assert (∀ cls, cls ≠ NOISE_WRAPPER_CLASS → cls ≠ NOISE_OVERLAY_CLASS →
            keepsClass cls (nodes (pg st)) (nodes (pg (applySettings pat raw st)))
            ∧ body (pg (applySettings pat raw st)) = body (pg st)) as K.
  { intros cls Hw Ho. unfold applySettings. fold p0.
    destruct (selectedImage st) as [i|]; simpl.
    - split.
      + eapply keepsClass_trans; [apply (keepsClass_refreshAllOverlays cls p0)|].
        by apply keepsClass_applyNoise.
      + by destruct (sameVars_selection_applyNoise i (refreshAllOverlays p0))
          as (_ & -> & _).
    - split; [apply (keepsClass_refreshAllOverlays cls p0)|done]. }
  apply (shown_frame st); try done.
  - by apply K.
  - by apply K.
  - by apply (K SELECTED_CLASS).
Qed.

Lemma shown_onStorageChanged pat changes area st :
  classesShown st → classesShown (onStorageChanged pat changes area st).
Proof.
  intros Hsh. unfold onStorageChanged.
  destruct (storageUpdate _ _ _); [by apply shown_applySettings|done].
Qed.

Lemma shown_fireLoad ev i w h st :
  classesShown st → classesShown (fireLoad ev i w h st).1.
Proof.
  intros Hsh. unfold fireLoad.
  destruct (nodes (pg st) !! i) as [e|]; [|done].
  generalize (loadListeners e). intros l.
  assert (classesShown
            (withDom (alter (λ e0, withLoadListeners [] (withLoaded w h e0)) i
                            (nodes (pg st))) st, @nil response).1) as H0.
  { simpl. apply shown_withDom; [done| |]; by apply keepsClass_alter. }
  revert H0.
  generalize (withDom (alter (λ e0, withLoadListeners [] (withLoaded w h e0)) i
                             (nodes (pg st))) st, @nil response).
  induction l as [|a l IH]; intros acc Hacc; simpl; [done|].
  apply IH. destruct a; simpl; [|done].
  apply (shown_frame acc.1); try done; simpl.
  - by apply keepsClass_doApply.
  - by apply keepsClass_doApply.
  - by destruct (sameVars_selection_doApply i (pg acc.1)) as (_ & -> & _).
Qed.

Lemma export_nodes img s env (d : gmap positive element) :
  (generateNoisyDataUrl img s env d).2 = d
  ∨ ∃ i s', (generateNoisyDataUrl img s env d).2
            = addLoadListener i (ExportOnLoad s') d.
Proof.
  unfold generateNoisyDataUrl.
  destruct (img ≫= λ i, (λ e, (i, e)) <$> d !! i) as [[i e]|]; [|by left].
  destruct ((naturalWidth e =? 0) || (naturalHeight e =? 0))%N; [by left|].
  destruct (negb (context2d env)); [by left|].
  destruct (loaded e); [by left|]. right. by exists i, s.
Qed.

Lemma shown_onMessage ev m st :
  classesShown st → classesShown (onMessage ev m st).1.
Proof.
  intros Hsh. destruct m; simpl; try done.
  - by apply shown_enableSelectionMode.
  - by apply shown_clearSelection, shown_disableSelectionMode.
  - unfold handleApplyNoiseRequest.
    destruct (selectedImage st) eqn:Hsel; [|done].
    pose proof (shown_applySettings (pattern ev)
                  (match payload with Some o => Some o | None => Some ∅ end)
                  st Hsh) as H1.
    by destruct (runtimeSendMessage (applySettings _ _ st)).
  - destruct (selectedImage st) as [i|] eqn:Hsel; [|done].
    pose proof (export_nodes (Some i)
                  (normalizeSettings
                     match payload with
                     | Some o => Some o
                     | None => asObject (currentSettings (pg st))
                     end)
                  (export ev) (nodes (pg st))) as Hd.
    destruct (generateNoisyDataUrl _ _ _ _) as [r d]. simpl in *.
    destruct Hd as [->|(j & s & ->)].
    + apply shown_withDom; [done| |]; apply keepsClass_refl.
    + apply shown_withDom; [done| |]; by apply keepsClass_alter.
Qed.

Lemma shown_step e st : classesShown st → classesShown (step e st).1.
Proof.
  intros Hsh. destruct e; simpl.
  - by apply shown_onMessage.
  - by apply shown_click.
  - by apply shown_fireLoad.
  - by apply shown_onStorageChanged.
Qed.

Lemma shown_run events st : classesShown st → classesShown (run events st).1.
Proof.
  revert st. induction events as [|e rest IH]; intros st Hsh; simpl; [done|].
  pose proof (shown_step e st Hsh) as H1.
  destruct (step e st) as [st1 out1]. simpl in H1.
  specialize (IH st1 H1). by destruct (run rest st1) as [st2 out2].
Qed.

Lemma body_applySettings pat raw st :
  body (pg (applySettings pat raw st)) = body (pg st).
Proof.
  unfold applySettings. destruct (selectedImage st) as [i|]; simpl; [|done].
  match goal with
  | |- body (Selection.applyNoise i ?p) = _ =>
      by destruct (sameVars_selection_applyNoise i p) as (_ & -> & _)
  end.
Qed.

Lemma body_step e st : body (pg (step e st).1) = body (pg st).
Proof.
  destruct e as [ev m|t|ev i w h|pat changes areaName]; simpl.
  - destruct m as [| | |payload|payload|]; simpl; try done.
    + by destruct (sameVars_enableSelectionMode st) as (_ & -> & _).
    + destruct (sameVars_clearSelection (disableSelectionMode st))
        as (_ & -> & _).
      by destruct (sameVars_disableSelectionMode st) as (_ & -> & _).
    + unfold handleApplyNoiseRequest.
      destruct (selectedImage st); simpl; [|done].
      case_match; simpl; apply body_applySettings.
    + destruct (selectedImage st); simpl; [|done].
      by destruct (generateNoisyDataUrl _ _ _ _).
  - by destruct (sameVars_click t st) as (_ & -> & _).
  - by destruct (sameVars_selection_fireLoad ev i w h st) as (_ & -> & _).
  - unfold onStorageChanged.
    destruct (storageUpdate _ _ _); [apply body_applySettings|done].
Qed.

Lemma body_run events st : body (pg (run events st).1) = body (pg st).
Proof.
  revert st. induction events as [|e rest IH]; intros st; simpl; [done|].
  pose proof (body_step e st) as H1.
  destruct (step e st) as [st1 out1]. simpl in H1.
  specialize (IH st1). destruct (run rest st1) as [st2 out2]. simpl in *.
  congruence.
Qed.

(** A state in which nothing is selected, the selection mode is off and
    no element carries one of the two classes. *)
Lemma shown_initial st :
  is_Some (nodes (pg st) !! body (pg st)) →
  selectedImage st = None → selectionModeEnabled st = false →
  (∀ x e, nodes (pg st) !! x = Some e →
          (SELECTED_CLASS ∉ className e)
          ∧ (SELECTION_MODE_CLASS ∉ className e)) →
  classesShown st.
Proof.
  intros Hb Hsel Hmode Hno. split; [done|]. split.
  - intros x Hx. congruence.
  - intros x e He. destruct (Hno x e He) as [H1 H2].
    rewrite Hsel, Hmode. split; split; try done. by intros [? _].
Qed.

Lemma sample_shown : classesShown Sample.state0.
Proof.
  apply shown_initial; try done.
  intros x e Hx. simpl in Hx. unfold Sample.document in Hx.
  repeat (apply lookup_insert_Some in Hx as [[<- <-]|[_ Hx]];
          [split; apply not_elem_of_nil|]).
  done.
Qed.

(** X20.  The two classes of the selection script show its state, over
    any run of messages, clicks, load events and storage notifications:
    an element carries the selected class exactly if it is the selected
    image, and the selection-mode class exactly if it is the body while
    the selection mode is on.  So at most one element carries the
    selected class, the selected image always carries it, nothing
    carries it when no image is selected, and nothing carries the
    selection-mode class while the mode is off. *)
Theorem classes_show_state (events : list event) (st : state) :
  classesShown st →
  let st' := (run events st).1 in
  let d' := nodes (pg st') in
  classesShown st'
  ∧ (∀ x y ex ey, d' !! x = Some ex → d' !! y = Some ey →
       SELECTED_CLASS ∈ className ex → SELECTED_CLASS ∈ className ey → x = y)
  ∧ (∀ i, selectedImage st' = Some i →
       ∃ e, d' !! i = Some e ∧ SELECTED_CLASS ∈ className e)
  ∧ (selectedImage st' = None →
       ∀ x e, d' !! x = Some e → SELECTED_CLASS ∉ className e)
  ∧ (selectionModeEnabled st' = false →
       ∀ x e, d' !! x = Some e → SELECTION_MODE_CLASS ∉ className e)
  ∧ (selectionModeEnabled st' = true →
       ∃ e, d' !! body (pg st) = Some e ∧ SELECTION_MODE_CLASS ∈ className e).
Proof.
  intros Hsh st' d'.
  pose proof (shown_run events st Hsh) as H'. fold st' in H'.
  split; [done|]. destruct H' as (Hb & Hs & Hc). fold d' in Hb, Hs, Hc.
  split; [|split; [|split; [|split]]].
  - intros x y ex ey Hx Hy Hinx Hiny.
    destruct (Hc x ex Hx) as [[Hsx _] _]. destruct (Hc y ey Hy) as [[Hsy _] _].
    specialize (Hsx Hinx). specialize (Hsy Hiny). congruence.
  - intros i Hi. destruct (Hs i Hi) as [e He]. exists e. split; [done|].
    by apply (Hc i e He).
  - intros Hn x e He Hin. destruct (Hc x e He) as [[Hsx _] _].
    specialize (Hsx Hin). congruence.
  - intros Hn x e He Hin. destruct (Hc x e He) as [_ [Hm _]].
    destruct (Hm Hin). congruence.
  - intros Hm. assert (body (pg st') = body (pg st)) as Hbody.
    { apply body_run. }
    rewrite Hbody in Hb. destruct Hb as [e He]. exists e. split; [done|].
    apply (Hc _ e He). by rewrite Hbody.
Qed.

Lemma classes_show_state_witness :
  classesShown
    (run [Message (Env "data:," (ExportEnv true (Encoded "data:,") 0))
            ANI_START_SELECTION; Click 3; Click 4]
         Sample.state0).1.
Proof.
  destruct (classes_show_state
              [Message (Env "data:," (ExportEnv true (Encoded "data:,") 0))
                 ANI_START_SELECTION; Click 3; Click 4]
              Sample.state0 sample_shown) as [H _].
  exact H.
Defined.

End ShownClasses.
